(** * Verification of the lazy library loader and the event listener manager

    Shallow embedding of [assets/js/lazy-loader.js] (class
    [LazyLibraryLoader]) and of the [EventListenerManager] class of the
    performance utilities, with the browser objects they touch (promises,
    the script elements of [document.head], the [window] object, the timer
    queue, the listener lists of DOM nodes) modelled as explicit state. *)

From Stdlib Require Import ZArith Ascii String List Bool Lia.
From stdpp Require Import base option list gmap strings pretty countable.

Import ListNotations.
Local Open Scope string_scope.
Local Open Scope list_scope.

(** ** JavaScript values *)

Module JS.

(** The values the two classes handle: primitives and references to
    objects (an object is known by its identity only). *)
Inductive Value : Type :=
  | VUndef
  | VNull
  | VBool (b : bool)
  | VNum (z : Z)
  | VStr (s : string)
  | VObj (id : nat).

#[global] Instance Value_eq_dec : EqDecision Value.
Proof. solve_decision. Defined.

Definition Value_to_sum (v : Value) : unit + unit + bool + Z + string + nat :=
  match v with
  | VUndef => inl (inl (inl (inl (inl tt))))
  | VNull => inl (inl (inl (inl (inr tt))))
  | VBool b => inl (inl (inl (inr b)))
  | VNum z => inl (inl (inr z))
  | VStr s => inl (inr s)
  | VObj id => inr id
  end.

Definition Value_of_sum (x : unit + unit + bool + Z + string + nat) : Value :=
  match x with
  | inl (inl (inl (inl (inl _)))) => VUndef
  | inl (inl (inl (inl (inr _)))) => VNull
  | inl (inl (inl (inr b))) => VBool b
  | inl (inl (inr z)) => VNum z
  | inl (inr s) => VStr s
  | inr id => VObj id
  end.

#[global] Instance Value_countable : Countable Value.
Proof.
  refine (inj_countable' Value_to_sum Value_of_sum _).
  intros []; reflexivity.
Defined.

(** ToBoolean: what [if (x)], [!x] and [a && b] test. *)
Definition truthy (v : Value) : bool :=
  match v with
  | VUndef | VNull => false
  | VBool b => b
  | VNum z => negb (z =? 0)%Z
  | VStr s => negb (String.eqb s "")
  | VObj _ => true
  end.

(** ToString, as a template literal or a property access applies it. An
    object is known by its identity only, so the text that its own
    [toString] gives is not modelled: an object is written as a plain
    object is. A number is written with all its digits, which JavaScript
    does for the integers it represents exactly; [exact_text] below tells
    the values whose text this is. *)
Definition to_string (v : Value) : string :=
  match v with
  | VUndef => "undefined"
  | VNull => "null"
  | VBool true => "true"
  | VBool false => "false"
  | VNum z => pretty z
  | VStr s => s
  | VObj _ => "[object Object]"
  end.

(** The values that [to_string] writes exactly as JavaScript does:
    [undefined], [null], booleans, strings and the safe integers (below
    2^53 in magnitude). *)
Definition exact_text (v : Value) : bool :=
  match v with
  | VNum z => (Z.abs z <? 2 ^ 53)%Z
  | VObj _ => false
  | _ => true
  end.

End JS.

(** ** The lazy library loader *)

Module LazyLoader.
Import JS.

(** A [checkFn] is a probe such as [() => window.cv]: it reads the
    [window] object and returns what it finds, without changing
    anything. *)
Definition Probe : Type := gmap string Value -> Value.

(** State of a promise. [Adopts p] is a promise resolved with the promise
    [p] (what an [async] function returns when its body returns [p]);
    [Catches p] is [p.catch(() => {})]. A library handle is a plain value:
    resolving a promise with it fulfils the promise. *)
Inductive PState : Type :=
  | Pending
  | Fulfilled (v : Value)
  | Rejected (msg : string)
  | Adopts (p : nat)
  | Catches (p : nat).

(** A script element appended to [document.head], with what its [onload]
    and [onerror] closures captured. [sc_fired] records that the browser
    has delivered its load or error event (it delivers one of them, once). *)
Record Script : Type := mkScript {
  sc_src : string;
  sc_name : Value;
  sc_url : Value;
  sc_checkFn : option Probe;
  sc_promise : nat;
  sc_fired : bool
}.

(** A callback waiting in the browser's queues, with the [method] its
    closure captured. *)
Inductive Scheduled : Type :=
  | IdleCallback (method : Value) (timeout : nat)
  | Timeout (method : Value) (delay : nat).

Definition task_method (t : Scheduled) : Value :=
  match t with IdleCallback m _ => m | Timeout m _ => m end.

Record World : Type := mkWorld {
  loadedLibraries : gmap Value Value;
  loadingPromises : gmap Value nat;
  promises : list PState;
  head : list Script;
  window : gmap string Value;
  queue : list Scheduled
}.

(** [new LazyLibraryLoader()] on a page with the given [window]. *)
Definition init (win : gmap string Value) : World :=
  mkWorld ∅ ∅ [] [] win [].

Definition set_loaded (f : gmap Value Value -> gmap Value Value) (w : World) : World :=
  mkWorld (f (loadedLibraries w)) (loadingPromises w) (promises w) (head w)
          (window w) (queue w).

Definition set_loading (f : gmap Value nat -> gmap Value nat) (w : World) : World :=
  mkWorld (loadedLibraries w) (f (loadingPromises w)) (promises w) (head w)
          (window w) (queue w).

Definition set_promises (f : list PState -> list PState) (w : World) : World :=
  mkWorld (loadedLibraries w) (loadingPromises w) (f (promises w)) (head w)
          (window w) (queue w).

Definition set_head (f : list Script -> list Script) (w : World) : World :=
  mkWorld (loadedLibraries w) (loadingPromises w) (promises w) (f (head w))
          (window w) (queue w).

Definition set_window (f : gmap string Value -> gmap string Value) (w : World) : World :=
  mkWorld (loadedLibraries w) (loadingPromises w) (promises w) (head w)
          (f (window w)) (queue w).

Definition set_queue (f : list Scheduled -> list Scheduled) (w : World) : World :=
  mkWorld (loadedLibraries w) (loadingPromises w) (promises w) (head w)
          (window w) (f (queue w)).

(** *** Promises *)

(** Allocate a promise; its identity is its index in the table. *)
Definition alloc (st : PState) (w : World) : nat * World :=
  (length (promises w), set_promises (fun ps => ps ++ [st]) w).

(** [resolve(v)] / [reject(e)] of a promise made with [new Promise]: only a
    pending promise changes. *)
Definition settle (p : nat) (st : PState) (ps : list PState) : list PState :=
  match ps !! p with
  | Some Pending => <[p := st]> ps
  | _ => ps
  end.

(** What an awaiting caller eventually observes. *)
Inductive Outcome : Type :=
  | OPending
  | OFulfilled (v : Value)
  | ORejected (msg : string).

(** A promise only ever adopts or catches a promise that exists already, so
    the outcomes are computed from the oldest promise on. *)
Definition resolve_entry (earlier : list Outcome) (st : PState) : Outcome :=
  match st with
  | Pending => OPending
  | Fulfilled v => OFulfilled v
  | Rejected m => ORejected m
  | Adopts p => default OPending (earlier !! p)
  | Catches p =>
      match default OPending (earlier !! p) with
      | ORejected _ => OFulfilled VUndef
      | o => o
      end
  end.

Definition outcomes (ps : list PState) : list Outcome :=
  fold_left (fun acc st => acc ++ [resolve_entry acc st]) ps [].

Definition outcome (w : World) (p : nat) : Outcome :=
  default OPending (outcomes (promises w) !! p).

(** *** The class *)

(** [`Failed to load library: ${name} from ${url}`] *)
Definition load_error (name url : Value) : string :=
  "Failed to load library: " +:+ to_string name +:+ " from " +:+ to_string url.

(** The [return] of an [async] method: the caller gets a new promise that
    is resolved with the returned one. *)
Definition async_return (p : nat) (w : World) : nat * World :=
  alloc (Adopts p) w.

(** [checkFn && checkFn()] *)
Definition check_hit (checkFn : option Probe) (w : World) : bool :=
  match checkFn with
  | Some f => truthy (f (window w))
  | None => false
  end.

(** [async loadScript(name, url, checkFn = null)] *)
Definition loadScript (name url : Value) (checkFn : option Probe) (w : World)
  : nat * World :=
  if check_hit checkFn w then
    let w1 := set_loaded (fun m => <[name := VBool true]> m) w in
    let lib := match checkFn with Some f => f (window w1) | None => VUndef end in
    let '(p, w2) := alloc (Fulfilled lib) w1 in
    async_return p w2
  else
    match loadedLibraries w !! name with
    | Some v =>
        let '(p, w1) := alloc (Fulfilled v) w in
        async_return p w1
    | None =>
        match loadingPromises w !! name with
        | Some p => async_return p w
        | None =>
            let '(p, w1) := alloc Pending w in
            let script := mkScript (to_string url) name url checkFn p false in
            let w2 := set_head (fun h => h ++ [script]) w1 in
            let w3 := set_loading (fun m => <[name := p]> m) w2 in
            async_return p w3
        end
    end.

(** The script once the browser has delivered its event. *)
Definition fire (sc : Script) : Script :=
  mkScript (sc_src sc) (sc_name sc) (sc_url sc) (sc_checkFn sc) (sc_promise sc) true.

(** [script.onload], run when the browser reports that script [i] loaded. *)
Definition script_onload (i : nat) (w : World) : World :=
  match head w !! i with
  | Some sc =>
      if sc_fired sc then w else
      let lib := match sc_checkFn sc with
                 | Some f => f (window w)
                 | None => VBool true
                 end in
      let w1 := set_loaded (fun m => <[sc_name sc := lib]> m) w in
      let w2 := set_loading (fun m => delete (sc_name sc) m) w1 in
      let w3 := set_promises (settle (sc_promise sc) (Fulfilled lib)) w2 in
      set_head (fun h => <[i := fire sc]> h) w3
  | None => w
  end.

(** [script.onerror], run when the browser reports that script [i] failed. *)
Definition script_onerror (i : nat) (w : World) : World :=
  match head w !! i with
  | Some sc =>
      if sc_fired sc then w else
      let w1 := set_loading (fun m => delete (sc_name sc) m) w in
      let w2 := set_promises
                  (settle (sc_promise sc)
                          (Rejected (load_error (sc_name sc) (sc_url sc)))) w1 in
      set_head (fun h => <[i := fire sc]> h) w2
  | None => w
  end.

Definition read (key : string) : Probe :=
  fun win => default VUndef (win !! key).

Definition loadOpenCV : World -> nat * World :=
  loadScript (VStr "opencv") (VStr "/assets/js/opencv.js") (Some (read "cv")).

Definition loadFaceAPI : World -> nat * World :=
  loadScript (VStr "faceapi")
    (VStr "https://cdn.jsdelivr.net/npm/face-api.js@0.22.2/dist/face-api.min.js")
    (Some (read "faceapi")).

Definition loadTesseract : World -> nat * World :=
  loadScript (VStr "tesseract")
    (VStr "https://cdn.jsdelivr.net/npm/tesseract.js@5.1.0/dist/tesseract.min.js")
    (Some (read "Tesseract")).

Definition loadJsPDF : World -> nat * World :=
  loadScript (VStr "jspdf") (VStr "/assets/js/jspdf.umd.min.js")
    (Some (read "jspdf")).

(** [isLoaded(name)]: the answer and the world it leaves. *)
Definition isLoaded (name : Value) (w : World) : bool * World :=
  (bool_decide (is_Some (loadedLibraries w !! name)), w).

(** [unload(name)] *)
Definition unload (name : Value) (w : World) : World :=
  set_loading (fun m => delete name m) (set_loaded (fun m => delete name m) w).

(** *** [preload] and the callback it schedules *)

(** The function-valued properties that [this[method]] can find on a
    loader: the methods of the class, and the functions every object
    inherits from [Object.prototype]. The own properties
    [loadedLibraries] and [loadingPromises] hold maps, [__proto__] an
    object, and any other key is [undefined]. *)
Inductive Method : Type :=
  | MConstructor
  | MLoadScript
  | MLoadOpenCV
  | MLoadFaceAPI
  | MLoadTesseract
  | MLoadJsPDF
  | MPreload
  | MIsLoaded
  | MUnload
  | MInherited.

Definition methods : list (string * Method) :=
  [ ("constructor", MConstructor);
    ("loadScript", MLoadScript);
    ("loadOpenCV", MLoadOpenCV);
    ("loadFaceAPI", MLoadFaceAPI);
    ("loadTesseract", MLoadTesseract);
    ("loadJsPDF", MLoadJsPDF);
    ("preload", MPreload);
    ("isLoaded", MIsLoaded);
    ("unload", MUnload);
    ("hasOwnProperty", MInherited);
    ("isPrototypeOf", MInherited);
    ("propertyIsEnumerable", MInherited);
    ("toString", MInherited);
    ("toLocaleString", MInherited);
    ("valueOf", MInherited);
    ("__defineGetter__", MInherited);
    ("__defineSetter__", MInherited);
    ("__lookupGetter__", MInherited);
    ("__lookupSetter__", MInherited) ].

(** [typeof this[key] === 'function'], with the function found. *)
Definition function_property (key : string) : option Method :=
  snd <$> List.find (fun kv => String.eqb (fst kv) key) methods.

(** [preload(method)]: only schedules the callback [load]. *)
Definition preload (method : Value) (w : World) : World :=
  if bool_decide (is_Some (window w !! "requestIdleCallback"))
  then set_queue (fun q => q ++ [IdleCallback method 2000]) w
  else set_queue (fun q => q ++ [Timeout method 1000]) w.

(** How a statement ends. *)
Inductive Completion : Type :=
  | Normal (w : World)
  | Throw (err : string) (w : World).

(** What a call [this[method]()] gives back. *)
Inductive Returned : Type :=
  | RPromise (p : nat)
  | RValue (v : Value)
  | RThrow (err : string).

(** [this[method]()]: the method called with no argument, so every
    parameter is [undefined] ([checkFn] takes its default [null]). The
    inherited functions return a string, a boolean, [undefined] or the
    loader itself, or throw; none returns a promise or touches the loader,
    and [RValue VUndef] stands for all of them. *)
Definition invoke (m : Method) (w : World) : Returned * World :=
  match m with
  | MConstructor => (RThrow "TypeError", w)
  | MLoadScript => let '(p, w') := loadScript VUndef VUndef None w in (RPromise p, w')
  | MLoadOpenCV => let '(p, w') := loadOpenCV w in (RPromise p, w')
  | MLoadFaceAPI => let '(p, w') := loadFaceAPI w in (RPromise p, w')
  | MLoadTesseract => let '(p, w') := loadTesseract w in (RPromise p, w')
  | MLoadJsPDF => let '(p, w') := loadJsPDF w in (RPromise p, w')
  | MPreload => (RValue VUndef, preload VUndef w)
  | MIsLoaded => let '(b, w') := isLoaded VUndef w in (RValue (VBool b), w')
  | MUnload => (RValue VUndef, unload VUndef w)
  | MInherited => (RValue VUndef, w)
  end.

(** The callback [load] of [preload(method)]: calls the method and
    attaches [.catch(() => {})] to what it returns; a value without a
    [catch] method makes that call a [TypeError]. *)
Definition preload_load (method : Value) (w : World) : Completion :=
  match function_property (to_string method) with
  | Some m =>
      match invoke m w with
      | (RPromise p, w') => Normal (snd (alloc (Catches p) w'))
      | (RValue _, w') => Throw "TypeError" w'
      | (RThrow e, w') => Throw e w'
      end
  | None => Normal w
  end.

(** The browser runs the [k]-th waiting callback. *)
Definition run_task (k : nat) (w : World) : Completion :=
  match queue w !! k with
  | Some t => preload_load (task_method t) (set_queue (fun q => delete k q) w)
  | None => Normal w
  end.

Definition after (c : Completion) : World :=
  match c with Normal w => w | Throw _ w => w end.

(** *** Everything that can happen to a loader *)

Inductive Action : Type :=
  | Request (name url : Value) (checkFn : option Probe)
  | Preload (method : Value)
  | IsLoaded (name : Value)
  | Unload (name : Value)
  | ScriptLoaded (i : nat)
  | ScriptFailed (i : nat)
  | RunTask (k : nat)
  | SetWindow (win : gmap string Value).

Definition step (a : Action) (w : World) : World :=
  match a with
  | Request name url checkFn => snd (loadScript name url checkFn w)
  | Preload method => preload method w
  | IsLoaded name => snd (isLoaded name w)
  | Unload name => unload name w
  | ScriptLoaded i => script_onload i w
  | ScriptFailed i => script_onerror i w
  | RunTask k => after (run_task k w)
  | SetWindow win => set_window (fun _ => win) w
  end.

Definition run (acts : list Action) (w : World) : World :=
  fold_left (fun w a => step a w) acts w.

(** *** Vocabulary of the properties *)

(** The answer of [isLoaded(name)]. *)
Definition loaded (name : Value) (w : World) : bool := fst (isLoaded name w).

(** Several calls [loadScript(name, url, checkFn)] in a row for one name;
    the promises returned, in call order. *)
Fixpoint request_all (name : Value) (reqs : list (Value * option Probe))
    (w : World) : list nat * World :=
  match reqs with
  | [] => ([], w)
  | (url, checkFn) :: rest =>
      let '(p, w1) := loadScript name url checkFn w in
      let '(ps, w2) := request_all name rest w1 in
      (p :: ps, w2)
  end.

(** The arguments with which a method called without argument reaches
    [loadScript], if it does. *)
Definition method_request (m : Method) : option (Value * Value * option Probe) :=
  match m with
  | MLoadScript => Some (VUndef, VUndef, None)
  | MLoadOpenCV =>
      Some (VStr "opencv", VStr "/assets/js/opencv.js", Some (read "cv"))
  | MLoadFaceAPI =>
      Some (VStr "faceapi",
            VStr "https://cdn.jsdelivr.net/npm/face-api.js@0.22.2/dist/face-api.min.js",
            Some (read "faceapi"))
  | MLoadTesseract =>
      Some (VStr "tesseract",
            VStr "https://cdn.jsdelivr.net/npm/tesseract.js@5.1.0/dist/tesseract.min.js",
            Some (read "Tesseract"))
  | MLoadJsPDF =>
      Some (VStr "jspdf", VStr "/assets/js/jspdf.umd.min.js", Some (read "jspdf"))
  | _ => None
  end.

(** The method that the [k]-th waiting callback will call, if any. *)
Definition task_call (k : nat) (w : World) : option Method :=
  match queue w !! k with
  | Some t => function_property (to_string (task_method t))
  | None => None
  end.

(** The action resolves a request for [name] successfully: a call whose
    presence check finds the library, or the load event of a script
    injected for [name]. *)
Definition succeeds_for (name : Value) (a : Action) (w : World) : bool :=
  match a with
  | Request n _ checkFn => bool_decide (n = name) && check_hit checkFn w
  | ScriptLoaded i =>
      match head w !! i with
      | Some sc => negb (sc_fired sc) && bool_decide (sc_name sc = name)
      | None => false
      end
  | RunTask k =>
      match task_call k w ≫= method_request with
      | Some (n, _, checkFn) => bool_decide (n = name) && check_hit checkFn w
      | None => false
      end
  | _ => false
  end.

(** The action calls [unload(name)]. *)
Definition unloads (name : Value) (a : Action) (w : World) : bool :=
  match a with
  | Unload n => bool_decide (n = name)
  | RunTask k =>
      match task_call k w with
      | Some MUnload => bool_decide (name = VUndef)
      | _ => false
      end
  | _ => false
  end.

(** No action of the run resolves a request for [name] successfully. *)
Fixpoint never_recorded (name : Value) (acts : list Action) (w : World) : bool :=
  match acts with
  | [] => true
  | a :: rest => negb (succeeds_for name a w) && never_recorded name rest (step a w)
  end.

(** A promise table as it may look later: what was settled, or resolved
    with another promise, is still so. *)
Definition grows (ps ps' : list PState) : Prop :=
  forall p st, ps !! p = Some st -> st <> Pending -> ps' !! p = Some st.

(** What holds of every world a loader can be in: the promise of a script
    exists, is pending while the script has not reported, and belongs to
    that script only; a promise adopts or catches an older one; a tracked
    promise is that of a script still in flight for the same name. *)
Record Inv (w : World) : Prop := mkInv {
  inv_script_promise : forall i sc,
    head w !! i = Some sc -> sc_promise sc < length (promises w);
  inv_script_pending : forall i sc,
    head w !! i = Some sc -> sc_fired sc = false ->
    promises w !! sc_promise sc = Some Pending;
  inv_script_inj : forall i j sc sc',
    head w !! i = Some sc -> head w !! j = Some sc' ->
    sc_promise sc = sc_promise sc' -> i = j;
  inv_links : forall p q,
    promises w !! p = Some (Adopts q) \/ promises w !! p = Some (Catches q) ->
    q < p;
  inv_tracked : forall name q,
    loadingPromises w !! name = Some q ->
    exists i sc, head w !! i = Some sc /\ sc_promise sc = q
                 /\ sc_name sc = name /\ sc_fired sc = false
}.

End LazyLoader.

(** ** The event listener manager *)

Module Events.
Import JS.

(** The [options] argument of [addEventListener]: a boolean (the capture
    flag) or an object with the [capture], [once] and [passive] flags. *)
Inductive Options : Type :=
  | OptBool (capture : bool)
  | OptFlags (capture once passive : bool).

(** [options = false] *)
Definition default_options : Options := OptBool false.

Definition opt_capture (o : Options) : bool :=
  match o with OptBool c => c | OptFlags c _ _ => c end.

Definition opt_once (o : Options) : bool :=
  match o with OptBool _ => false | OptFlags _ o _ => o end.

Definition opt_passive (o : Options) : bool :=
  match o with OptBool _ => false | OptFlags _ _ p => p end.

(** The object [{ event, handler, options }] stored for a listener. A
    handler is a function, known by its identity. *)
Record Entry : Type := mkEntry {
  en_event : string;
  en_handler : nat;
  en_options : Options
}.

(** An event listener in the list of a DOM node. *)
Record Listener : Type := mkListener {
  li_type : string;
  li_callback : nat;
  li_capture : bool;
  li_once : bool;
  li_passive : bool
}.

(** The manager ([elementListeners], [listenerId]) and the listener lists
    of the nodes of the document. The inner [Map] keeps its entries in
    insertion order. *)
Record Page : Type := mkPage {
  elementListeners : gmap nat (list (string * Entry));
  listenerId : nat;
  nodes : gmap nat (list Listener)
}.

(** [new EventListenerManager()] on a document without listeners. *)
Definition empty : Page := mkPage ∅ 0 ∅.

Definition set_elementListeners
    (f : gmap nat (list (string * Entry)) -> gmap nat (list (string * Entry)))
    (w : Page) : Page :=
  mkPage (f (elementListeners w)) (listenerId w) (nodes w).

Definition set_listenerId (f : nat -> nat) (w : Page) : Page :=
  mkPage (elementListeners w) (f (listenerId w)) (nodes w).

Definition set_nodes
    (f : gmap nat (list Listener) -> gmap nat (list Listener)) (w : Page) : Page :=
  mkPage (elementListeners w) (listenerId w) (f (nodes w)).

(** *** The inner [Map] *)

Definition has_key (k : string) (kv : string * Entry) : bool :=
  String.eqb (fst kv) k.

(** [listeners.set(key, entry)] *)
Definition map_set (k : string) (e : Entry) (l : list (string * Entry))
  : list (string * Entry) :=
  if existsb (has_key k) l
  then map (fun kv => if has_key k kv then (k, e) else kv) l
  else l ++ [(k, e)].

(** [listeners.delete(key)] *)
Definition map_delete (k : string) (l : list (string * Entry))
  : list (string * Entry) :=
  List.filter (fun kv => negb (has_key k kv)) l.

(** *** The DOM *)

Definition listeners_of (el : nat) (w : Page) : list Listener :=
  default [] (nodes w !! el).

Definition same_listener (type : string) (cb : nat) (capture : bool)
    (l : Listener) : bool :=
  String.eqb (li_type l) type && Nat.eqb (li_callback l) cb
  && Bool.eqb (li_capture l) capture.

(** [element.addEventListener(type, callback, options)]: a listener with
    the same type, callback and capture flag is not added again. *)
Definition addEventListener (el : nat) (type : string) (cb : nat)
    (options : Options) (w : Page) : Page :=
  let ls := listeners_of el w in
  if existsb (same_listener type cb (opt_capture options)) ls then w
  else set_nodes (fun m => <[el := ls ++ [mkListener type cb (opt_capture options)
                                             (opt_once options)
                                             (opt_passive options)]]> m) w.

(** [element.removeEventListener(type, callback, options)]: identified by
    type, callback and capture flag (the list holds at most one such). *)
Definition removeEventListener (el : nat) (type : string) (cb : nat)
    (options : Options) (w : Page) : Page :=
  let ls := listeners_of el w in
  set_nodes (fun m => <[el := List.filter
                           (fun l => negb (same_listener type cb (opt_capture options) l))
                           ls]> m) w.

Definition of_type (type : string) (l : Listener) : bool :=
  String.eqb (li_type l) type.

(** An event of the given type dispatched at the node itself: the
    callbacks invoked (capturing listeners first), and the page once the
    [once] listeners that ran are removed. The handlers themselves are not
    modelled to call back into the manager. *)
Definition dispatch (el : nat) (type : string) (w : Page) : list nat * Page :=
  let ls := listeners_of el w in
  let hit := List.filter (of_type type) ls in
  (map li_callback (List.filter li_capture hit
                    ++ List.filter (fun l => negb (li_capture l)) hit),
   set_nodes (fun m => <[el := List.filter
                            (fun l => negb (of_type type l && li_once l)) ls]> m) w).

(** *** The class *)

(** How a call ends: normally, or with the [TypeError] of a [WeakMap]
    given a key that is not an object. *)
Inductive Result : Type :=
  | Ok (w : Page)
  | TypeError (w : Page).

Definition page_of (r : Result) : Page :=
  match r with Ok w => w | TypeError w => w end.

(** [`${event}_${this.listenerId++}`] *)
Definition key_of (event : string) (id : nat) : string :=
  event +:+ "_" +:+ pretty id.

(** [value.event === event && value.handler === handler] *)
Definition matches (event : string) (handler : nat) (kv : string * Entry) : bool :=
  String.eqb (en_event (snd kv)) event && Nat.eqb (en_handler (snd kv)) handler.

(** [add(element, event, handler, options = false)]. An element is a
    value: [null], [undefined], or an object (a DOM node). *)
Definition add (element : Value) (event : string) (handler : nat)
    (options : Options) (w : Page) : Result :=
  if negb (truthy element) then Ok w else
  match element with
  | VObj el =>
      let '(listeners, w1) :=
        match elementListeners w !! el with
        | Some l => (l, w)
        | None => ([], set_elementListeners (fun m => <[el := []]> m) w)
        end in
      let key := key_of event (listenerId w1) in
      let w2 := set_listenerId S w1 in
      if existsb (matches event handler) listeners then Ok w2
      else
        let w3 := addEventListener el event handler options w2 in
        Ok (set_elementListeners
              (fun m => <[el := map_set key (mkEntry event handler options) listeners]> m)
              w3)
  | _ => TypeError w
  end.

(** [remove(element, event, handler)] *)
Definition remove (element : Value) (event : string) (handler : nat)
    (w : Page) : Result :=
  if negb (truthy element) then Ok w else
  match element with
  | VObj el =>
      match elementListeners w !! el with
      | Some listeners =>
          let hits := List.filter (matches event handler) listeners in
          let w1 := fold_left
                      (fun w kv => removeEventListener el event handler
                                     (en_options (snd kv)) w) hits w in
          let keysToRemove := map fst hits in
          Ok (set_elementListeners
                (fun m => <[el := fold_left (fun l k => map_delete k l)
                                    keysToRemove listeners]> m) w1)
      | None => Ok w
      end
  | _ => Ok w
  end.

(** [removeAll()]: only warns on the console. *)
Definition removeAll (w : Page) : Result := Ok w.

(** [removeAllForElement(element)] *)
Definition removeAllForElement (element : Value) (w : Page) : Result :=
  if negb (truthy element) then Ok w else
  match element with
  | VObj el =>
      match elementListeners w !! el with
      | Some listeners =>
          let w1 := fold_left
                      (fun w kv => removeEventListener el (en_event (snd kv))
                                     (en_handler (snd kv)) (en_options (snd kv)) w)
                      listeners w in
          Ok (set_elementListeners (fun m => delete el m) w1)
      | None => Ok w
      end
  | _ => Ok w
  end.

(** *** Everything that can happen to a manager and its document *)

Inductive Interaction : Type :=
  | Add (element : Value) (event : string) (handler : nat) (options : Options)
  | Remove (element : Value) (event : string) (handler : nat)
  | RemoveAll
  | RemoveAllForElement (element : Value)
  | Dispatch (el : nat) (type : string).

Definition interact (a : Interaction) (w : Page) : Page :=
  match a with
  | Add element event handler options => page_of (add element event handler options w)
  | Remove element event handler => page_of (remove element event handler w)
  | RemoveAll => page_of (removeAll w)
  | RemoveAllForElement element => page_of (removeAllForElement element w)
  | Dispatch el type => snd (dispatch el type w)
  end.

Definition interact_all (acts : list Interaction) (w : Page) : Page :=
  fold_left (fun w a => interact a w) acts w.

(** Entries recorded for a node, and how many of them carry a given event
    and handler. *)
Definition entries_of (el : nat) (w : Page) : list (string * Entry) :=
  default [] (elementListeners w !! el).

Definition registrations (el : nat) (event : string) (handler : nat) (w : Page) : nat :=
  length (List.filter (matches event handler) (entries_of el w)).

(** How often a dispatch of [type] at [el] invokes the handler. *)
Definition attachments (el : nat) (type : string) (handler : nat) (w : Page) : nat :=
  length (List.filter
            (fun l => of_type type l && Nat.eqb (li_callback l) handler)
            (listeners_of el w)).

(** The entry stands behind the listener: same event and handler, and the
    flags the listener got from the entry's options. *)
Definition backs (kv : string * Entry) (l : Listener) : bool :=
  matches (li_type l) (li_callback l) kv
  && Bool.eqb (opt_capture (en_options (snd kv))) (li_capture l)
  && Bool.eqb (opt_once (en_options (snd kv))) (li_once l).

(** The action calls [add] on node [el]. *)
Definition adds_to (el : nat) (a : Interaction) : bool :=
  match a with
  | Add (VObj el') _ _ _ => Nat.eqb el' el
  | _ => false
  end.

(** The character occurs in the string. *)
Fixpoint occurs (c : Ascii.ascii) (s : string) : bool :=
  match s with
  | EmptyString => false
  | String x s' => Ascii.eqb x c || occurs c s'
  end.

(** What holds, for one node, of the entries recorded, the listeners
    attached and the counter, when all listeners were attached through the
    manager. *)
Record SoundAt (n : nat) (E : list (string * Entry)) (L : list Listener)
  : Prop := mkSoundAt {
  keys_nodup : List.NoDup (map fst E);
  keys_bound : forall kv,
    In kv E -> exists m, m < n /\ fst kv = key_of (en_event (snd kv)) m;
  entries_unique : forall event handler,
    length (List.filter (matches event handler) E) <= 1;
  listeners_backed : forall l,
    In l L -> exists kv, In kv E /\ backs kv l = true;
  listeners_unique : forall type handler,
    length (List.filter
              (fun l => of_type type l && Nat.eqb (li_callback l) handler) L) <= 1;
  persistent_attached : forall kv,
    In kv E -> opt_once (en_options (snd kv)) = false ->
    exists l, In l L /\ backs kv l = true
}.

Definition Sound (w : Page) : Prop :=
  forall el, SoundAt (listenerId w) (entries_of el w) (listeners_of el w).

End Events.

(** ** Runs of the loader *)

Module LoaderRuns.
Import JS LazyLoader.

(** The action calls [unload], whatever the name. *)
Definition calls_unload (a : Action) (w : World) : bool :=
  match a with
  | Unload _ => true
  | RunTask k =>
      match task_call k w with
      | Some MUnload => true
      | _ => false
      end
  | _ => false
  end.

(** No action of the run calls [unload]. *)
Fixpoint unload_free (acts : list Action) (w : World) : bool :=
  match acts with
  | [] => true
  | a :: rest => negb (calls_unload a w) && unload_free rest (step a w)
  end.

(** Every script in flight is the one tracked for its name. *)
Definition Tracked (w : World) : Prop :=
  forall i sc, head w !! i = Some sc -> sc_fired sc = false ->
               loadingPromises w !! sc_name sc = Some (sc_promise sc).

End LoaderRuns.

(** ** The DOM query cache *)

Module DomCache.
Import JS.

(** The document, as far as the cache asks it: what [getElementById],
    [querySelector] (an element or [null]) and [querySelectorAll] answer
    for a string. The last two throw a [SyntaxError] for a string that is
    not a valid selector: [None]. *)
Record Document : Type := mkDocument {
  doc_getElementById : string -> Value;
  doc_querySelector : string -> option Value;
  doc_querySelectorAll : string -> option (list Value)
}.

(** A [DOMCache] ([this.cache]) and the document of the page. *)
Record State : Type := mkState {
  cache : gmap Value Value;
  document : Document
}.

(** [new DOMCache()] *)
Definition fresh (doc : Document) : State := mkState ∅ doc.

Definition set_cache (f : gmap Value Value -> gmap Value Value) (s : State) : State :=
  mkState (f (cache s)) (document s).

(** [this.cache.get(key)] *)
Definition cache_get (key : Value) (s : State) : Value :=
  default VUndef (cache s !! key).

(** [getElementById(id)] *)
Definition getElementById (id : Value) (s : State) : Value * State :=
  let s1 := if bool_decide (is_Some (cache s !! id)) then s
            else set_cache
                   (fun m => <[id := doc_getElementById (document s) (to_string id)]> m)
                   s in
  (cache_get id s1, s1).

(** How a query ends: with an answer, or with the [SyntaxError] of the
    document. *)
Inductive Answer (A : Type) : Type :=
  | Returned (v : A) (s : State)
  | SyntaxError (s : State).
Arguments Returned {A} _ _.
Arguments SyntaxError {A} _.

Definition state_after {A} (r : Answer A) : State :=
  match r with Returned _ s => s | SyntaxError s => s end.

Definition answer_of {A} (r : Answer A) : option A :=
  match r with Returned v _ => Some v | SyntaxError _ => None end.

(** [querySelector(selector)] *)
Definition querySelector (selector : Value) (s : State) : Answer Value :=
  if bool_decide (is_Some (cache s !! selector)) then Returned (cache_get selector s) s
  else
    match doc_querySelector (document s) (to_string selector) with
    | Some v =>
        let s1 := set_cache (fun m => <[selector := v]> m) s in
        Returned (cache_get selector s1) s1
    | None => SyntaxError s
    end.

(** [querySelectorAll(selector)] *)
Definition querySelectorAll (selector : Value) (s : State) : Answer (list Value) :=
  match doc_querySelectorAll (document s) (to_string selector) with
  | Some l => Returned l s
  | None => SyntaxError s
  end.

(** [clear(key)] *)
Definition clear (key : Value) (s : State) : State :=
  if truthy key then set_cache (fun m => delete key m) s
  else set_cache (fun _ => ∅) s.

(** [invalidate()] *)
Definition invalidate (s : State) : State := set_cache (fun _ => ∅) s.

(** What happens to a cache and its page; [Mutate] is a change of the
    document. *)
Inductive Action : Type :=
  | GetElementById (id : Value)
  | QuerySelector (selector : Value)
  | QuerySelectorAll (selector : Value)
  | Clear (key : Value)
  | Invalidate
  | Mutate (doc : Document).

Definition step (a : Action) (s : State) : State :=
  match a with
  | GetElementById id => snd (getElementById id s)
  | QuerySelector selector => state_after (querySelector selector s)
  | QuerySelectorAll selector => state_after (querySelectorAll selector s)
  | Clear key => clear key s
  | Invalidate => invalidate s
  | Mutate doc => mkState (cache s) doc
  end.

Definition run (acts : list Action) (s : State) : State :=
  fold_left (fun s a => step a s) acts s.

(** The action leaves the entry of [key] in the cache. *)
Definition keeps (key : Value) (a : Action) : bool :=
  match a with
  | Clear k => truthy k && negb (bool_decide (k = key))
  | Invalidate => false
  | _ => true
  end.

(** The action is a lookup by id, or changes nothing the cache relies on. *)
Definition by_id_only (a : Action) : bool :=
  match a with
  | QuerySelector _ => false
  | Mutate _ => false
  | _ => true
  end.

(** Every cached answer is what the document answers for that id. *)
Definition Agrees (doc : Document) (s : State) : Prop :=
  document s = doc
  /\ forall key v, cache s !! key = Some v -> v = doc_getElementById doc (to_string key).

End DomCache.

(** ** Throttle, debounce and animation-frame throttle *)

Module Timing.
Import JS.

(** A call of the wrapped function: when, with which [this] and arguments,
    and whether it threw. The wrapped function is not modelled to call the
    wrapper back. *)
Record Invocation : Type := mkInvocation {
  at_time : nat;
  with_this : Value;
  with_args : list Value;
  threw : bool
}.

(** A timer set with [setTimeout]: its id, the time from which the browser
    may run it, and what its callback captured. *)
Record Timer (A : Type) : Type := mkTimer {
  tm_id : nat;
  tm_due : nat;
  tm_captured : A
}.
Arguments mkTimer {A} _ _ _.
Arguments tm_id {A} _.
Arguments tm_due {A} _.
Arguments tm_captured {A} _.

(** The clock in milliseconds, the timers waiting, and the last id given
    out (ids are positive). *)
Record Loop (A : Type) : Type := mkLoop {
  now : nat;
  timers : list (Timer A);
  issued : nat
}.
Arguments mkLoop {A} _ _ _.
Arguments now {A} _.
Arguments timers {A} _.
Arguments issued {A} _.

Definition idle {A} : Loop A := mkLoop 0 [] 0.

(** [setTimeout(callback, delay)] *)
Definition setTimeout {A} (captured : A) (delay : nat) (l : Loop A) : nat * Loop A :=
  let id := S (issued l) in
  (id, mkLoop (now l) (timers l ++ [mkTimer id (now l + delay) captured]) id).

(** [clearTimeout(id)] *)
Definition clearTimeout {A} (id : nat) (l : Loop A) : Loop A :=
  mkLoop (now l) (List.filter (fun t => negb (Nat.eqb (tm_id t) id)) (timers l))
         (issued l).

(** Time passes. *)
Definition tick {A} (dt : nat) (l : Loop A) : Loop A :=
  mkLoop (now l + dt) (timers l) (issued l).

(** The timer the browser may run now under this id, if there is one. *)
Definition ripe {A} (id : nat) (l : Loop A) : option (Timer A) :=
  List.find (fun t => Nat.eqb (tm_id t) id && Nat.leb (tm_due t) (now l)) (timers l).

(** *** [throttle(func, limit)] *)

(** The closure: [inThrottle] ([undefined] at first), the timers it set,
    and the calls of [func] so far. *)
Record Throttle : Type := mkThrottle {
  inThrottle : option bool;
  th_loop : Loop unit;
  th_calls : list Invocation
}.

Definition throttle : Throttle := mkThrottle None idle [].

Inductive Ending (S : Type) : Type :=
  | Returns (s : S)
  | Throws (s : S).
Arguments Returns {S} _.
Arguments Throws {S} _.

Definition state_of {S} (e : Ending S) : S :=
  match e with Returns s => s | Throws s => s end.

(** The throttled function, called with [this] and [args]; [fails] tells
    for which arguments [func] throws. *)
Definition throttled (fails : list Value -> bool) (limit : nat)
    (this : Value) (args : list Value) (s : Throttle) : Ending Throttle :=
  match inThrottle s with
  | Some true => Returns s
  | _ =>
      let call := mkInvocation (now (th_loop s)) this args (fails args) in
      let s1 := mkThrottle (inThrottle s) (th_loop s) (th_calls s ++ [call]) in
      if fails args then Throws s1
      else
        let '(_, l) := setTimeout tt limit (th_loop s1) in
        Returns (mkThrottle (Some true) l (th_calls s1))
  end.

(** The browser runs the timer [id]: [() => inThrottle = false]. *)
Definition throttle_timer (id : nat) (s : Throttle) : Throttle :=
  match ripe id (th_loop s) with
  | Some _ => mkThrottle (Some false) (clearTimeout id (th_loop s)) (th_calls s)
  | None => s
  end.

Inductive ThrottleAction : Type :=
  | TCall (this : Value) (args : list Value)
  | TTimer (id : nat)
  | TTick (dt : nat).

Definition throttle_step (fails : list Value -> bool) (limit : nat)
    (a : ThrottleAction) (s : Throttle) : Throttle :=
  match a with
  | TCall this args => state_of (throttled fails limit this args s)
  | TTimer id => throttle_timer id s
  | TTick dt => mkThrottle (inThrottle s) (tick dt (th_loop s)) (th_calls s)
  end.

Definition throttle_run (fails : list Value -> bool) (limit : nat)
    (acts : list ThrottleAction) (s : Throttle) : Throttle :=
  fold_left (fun s a => throttle_step fails limit a s) acts s.

(** A call of [func] that returned is followed by the next one no sooner
    than [limit] later. *)
Definition spaced (limit : nat) (calls : list Invocation) : Prop :=
  forall i c1 c2,
    calls !! i = Some c1 -> calls !! S i = Some c2 -> threw c1 = false ->
    at_time c1 + limit <= at_time c2.

(** What holds of a throttle at any time. *)
Record ThrottleInv (limit : nat) (s : Throttle) : Prop := mkThrottleInv {
  ti_spaced : spaced limit (th_calls s);
  ti_past : forall c, In c (th_calls s) -> at_time c <= now (th_loop s);
  ti_timer :
    match inThrottle s with
    | Some true =>
        exists c id, list.last (th_calls s) = Some c /\ threw c = false
                     /\ timers (th_loop s) = [mkTimer id (at_time c + limit) tt]
    | _ =>
        timers (th_loop s) = []
        /\ forall c, list.last (th_calls s) = Some c -> threw c = false ->
                     at_time c + limit <= now (th_loop s)
    end
}.

(** *** [debounce(func, wait, immediate)] *)

(** The variable [timeout]: [undefined] at first, a timer id, or [null]. *)
Inductive Handle : Type :=
  | HUndef
  | HNull
  | HId (id : nat).

(** [!timeout] *)
Definition no_handle (h : Handle) : bool :=
  match h with
  | HId id => Nat.eqb id 0
  | _ => true
  end.

(** [clearTimeout(timeout)] *)
Definition clear_handle {A} (h : Handle) (l : Loop A) : Loop A :=
  match h with
  | HId id => clearTimeout id l
  | _ => l
  end.

(** The closure: [timeout], the timers (each [later] captured the [this]
    and arguments of its call), and the calls of [func] so far. *)
Record Debounce : Type := mkDebounce {
  timeout : Handle;
  db_loop : Loop (Value * list Value);
  db_calls : list Invocation
}.

Definition debounce : Debounce := mkDebounce HUndef idle [].

(** The debounced function. *)
Definition debounced (fails : list Value -> bool) (wait : nat) (immediate : bool)
    (this : Value) (args : list Value) (s : Debounce) : Ending Debounce :=
  let callNow := immediate && no_handle (timeout s) in
  let l1 := clear_handle (timeout s) (db_loop s) in
  let '(id, l2) := setTimeout (this, args) wait l1 in
  let s1 := mkDebounce (HId id) l2 (db_calls s) in
  if callNow then
    let call := mkInvocation (now l2) this args (fails args) in
    let s2 := mkDebounce (HId id) l2 (db_calls s ++ [call]) in
    if fails args then Throws s2 else Returns s2
  else Returns s1.

(** The browser runs the timer [id]: the callback [later]. *)
Definition debounce_timer (fails : list Value -> bool) (immediate : bool)
    (id : nat) (s : Debounce) : Ending Debounce :=
  match ripe id (db_loop s) with
  | Some t =>
      let l := clearTimeout id (db_loop s) in
      if immediate then Returns (mkDebounce HNull l (db_calls s))
      else
        let '(this, args) := tm_captured t in
        let call := mkInvocation (now l) this args (fails args) in
        let s1 := mkDebounce HNull l (db_calls s ++ [call]) in
        if fails args then Throws s1 else Returns s1
  | None => Returns s
  end.

Inductive DebounceAction : Type :=
  | DCall (this : Value) (args : list Value)
  | DTimer (id : nat)
  | DTick (dt : nat).

Definition debounce_step (fails : list Value -> bool) (wait : nat) (immediate : bool)
    (a : DebounceAction) (s : Debounce) : Debounce :=
  match a with
  | DCall this args => state_of (debounced fails wait immediate this args s)
  | DTimer id => state_of (debounce_timer fails immediate id s)
  | DTick dt => mkDebounce (timeout s) (tick dt (db_loop s)) (db_calls s)
  end.

Definition debounce_run (fails : list Value -> bool) (wait : nat) (immediate : bool)
    (acts : list DebounceAction) (s : Debounce) : Debounce :=
  fold_left (fun s a => debounce_step fails wait immediate a s) acts s.

(** The action is a call or the passing of time, not a timer. *)
Definition no_timer (a : DebounceAction) : bool :=
  match a with DTimer _ => false | _ => true end.

(** What holds of a debounce at any time: the timer of [timeout] is the
    only one waiting. *)
Definition DebounceInv (s : Debounce) : Prop :=
  match timeout s with
  | HId id => exists due c, timers (db_loop s) = [mkTimer id due c]
  | _ => timers (db_loop s) = []
  end.

(** *** [rafThrottle(callback)] *)

(** The closure ([requestId], [lastArgs]), the animation frames requested
    (each [later(context)] captured its context), the last frame id given
    out, and the calls of [callback] so far with their [this] and
    arguments. *)
Record Raf : Type := mkRaf {
  requestId : option nat;
  lastArgs : option (list Value);
  frames : list (nat * Value);
  raf_issued : nat;
  raf_calls : list (Value * list Value)
}.

Definition rafThrottle : Raf := mkRaf None None [] 0 [].

(** [requestAnimationFrame(later(context))] *)
Definition requestAnimationFrame (context : Value) (s : Raf) : nat * Raf :=
  let id := S (raf_issued s) in
  (id, mkRaf (requestId s) (lastArgs s) (frames s ++ [(id, context)]) id (raf_calls s)).

(** [cancelAnimationFrame(id)] *)
Definition cancelAnimationFrame (id : nat) (s : Raf) : Raf :=
  mkRaf (requestId s) (lastArgs s)
        (List.filter (fun f => negb (Nat.eqb (fst f) id)) (frames s))
        (raf_issued s) (raf_calls s).

(** The function [throttled]. *)
Definition raf_throttled (this : Value) (args : list Value) (s : Raf) : Raf :=
  let s1 := mkRaf (requestId s) (Some args) (frames s) (raf_issued s) (raf_calls s) in
  match requestId s1 with
  | None =>
      let '(id, s2) := requestAnimationFrame this s1 in
      mkRaf (Some id) (lastArgs s2) (frames s2) (raf_issued s2) (raf_calls s2)
  | Some _ => s1
  end.

(** [throttled.cancel()] *)
Definition raf_cancel (s : Raf) : Raf :=
  match requestId s with
  | Some id =>
      let s1 := cancelAnimationFrame id s in
      mkRaf None (lastArgs s1) (frames s1) (raf_issued s1) (raf_calls s1)
  | None => s
  end.

(** The browser runs the frame [id]: the callback made by [later]. Applied
    to [undefined] arguments a function is called without arguments. The
    state is the same whether [callback] returns or throws. *)
Definition raf_frame (id : nat) (s : Raf) : Raf :=
  match List.find (fun f => Nat.eqb (fst f) id) (frames s) with
  | Some (_, context) =>
      let s1 := cancelAnimationFrame id s in
      mkRaf None (lastArgs s1) (frames s1) (raf_issued s1)
            (raf_calls s1 ++ [(context, default [] (lastArgs s1))])
  | None => s
  end.

Inductive RafAction : Type :=
  | RCall (this : Value) (args : list Value)
  | RCancel
  | RFrame (id : nat).

Definition raf_step (a : RafAction) (s : Raf) : Raf :=
  match a with
  | RCall this args => raf_throttled this args s
  | RCancel => raf_cancel s
  | RFrame id => raf_frame id s
  end.

Definition raf_run (acts : list RafAction) (s : Raf) : Raf :=
  fold_left (fun s a => raf_step a s) acts s.

(** Calls of the throttled function, one after the other. *)
Definition raf_calls_of (calls : list (Value * list Value)) : list RafAction :=
  map (fun c => RCall (fst c) (snd c)) calls.

(** What holds of the closure at any time: the frame of [requestId] is
    the only one requested. *)
Definition RafInv (s : Raf) : Prop :=
  match requestId s with
  | Some id => exists context, frames s = [(id, context)]
  | None => frames s = []
  end.

End Timing.

(** ** The earlier [EventListenerManager], with one [Map] keyed by tag,
    event and handler name *)

Module Legacy.
Import JS.

(** The object [{ element, event, handler, options }] stored for a
    listener. *)
Record Tracked : Type := mkTracked {
  tr_element : nat;
  tr_event : string;
  tr_handler : nat;
  tr_options : Events.Options
}.

(** The manager's [listeners] (a [Map], in insertion order) and the
    listener lists of the nodes of the document. *)
Record Manager : Type := mkManager {
  listeners : list (string * Tracked);
  dom : gmap nat (list Events.Listener)
}.

(** [new EventListenerManager()] on a document without listeners. *)
Definition empty : Manager := mkManager [] ∅.

(** *** The [Map] *)

Definition has_key (k : string) (kv : string * Tracked) : bool :=
  String.eqb (fst kv) k.

(** [listeners.get(key)] *)
Definition map_get (k : string) (l : list (string * Tracked)) : option Tracked :=
  option_map snd (List.find (has_key k) l).

(** [listeners.set(key, entry)] *)
Definition map_set (k : string) (e : Tracked) (l : list (string * Tracked))
  : list (string * Tracked) :=
  if existsb (has_key k) l
  then map (fun kv => if has_key k kv then (k, e) else kv) l
  else l ++ [(k, e)].

(** [listeners.delete(key)] *)
Definition map_delete (k : string) (l : list (string * Tracked))
  : list (string * Tracked) :=
  List.filter (fun kv => negb (has_key k kv)) l.

(** *** The DOM: the nodes of [Events], without its manager *)

Definition document (m : gmap nat (list Events.Listener)) : Events.Page :=
  Events.mkPage ∅ 0 m.

Definition addEventListener (el : nat) (type : string) (cb : nat)
    (options : Events.Options) (m : gmap nat (list Events.Listener))
  : gmap nat (list Events.Listener) :=
  Events.nodes (Events.addEventListener el type cb options (document m)).

Definition removeEventListener (el : nat) (type : string) (cb : nat)
    (options : Events.Options) (m : gmap nat (list Events.Listener))
  : gmap nat (list Events.Listener) :=
  Events.nodes (Events.removeEventListener el type cb options (document m)).

Definition dispatch (el : nat) (type : string) (m : gmap nat (list Events.Listener))
  : list nat * gmap nat (list Events.Listener) :=
  let '(called, w) := Events.dispatch el type (document m) in (called, Events.nodes w).

(** A listener for the event with this callback is attached to the node. *)
Definition attached (a : nat) (event : string) (h : nat)
    (d : gmap nat (list Events.Listener)) : Prop :=
  exists l, In l (Events.listeners_of a (document d))
            /\ Events.li_type l = event /\ Events.li_callback l = h.

(** *** The class *)

Section Names.

(** The [tagName] of a node ([None] where the node has none, as [window]
    and [document]) and the [name] of a function. *)
Variable tagName : nat -> option string.
Variable name : nat -> string.

Inductive Result : Type :=
  | Ok (s : Manager)
  | TypeError (s : Manager).

Definition manager_of (r : Result) : Manager :=
  match r with Ok s => s | TypeError s => s end.

(** [`${element.tagName}`]; a primitive has no [tagName]. *)
Definition tag_text (element : Value) : string :=
  match element with
  | VObj el => default "undefined" (tagName el)
  | _ => "undefined"
  end.

(** [handler.name || 'anonymous'] *)
Definition name_text (handler : nat) : string :=
  if String.eqb (name handler) "" then "anonymous" else name handler.

(** [_getKey(element, event, handler)] *)
Definition _getKey (element : Value) (event : string) (handler : nat) : string :=
  tag_text element +:+ "_" +:+ event +:+ "_" +:+ name_text handler.

(** [add(element, event, handler, options = false)] *)
Definition add (element : Value) (event : string) (handler : nat)
    (options : Events.Options) (s : Manager) : Result :=
  if negb (truthy element) then Ok s else
  let key := _getKey element event handler in
  if existsb (has_key key) (listeners s) then Ok s else
  match element with
  | VObj el =>
      let d := addEventListener el event handler options (dom s) in
      Ok (mkManager (map_set key (mkTracked el event handler options) (listeners s)) d)
  | _ => TypeError s
  end.

(** [remove(element, event, handler)] *)
Definition remove (element : Value) (event : string) (handler : nat)
    (s : Manager) : Result :=
  if negb (truthy element) then Ok s else
  let key := _getKey element event handler in
  match map_get key (listeners s) with
  | Some listener =>
      match element with
      | VObj el =>
          let d := removeEventListener el event handler (tr_options listener) (dom s) in
          Ok (mkManager (map_delete key (listeners s)) d)
      | _ => TypeError s
      end
  | None => Ok s
  end.

(** [removeAll()] *)
Definition removeAll (s : Manager) : Result :=
  let d := fold_left
             (fun d kv => removeEventListener (tr_element (snd kv)) (tr_event (snd kv))
                            (tr_handler (snd kv)) (tr_options (snd kv)) d)
             (listeners s) (dom s) in
  Ok (mkManager [] d).

Inductive Interaction : Type :=
  | Add (element : Value) (event : string) (handler : nat) (options : Events.Options)
  | Remove (element : Value) (event : string) (handler : nat)
  | RemoveAll
  | Dispatch (el : nat) (type : string).

Definition interact (a : Interaction) (s : Manager) : Manager :=
  match a with
  | Add element event handler options => manager_of (add element event handler options s)
  | Remove element event handler => manager_of (remove element event handler s)
  | RemoveAll => manager_of (removeAll s)
  | Dispatch el type => mkManager (listeners s) (snd (dispatch el type (dom s)))
  end.

Definition interact_all (acts : list Interaction) (s : Manager) : Manager :=
  fold_left (fun s a => interact a s) acts s.

(** The callbacks an event of the type invokes at the node. *)
Definition invoked (el : nat) (type : string) (s : Manager) : list nat :=
  fst (dispatch el type (dom s)).

(** Every entry sits under the key of its own element, event and
    handler. *)
Definition Keyed (s : Manager) : Prop :=
  forall kv, In kv (listeners s) ->
    fst kv = _getKey (VObj (tr_element (snd kv))) (tr_event (snd kv))
                     (tr_handler (snd kv)).

End Names.

End Legacy.

(** ** Properties of the lazy library loader *)

Module LoaderProofs.
Import JS LazyLoader.

(** *** Outcomes *)

Lemma outcomes_snoc ps st :
  outcomes (ps ++ [st]) = outcomes ps ++ [resolve_entry (outcomes ps) st].
Proof. unfold outcomes. rewrite fold_left_app. reflexivity. Qed.

Lemma length_outcomes ps : length (outcomes ps) = length ps.
Proof.
  induction ps as [|st ps IH] using rev_ind; [reflexivity|].
  rewrite outcomes_snoc, !length_app, IH. reflexivity.
Qed.

Lemma outcomes_lookup ps i st :
  ps !! i = Some st ->
  outcomes ps !! i = Some (resolve_entry (take i (outcomes ps)) st).
Proof.
  revert i st. induction ps as [|x ps IH] using rev_ind; intros i st Hi.
  - discriminate.
  - rewrite outcomes_snoc.
    destruct (decide (i < length ps)) as [Hlt|Hge].
    + rewrite lookup_app_l in Hi by done.
      rewrite lookup_app_l by (rewrite length_outcomes; done).
      rewrite take_app_le by (rewrite length_outcomes; lia).
      by apply IH.
    + apply lookup_lt_Some in Hi as Hlen. rewrite length_app in Hlen. simpl in Hlen.
      assert (i = length ps) as -> by lia.
      rewrite list_lookup_middle in Hi by done. injection Hi as ->.
      rewrite <- (length_outcomes ps) at 1.
      rewrite list_lookup_middle by done.
      rewrite <- (length_outcomes ps) at 1.
      by rewrite take_app_length.
Qed.

Lemma outcome_entry w p st :
  promises w !! p = Some st ->
  outcome w p = resolve_entry (take p (outcomes (promises w))) st.
Proof. intros H. unfold outcome. by rewrite (outcomes_lookup _ _ _ H). Qed.

Lemma outcome_fulfilled w p v :
  promises w !! p = Some (Fulfilled v) -> outcome w p = OFulfilled v.
Proof. intros H. by rewrite (outcome_entry _ _ _ H). Qed.

Lemma outcome_rejected w p m :
  promises w !! p = Some (Rejected m) -> outcome w p = ORejected m.
Proof. intros H. by rewrite (outcome_entry _ _ _ H). Qed.

Lemma outcome_pending w p :
  promises w !! p = Some Pending -> outcome w p = OPending.
Proof. intros H. by rewrite (outcome_entry _ _ _ H). Qed.

Lemma outcome_adopts w p q :
  promises w !! p = Some (Adopts q) -> q < p -> outcome w p = outcome w q.
Proof.
  intros H Hlt. rewrite (outcome_entry _ _ _ H). simpl.
  rewrite lookup_take_lt by done. reflexivity.
Qed.

(** *** Settled promises stay as they are *)

Lemma grows_refl ps : grows ps ps.
Proof. by intros p st H _. Qed.

Lemma grows_trans ps1 ps2 ps3 : grows ps1 ps2 -> grows ps2 ps3 -> grows ps1 ps3.
Proof. intros H12 H23 p st H Hst. apply H23; [|done]. by apply H12. Qed.

Lemma grows_app ps l : grows ps (ps ++ l).
Proof. intros p st H _. by apply lookup_app_l_Some. Qed.

Lemma grows_settle ps p st : grows ps (settle p st ps).
Proof.
  intros q st' H Hst. unfold settle.
  destruct (ps !! p) as [[]|] eqn:Hp; try done.
  destruct (decide (p = q)) as [->|Hne]; [congruence|].
  by rewrite list_lookup_insert_ne.
Qed.

Lemma loadScript_grows name url checkFn w :
  grows (promises w) (promises (snd (loadScript name url checkFn w))).
Proof.
  unfold loadScript, async_return, alloc.
  destruct (check_hit checkFn w); simpl.
  { rewrite <- app_assoc. apply grows_app. }
  destruct (loadedLibraries w !! name); simpl.
  { rewrite <- app_assoc. apply grows_app. }
  destruct (loadingPromises w !! name); simpl.
  { apply grows_app. }
  rewrite <- app_assoc. apply grows_app.
Qed.

(** The named loaders are [loadScript] at fixed arguments: a fact [lem] of
    [loadScript] is brought in for the call at hand. *)
Ltac at_loadScript lem w :=
  unfold loadOpenCV, loadFaceAPI, loadTesseract, loadJsPDF;
  match goal with
  | |- context [loadScript ?n ?u ?c w] =>
      pose proof (lem n u c w); destruct (loadScript n u c w)
  end.

Lemma invoke_grows m w : grows (promises w) (promises (snd (invoke m w))).
Proof.
  destruct m; simpl; try apply grows_refl;
    try (at_loadScript loadScript_grows w; done).
  unfold preload. case_bool_decide; apply grows_refl.
Qed.

Lemma preload_load_grows method w :
  grows (promises w) (promises (after (preload_load method w))).
Proof.
  unfold preload_load. destruct (function_property _) as [m|]; [|apply grows_refl].
  pose proof (invoke_grows m w) as H.
  destruct (invoke m w) as [[p|v|e] w']; simpl in *; try done.
  eapply grows_trans; [exact H|apply grows_app].
Qed.

Lemma step_grows a w : grows (promises w) (promises (step a w)).
Proof.
  destruct a; simpl; try apply grows_refl.
  - apply loadScript_grows.
  - unfold preload. case_bool_decide; apply grows_refl.
  - unfold script_onload. destruct (head w !! i) as [sc|]; [|apply grows_refl].
    destruct (sc_fired sc); [apply grows_refl|]. simpl. apply grows_settle.
  - unfold script_onerror. destruct (head w !! i) as [sc|]; [|apply grows_refl].
    destruct (sc_fired sc); [apply grows_refl|]. simpl. apply grows_settle.
  - unfold run_task. destruct (queue w !! k) as [t|]; [|apply grows_refl].
    apply (preload_load_grows (task_method t) (set_queue (fun q => delete k q) w)).
Qed.

Lemma run_grows acts w : grows (promises w) (promises (run acts w)).
Proof.
  revert w. induction acts as [|a acts IH]; intros w; [apply grows_refl|].
  simpl. eapply grows_trans; [apply step_grows|apply IH].
Qed.

Lemma Inv_init win : Inv (init win).
Proof. split; simpl; intros; try done. by destruct H. Qed.

(** [Inv] looks at the promises, the scripts and the tracked promises only. *)
Lemma Inv_same w w' :
  promises w' = promises w -> head w' = head w ->
  loadingPromises w' = loadingPromises w -> Inv w -> Inv w'.
Proof.
  intros Hp Hh Hl [H1 H2 H3 H4 H5].
  split; rewrite ?Hp, ?Hh, ?Hl; assumption.
Qed.

Lemma Inv_alloc st w :
  Inv w ->
  (forall q, st = Adopts q \/ st = Catches q -> q < length (promises w)) ->
  Inv (snd (alloc st w)).
Proof.
  intros [H1 H2 H3 H4 H5] Hst. split; simpl.
  - intros i sc Hi. rewrite length_app. specialize (H1 i sc Hi). lia.
  - intros i sc Hi Hf. apply lookup_app_l_Some. by eapply H2.
  - exact H3.
  - intros p q Hp.
    destruct (decide (p < length (promises w))) as [Hlt|Hge].
    + rewrite !lookup_app_l in Hp by done. by apply H4.
    + assert (p = length (promises w)) as ->.
      { destruct Hp as [Hp|Hp]; apply lookup_lt_Some in Hp;
          rewrite length_app in Hp; simpl in Hp; lia. }
      rewrite !list_lookup_middle in Hp by done.
      apply Hst. destruct Hp as [Hp|Hp]; injection Hp as ->; auto.
  - exact H5.
Qed.

Lemma Inv_untrack name w :
  Inv w -> Inv (set_loading (fun m => delete name m) w).
Proof.
  intros [H1 H2 H3 H4 H5]. split; simpl; try assumption.
  intros n q Hq. apply lookup_delete_Some in Hq as [_ Hq]. by apply H5.
Qed.

Lemma Inv_unload name w : Inv w -> Inv (unload name w).
Proof.
  intros H. unfold unload. apply Inv_untrack.
  eapply Inv_same; [..|exact H]; reflexivity.
Qed.

Lemma Inv_preload method w : Inv w -> Inv (preload method w).
Proof.
  intros H. unfold preload.
  case_bool_decide; (eapply Inv_same; [..|exact H]; reflexivity).
Qed.

(** A script is injected and its promise tracked. *)
Lemma Inv_inject name url checkFn w :
  Inv w ->
  Inv (set_loading (fun m => <[name := length (promises w)]> m)
         (set_head (fun h => h ++ [mkScript (to_string url) name url checkFn
                                             (length (promises w)) false])
            (snd (alloc Pending w)))).
Proof.
  intros [H1 H2 H3 H4 H5]. split; simpl.
  - intros i sc Hi. rewrite length_app. simpl.
    apply lookup_app_Some in Hi as [Hi|[_ Hi]].
    + specialize (H1 i sc Hi). lia.
    + apply list_lookup_singleton_Some in Hi as [_ <-]. simpl. lia.
  - intros i sc Hi Hf.
    apply lookup_app_Some in Hi as [Hi|[_ Hi]].
    + apply lookup_app_l_Some. by eapply H2.
    + apply list_lookup_singleton_Some in Hi as [_ <-]. simpl.
      by rewrite list_lookup_middle.
  - intros i j sc sc' Hi Hj Heq.
    apply lookup_app_Some in Hi as [Hi|[Hil Hi]];
      apply lookup_app_Some in Hj as [Hj|[Hjl Hj]].
    + by eapply H3.
    + apply list_lookup_singleton_Some in Hj as [_ <-]. simpl in Heq.
      specialize (H1 i sc Hi). lia.
    + apply list_lookup_singleton_Some in Hi as [_ <-]. simpl in Heq.
      specialize (H1 j sc' Hj). lia.
    + apply list_lookup_singleton_Some in Hi as [Hi _].
      apply list_lookup_singleton_Some in Hj as [Hj _]. lia.
  - intros p q Hp.
    destruct (decide (p < length (promises w))) as [Hlt|Hge].
    + rewrite !lookup_app_l in Hp by done. by apply H4.
    + assert (p = length (promises w)) as ->.
      { destruct Hp as [Hp|Hp]; apply lookup_lt_Some in Hp;
          rewrite length_app in Hp; simpl in Hp; lia. }
      rewrite !list_lookup_middle in Hp by done.
      destruct Hp as [Hp|Hp]; discriminate.
  - intros n q Hq.
    destruct (decide (name = n)) as [->|Hne].
    + rewrite lookup_insert_eq in Hq. injection Hq as <-.
      exists (length (head w)), (mkScript (to_string url) n url checkFn
                                   (length (promises w)) false).
      split; [by rewrite list_lookup_middle|done].
    + rewrite lookup_insert_ne in Hq by done.
      destruct (H5 n q Hq) as (i & sc & Hi & ?).
      exists i, sc. split; [by apply lookup_app_l_Some|done].
Qed.

Lemma Inv_loadScript name url checkFn w :
  Inv w -> Inv (snd (loadScript name url checkFn w)).
Proof.
  intros H. unfold loadScript, async_return.
  destruct (check_hit checkFn w).
  { simpl.
    apply (Inv_alloc (Adopts _)).
    - apply (Inv_alloc (Fulfilled _)).
      + eapply Inv_same; [..|exact H]; reflexivity.
      + intros q [?|?]; discriminate.
    - intros q [[= <-]|?]; [|discriminate]. simpl. rewrite length_app. simpl. lia. }
  destruct (loadedLibraries w !! name).
  { simpl. apply (Inv_alloc (Adopts _)).
    - apply (Inv_alloc (Fulfilled _)); [done|]. intros q [?|?]; discriminate.
    - intros q [[= <-]|?]; [|discriminate]. simpl. rewrite length_app. simpl. lia. }
  destruct (loadingPromises w !! name) as [p|] eqn:Hp.
  { apply (Inv_alloc (Adopts _)); [done|].
    intros q [[= <-]|?]; [|discriminate].
    destruct (inv_tracked _ H _ _ Hp) as (i & sc & Hi & <- & _).
    by eapply inv_script_promise. }
  cbn [alloc]. apply (Inv_alloc (Adopts _)).
  - apply (Inv_inject name url checkFn w H).
  - intros q [[= <-]|?]; [|discriminate]. simpl. rewrite length_app. simpl. lia.
Qed.

(** A script reports: its promise is settled and no longer tracked. *)
Lemma Inv_fire i sc st w :
  Inv w -> head w !! i = Some sc -> sc_fired sc = false ->
  (forall q, st <> Adopts q /\ st <> Catches q) ->
  Inv (set_head (fun h => <[i := fire sc]> h)
         (set_promises (settle (sc_promise sc) st)
            (set_loading (fun m => delete (sc_name sc) m) w))).
Proof.
  intros [H1 H2 H3 H4 H5] Hi Hf Hst.
  assert (Hset : settle (sc_promise sc) st (promises w)
                 = <[sc_promise sc := st]> (promises w)).
  { unfold settle. by rewrite (H2 i sc Hi Hf). }
  split; simpl; rewrite ?Hset.
  - intros j sc' Hj. rewrite length_insert.
    apply list_lookup_insert_Some in Hj as [(_ & <- & _)|[_ Hj]].
    + simpl. by eapply H1.
    + by eapply H1.
  - intros j sc' Hj Hf'.
    apply list_lookup_insert_Some in Hj as [(_ & <- & _)|[Hne Hj]]; [done|].
    rewrite list_lookup_insert_ne; [by eapply H2|].
    intros Heq. apply Hne. by eapply H3.
  - intros j k sc1 sc2 Hj Hk Heq.
    apply list_lookup_insert_Some in Hj as [(<- & <- & _)|[Hne Hj]];
      apply list_lookup_insert_Some in Hk as [(<- & <- & _)|[Hne' Hk]].
    + done.
    + simpl in Heq. by eapply H3.
    + simpl in Heq. by eapply H3.
    + by eapply H3.
  - intros p q Hp. apply H4.
    destruct (decide (sc_promise sc = p)) as [<-|Hne].
    + specialize (H1 i sc Hi).
      rewrite !list_lookup_insert_eq in Hp by done.
      destruct (Hst q) as [Ha Hc].
      destruct Hp as [[= ->]|[= ->]]; done.
    + by rewrite !list_lookup_insert_ne in Hp by done.
  - intros n q Hq. apply lookup_delete_Some in Hq as [Hne Hq].
    destruct (H5 n q Hq) as (j & sc' & Hj & Hpq & Hn & Hf').
    exists j, sc'. split; [|done].
    rewrite list_lookup_insert_ne; [done|]. intros <-. congruence.
Qed.

Lemma Inv_onload i w : Inv w -> Inv (script_onload i w).
Proof.
  intros H. unfold script_onload.
  destruct (head w !! i) as [sc|] eqn:Hi; [|done].
  destruct (sc_fired sc) eqn:Hf; [done|].
  set (lib := match sc_checkFn sc with Some f => f (window w) | None => VBool true end).
  eapply Inv_same;
    [..|exact (Inv_fire i sc (Fulfilled lib) w H Hi Hf ltac:(done))]; reflexivity.
Qed.

Lemma Inv_onerror i w : Inv w -> Inv (script_onerror i w).
Proof.
  intros H. unfold script_onerror.
  destruct (head w !! i) as [sc|] eqn:Hi; [|done].
  destruct (sc_fired sc) eqn:Hf; [done|].
  eapply Inv_same;
    [..|exact (Inv_fire i sc (Rejected (load_error (sc_name sc) (sc_url sc))) w
                  H Hi Hf ltac:(done))]; reflexivity.
Qed.

Lemma Inv_invoke m w : Inv w -> Inv (snd (invoke m w)).
Proof.
  intros H. destruct m; simpl; try done;
    try (at_loadScript Inv_loadScript w; auto).
  - by apply Inv_preload.
  - by apply Inv_unload.
Qed.

Lemma loadScript_returned name url checkFn w :
  fst (loadScript name url checkFn w)
  < length (promises (snd (loadScript name url checkFn w))).
Proof.
  unfold loadScript, async_return, alloc.
  destruct (check_hit checkFn w); simpl.
  { rewrite !length_app. simpl. lia. }
  destruct (loadedLibraries w !! name); simpl.
  { rewrite !length_app. simpl. lia. }
  destruct (loadingPromises w !! name); simpl; rewrite !length_app; simpl; lia.
Qed.

Lemma invoke_returned m w p w' :
  invoke m w = (RPromise p, w') -> p < length (promises w').
Proof.
  destruct m; simpl; try discriminate;
    at_loadScript loadScript_returned w; intros [= <- <-]; done.
Qed.

Lemma Inv_step a w : Inv w -> Inv (step a w).
Proof.
  intros H. destruct a; simpl.
  - by apply Inv_loadScript.
  - by apply Inv_preload.
  - done.
  - by apply Inv_unload.
  - by apply Inv_onload.
  - by apply Inv_onerror.
  - unfold run_task. destruct (queue w !! k) as [t|]; [|done].
    unfold preload_load. destruct (function_property _) as [m|].
    + assert (Hq : Inv (set_queue (fun q => delete k q) w))
        by (eapply Inv_same; [..|exact H]; reflexivity).
      pose proof (Inv_invoke m _ Hq) as Hm.
      destruct (invoke m _) as [[p|v|e] w'] eqn:Hinv; simpl in *; try done.
      apply (Inv_alloc (Catches p)); [done|].
      intros q [?|[= <-]]; [discriminate|].
      by eapply invoke_returned.
    + simpl. eapply Inv_same; [..|exact H]; reflexivity.
  - eapply Inv_same; [..|exact H]; reflexivity.
Qed.

Lemma Inv_run acts w : Inv w -> Inv (run acts w).
Proof.
  revert w. induction acts as [|a acts IH]; intros w H; [done|].
  simpl. apply IH. by apply Inv_step.
Qed.

Lemma Inv_reachable win acts : Inv (run acts (init win)).
Proof. apply Inv_run, Inv_init. Qed.

(** *** The four ways through [loadScript] *)

Lemma loadScript_hit name url f w :
  truthy (f (window w)) = true ->
  loadScript name url (Some f) w
  = (S (length (promises w)),
     mkWorld (<[name := VBool true]> (loadedLibraries w)) (loadingPromises w)
             ((promises w ++ [Fulfilled (f (window w))])
              ++ [Adopts (length (promises w))])
             (head w) (window w) (queue w)).
Proof.
  intros H. unfold loadScript, async_return, alloc, check_hit. rewrite H. simpl.
  rewrite length_app. simpl. by rewrite Nat.add_1_r.
Qed.

Lemma loadScript_cached name url checkFn v w :
  check_hit checkFn w = false -> loadedLibraries w !! name = Some v ->
  loadScript name url checkFn w
  = (S (length (promises w)),
     mkWorld (loadedLibraries w) (loadingPromises w)
             ((promises w ++ [Fulfilled v]) ++ [Adopts (length (promises w))])
             (head w) (window w) (queue w)).
Proof.
  intros H Hv. unfold loadScript, async_return, alloc. rewrite H, Hv. simpl.
  rewrite length_app. simpl. by rewrite Nat.add_1_r.
Qed.

Lemma loadScript_tracked name url checkFn q w :
  check_hit checkFn w = false -> loadedLibraries w !! name = None ->
  loadingPromises w !! name = Some q ->
  loadScript name url checkFn w
  = (length (promises w),
     mkWorld (loadedLibraries w) (loadingPromises w) (promises w ++ [Adopts q])
             (head w) (window w) (queue w)).
Proof. intros H Hv Hq. unfold loadScript, async_return, alloc. by rewrite H, Hv, Hq. Qed.

Lemma loadScript_fresh name url checkFn w :
  check_hit checkFn w = false -> loadedLibraries w !! name = None ->
  loadingPromises w !! name = None ->
  loadScript name url checkFn w
  = (S (length (promises w)),
     mkWorld (loadedLibraries w) (<[name := length (promises w)]> (loadingPromises w))
             ((promises w ++ [Pending]) ++ [Adopts (length (promises w))])
             (head w ++ [mkScript (to_string url) name url checkFn
                                  (length (promises w)) false])
             (window w) (queue w)).
Proof.
  intros H Hv Hq. unfold loadScript, async_return, alloc. rewrite H, Hv, Hq. simpl.
  rewrite length_app. simpl. by rewrite Nat.add_1_r.
Qed.

(** *** Outcomes over time *)

Lemma adopted_forever w p q acts :
  promises w !! p = Some (Adopts q) -> q < p ->
  outcome (run acts w) p = outcome (run acts w) q.
Proof.
  intros H Hlt. apply outcome_adopts; [|done].
  by apply (run_grows acts w).
Qed.

Lemma fulfilled_forever w p v acts :
  promises w !! p = Some (Fulfilled v) -> outcome (run acts w) p = OFulfilled v.
Proof. intros H. apply outcome_fulfilled. by apply (run_grows acts w). Qed.

Lemma request_all_tracked name q reqs : forall w,
  loadingPromises w !! name = Some q ->
  loadedLibraries w !! name = None ->
  Forall (fun r => check_hit (snd r) w = false) reqs ->
  request_all name reqs w
  = (seq (length (promises w)) (length reqs),
     mkWorld (loadedLibraries w) (loadingPromises w)
             (promises w ++ replicate (length reqs) (Adopts q))
             (head w) (window w) (queue w)).
Proof.
  induction reqs as [|[url checkFn] reqs IH]; intros w Hq Hv Hall.
  - simpl. rewrite app_nil_r. by destruct w.
  - inversion Hall as [|r rs Hc Hall']; subst. simpl in Hc.
    cbn [request_all]. rewrite (loadScript_tracked _ _ _ q) by done.
    rewrite IH; simpl; try done.
    rewrite length_app. simpl. rewrite Nat.add_1_r, <- app_assoc. reflexivity.
Qed.

(** *** Requests answered by the presence check

    Claim C3. When [checkFn()] is truthy at the time of the call,
    [loadScript] injects no script and leaves the tracked promises alone,
    records the name ([isLoaded(name)] answers true), and the promise it
    returns is fulfilled with the value [checkFn()] gave, now and after
    whatever happens later. *)
Theorem presence_hit_resolves_without_injection name url f w :
  truthy (f (window w)) = true ->
  let p := fst (loadScript name url (Some f) w) in
  let w' := snd (loadScript name url (Some f) w) in
  head w' = head w
  /\ loadingPromises w' = loadingPromises w
  /\ loaded name w' = true
  /\ outcome w' p = OFulfilled (f (window w))
  /\ forall acts, outcome (run acts w') p = OFulfilled (f (window w)).
Proof.
  intros H. rewrite (loadScript_hit _ _ _ _ H). cbn [fst snd].
  set (w' := mkWorld _ _ _ _ _ _).
  assert (Hq : promises w' !! length (promises w) = Some (Fulfilled (f (window w)))).
  { subst w'. simpl. apply lookup_app_l_Some. by rewrite list_lookup_middle. }
  assert (Hp : promises w' !! S (length (promises w))
               = Some (Adopts (length (promises w)))).
  { subst w'. simpl. rewrite list_lookup_middle; [done|].
    rewrite length_app. simpl. lia. }
  assert (Hall : forall acts, outcome (run acts w') (S (length (promises w)))
                              = OFulfilled (f (window w))).
  { intros acts. rewrite (adopted_forever _ _ _ acts Hp) by lia.
    by apply fulfilled_forever. }
  repeat split; try done.
  - unfold loaded, isLoaded. simpl. rewrite lookup_insert_eq.
    apply bool_decide_eq_true. eauto.
  - exact (Hall []).
Qed.

(** The theorem at the request [loadScript('pdf', '/lib/pdf.js', () =>
    window.pdfLib)] on a page where [window.pdfLib] exists. *)
Lemma presence_hit_example :
  let w := init {[ "pdfLib" := VObj 5 ]} in
  let r := loadScript (VStr "pdf") (VStr "/lib/pdf.js") (Some (read "pdfLib")) w in
  let p := fst r in
  let w' := snd r in
  truthy (read "pdfLib" (window w)) = true
  /\ head w' = head w
  /\ loaded (VStr "pdf") w' = true
  /\ outcome w' p = OFulfilled (VObj 5).
Proof.
  assert (H : truthy (read "pdfLib" (window (init {[ "pdfLib" := VObj 5 ]}))) = true)
    by reflexivity.
  destruct (presence_hit_resolves_without_injection
              (VStr "pdf") (VStr "/lib/pdf.js") (read "pdfLib") _ H)
    as (H1 & _ & H3 & H4 & _).
  exact (conj H (conj H1 (conj H3 H4))).
Defined.

(** Claim C4. The claim asks that a later request is answered with the
    handle the earlier request resolved with. On the presence-check path
    [loadScript] stores [true] under the name, not the handle: with
    [window.cv] an object, [loadScript('opencv', url, () => window.cv)]
    resolves with that object, and a following [loadScript('opencv', url)]
    resolves with [true], without injecting a script. *)
Theorem presence_hit_caches_true_not_handle :
  let w0 := init {[ "cv" := VObj 1 ]} in
  let url := VStr "/assets/js/opencv.js" in
  let r1 := loadScript (VStr "opencv") url (Some (read "cv")) w0 in
  let r2 := loadScript (VStr "opencv") url None (snd r1) in
  outcome (snd r1) (fst r1) = OFulfilled (VObj 1)
  /\ loaded (VStr "opencv") (snd r1) = true
  /\ loadedLibraries (snd r1) !! VStr "opencv" = Some (VBool true)
  /\ head (snd r2) = []
  /\ outcome (snd r2) (fst r2) = OFulfilled (VBool true).
Proof. vm_compute. repeat split; reflexivity. Qed.

(** *** Requests while a load is in flight

    Claim C1, as the code has it. While a promise is tracked for [name]
    (a load is in flight), the name is not recorded as loaded and no
    presence check is truthy, any number of calls [loadScript(name, ...)]
    inject no script and leave the loader's maps as they are; each call
    returns a promise of its own, new at every call, that is resolved with
    the tracked promise; that promise belongs to exactly one script, still
    in flight, injected for [name]; and whatever happens later, each
    returned promise has the outcome of the tracked one. *)
Theorem requests_in_flight_share_one_load win acts0 name q reqs :
  let w := run acts0 (init win) in
  loadingPromises w !! name = Some q ->
  loadedLibraries w !! name = None ->
  Forall (fun r => check_hit (snd r) w = false) reqs ->
  let ps := fst (request_all name reqs w) in
  let w' := snd (request_all name reqs w) in
  head w' = head w
  /\ loadedLibraries w' = loadedLibraries w
  /\ loadingPromises w' = loadingPromises w
  /\ length ps = length reqs
  /\ NoDup ps
  /\ Forall (fun p => promises w' !! p = Some (Adopts q) /\ q < p) ps
  /\ (exists i sc,
        head w' !! i = Some sc /\ sc_promise sc = q /\ sc_name sc = name
        /\ sc_fired sc = false
        /\ forall j sc', head w' !! j = Some sc' -> sc_promise sc' = q -> j = i)
  /\ forall acts,
       Forall (fun p => outcome (run acts w') p = outcome (run acts w') q) ps.
Proof.
  intros w Hq Hv Hall.
  pose proof (Inv_reachable win acts0 : Inv w) as HI.
  rewrite (request_all_tracked _ _ _ _ Hq Hv Hall). cbn [fst snd].
  destruct (inv_tracked _ HI _ _ Hq) as (i & sc & Hi & Hpq & Hn & Hf).
  assert (Hlt : q < length (promises w)).
  { rewrite <- Hpq. by eapply inv_script_promise. }
  assert (Hps : Forall (fun p =>
             (promises w ++ replicate (length reqs) (Adopts q)) !! p
             = Some (Adopts q) /\ q < p) (seq (length (promises w)) (length reqs))).
  { apply Forall_forall. intros p Hp. apply in_seq in Hp as [Hp1 Hp2].
    split; [|lia].
    rewrite lookup_app_r by done.
    apply lookup_replicate_2. lia. }
  repeat split; simpl; try done.
  - by rewrite length_seq.
  - apply NoDup_seq.
  - exists i, sc. repeat split; try done.
    intros j sc' Hj Hq'. eapply (inv_script_inj _ HI); eauto. congruence.
  - intros acts. eapply Forall_impl; [|exact Hps]. intros p [Hp Hqp].
    by apply adopted_forever.
Qed.

(** The theorem at four more requests for ['pdf'] after the one that
    started the load; the script then loads and defines [window.pdfLib]. *)
Lemma requests_in_flight_example :
  let probe := Some (read "pdfLib") in
  let w := run [Request (VStr "pdf") (VStr "/lib/pdf.js") probe] (init ∅) in
  let reqs := replicate 4 (VStr "/lib/pdf.js", probe) in
  let ps := fst (request_all (VStr "pdf") reqs w) in
  let w' := snd (request_all (VStr "pdf") reqs w) in
  let later := run [SetWindow {[ "pdfLib" := VObj 9 ]}; ScriptLoaded 0] w' in
  loadingPromises w !! VStr "pdf" = Some 0
  /\ length (head w') = 1
  /\ ps = [2; 3; 4; 5]
  /\ Forall (fun p => outcome later p = outcome later 0) ps.
Proof.
  assert (Hq : loadingPromises
                 (run [Request (VStr "pdf") (VStr "/lib/pdf.js") (Some (read "pdfLib"))]
                      (init ∅)) !! VStr "pdf" = Some 0) by reflexivity.
  assert (Hv : loadedLibraries
                 (run [Request (VStr "pdf") (VStr "/lib/pdf.js") (Some (read "pdfLib"))]
                      (init ∅)) !! VStr "pdf" = None) by reflexivity.
  assert (Hall : Forall (fun r => check_hit (snd r)
                   (run [Request (VStr "pdf") (VStr "/lib/pdf.js") (Some (read "pdfLib"))]
                      (init ∅)) = false)
                   (replicate 4 (VStr "/lib/pdf.js", Some (read "pdfLib")))).
  { repeat constructor. }
  destruct (requests_in_flight_share_one_load ∅
              [Request (VStr "pdf") (VStr "/lib/pdf.js") (Some (read "pdfLib"))]
              (VStr "pdf") 0 _ Hq Hv Hall) as (H1 & _ & _ & _ & _ & _ & _ & H8).
  split; [exact Hq|]. split; [by rewrite H1|]. split; [reflexivity|].
  exact (H8 _).
Defined.

(** The method is [async]: three calls for ['pdf'] while its load is in
    flight return three different promises, none of them the tracked one
    (promise 0). *)
Lemma requests_in_flight_return_distinct_promises :
  let w0 := init ∅ in
  let request := loadScript (VStr "pdf") (VStr "/lib/pdf.js") (Some (read "pdfLib")) in
  let r1 := request w0 in
  let r2 := request (snd r1) in
  let r3 := request (snd r2) in
  loadingPromises (snd r1) !! VStr "pdf" = Some 0
  /\ loaded (VStr "pdf") (snd r2) = false
  /\ fst r1 = 1 /\ fst r2 = 2 /\ fst r3 = 3
  /\ fst r2 <> fst r3.
Proof. vm_compute. repeat split; try reflexivity. discriminate. Qed.

(** *** [isLoaded] *)

Lemma loaded_insert name n v w :
  loaded name (set_loaded (fun m => <[n := v]> m) w)
  = if bool_decide (n = name) then true else loaded name w.
Proof.
  unfold loaded, isLoaded. cbn [fst set_loaded loadedLibraries].
  destruct (decide (n = name)) as [->|Hn].
  - rewrite (bool_decide_eq_true_2 (name = name)) by done.
    rewrite lookup_insert_eq. apply bool_decide_eq_true. eauto.
  - rewrite (bool_decide_eq_false_2 (n = name)) by done.
    by rewrite lookup_insert_ne.
Qed.

Lemma loaded_delete name n w :
  loaded name (set_loaded (fun m => delete n m) w)
  = if bool_decide (n = name) then false else loaded name w.
Proof.
  unfold loaded, isLoaded. cbn [fst set_loaded loadedLibraries].
  destruct (decide (n = name)) as [->|Hn].
  - rewrite (bool_decide_eq_true_2 (name = name)) by done.
    rewrite lookup_delete_eq. apply bool_decide_eq_false. by intros [? ?].
  - rewrite (bool_decide_eq_false_2 (n = name)) by done.
    by rewrite lookup_delete_ne.
Qed.

Lemma loaded_same name w w' :
  loadedLibraries w' = loadedLibraries w -> loaded name w' = loaded name w.
Proof. intros H. unfold loaded, isLoaded. simpl. by rewrite H. Qed.

Lemma loadScript_loaded n url checkFn w :
  loadedLibraries (snd (loadScript n url checkFn w))
  = if check_hit checkFn w then <[n := VBool true]> (loadedLibraries w)
    else loadedLibraries w.
Proof.
  unfold loadScript, async_return, alloc.
  destruct (check_hit checkFn w); [done|].
  destruct (loadedLibraries w !! n); [done|].
  by destruct (loadingPromises w !! n).
Qed.

Lemma loaded_loadScript name n url checkFn w :
  loaded name (snd (loadScript n url checkFn w))
  = if bool_decide (n = name) && check_hit checkFn w then true else loaded name w.
Proof.
  unfold loaded, isLoaded. simpl. rewrite loadScript_loaded.
  destruct (check_hit checkFn w); [|by rewrite andb_false_r].
  rewrite andb_true_r. apply (loaded_insert name n (VBool true) w).
Qed.

Lemma invoke_request m n url checkFn w :
  method_request m = Some (n, url, checkFn) ->
  snd (invoke m w) = snd (loadScript n url checkFn w)
  /\ exists p, fst (invoke m w) = RPromise p.
Proof.
  destruct m; simpl; try discriminate; intros [= <- <- <-];
    unfold loadOpenCV, loadFaceAPI, loadTesseract, loadJsPDF;
    match goal with |- context [loadScript ?n ?u ?c w] =>
      destruct (loadScript n u c w) end; simpl; eauto.
Qed.

Lemma loaded_step name a w :
  loaded name (step a w)
  = if succeeds_for name a w then true
    else if unloads name a w then false
    else loaded name w.
Proof.
  destruct a; simpl.
  - apply loaded_loadScript.
  - apply loaded_same. unfold preload. by case_bool_decide.
  - done.
  - rewrite (loaded_same name (set_loaded (fun m => delete name0 m) w) (unload name0 w))
      by done.
    rewrite loaded_delete. by destruct (bool_decide (name0 = name)).
  - unfold script_onload. destruct (head w !! i) as [sc|]; [|done].
    destruct (sc_fired sc); [done|]. simpl.
    match goal with |- loaded name ?x = _ =>
      rewrite (loaded_same name
                 (set_loaded (fun m => <[sc_name sc :=
                    match sc_checkFn sc with
                    | Some f => f (window w)
                    | None => VBool true
                    end]> m) w) x) by done end.
    rewrite loaded_insert. by destruct (bool_decide (sc_name sc = name)).
  - apply loaded_same. unfold script_onerror.
    destruct (head w !! i) as [sc|]; [|done]. by destruct (sc_fired sc).
  - unfold run_task, task_call. destruct (queue w !! k) as [t|]; [|done].
    unfold preload_load. simpl.
    destruct (function_property (to_string (task_method t))) as [m|]; [|done].
    simpl.
    set (w1 := set_queue (fun q => delete k q) w).
    destruct (method_request m) as [[[n url] checkFn]|] eqn:Hm.
    + destruct (invoke_request m n url checkFn w1 Hm) as [Hs [p Hp]].
      destruct (invoke m w1) as [r w'] eqn:Hinv. simpl in Hs, Hp. subst r w'.
      simpl.
      match goal with |- loaded name ?x = _ =>
        rewrite (loaded_same name (snd (loadScript n url checkFn w1)) x) by done end.
      rewrite loaded_loadScript.
      change (check_hit checkFn w1) with (check_hit checkFn w).
      destruct (bool_decide (n = name) && check_hit checkFn w); [done|].
      destruct m; try discriminate; done.
    + destruct m; try discriminate; simpl; try done.
      * apply loaded_same. unfold preload. by case_bool_decide.
      * match goal with |- loaded name ?x = _ =>
          rewrite (loaded_same name (set_loaded (fun m => delete VUndef m) w) x)
            by done end.
        rewrite loaded_delete.
        rewrite (bool_decide_ext (VUndef = name) (name = VUndef)) by done.
        done.
  - done.
Qed.

Lemma unloads_not_succeeds name a w :
  unloads name a w = true -> succeeds_for name a w = false.
Proof.
  destruct a; simpl; try done.
  destruct (task_call k w) as [[]|]; simpl; done.
Qed.

Lemma never_recorded_run name acts : forall w,
  loaded name w = false -> never_recorded name acts w = true ->
  loaded name (run acts w) = false.
Proof.
  induction acts as [|a acts IH]; intros w Hl Hq; [done|].
  simpl in Hq. apply andb_true_iff in Hq as [Ha Hq]. apply negb_true_iff in Ha.
  simpl. apply IH; [|done]. rewrite loaded_step, Ha, Hl.
  by destruct (unloads name a w).
Qed.

Lemma run_app acts0 acts1 w : run (acts0 ++ acts1) w = run acts1 (run acts0 w).
Proof. apply fold_left_app. Qed.

Lemma injecting_request_not_loaded n url checkFn w0 :
  length (head w0) < length (head (snd (loadScript n url checkFn w0))) ->
  loaded n (snd (loadScript n url checkFn w0)) = false.
Proof.
  intros Hlen.
  destruct (check_hit checkFn w0) eqn:Hc.
  { unfold loadScript, async_return, alloc in Hlen. rewrite Hc in Hlen.
    simpl in Hlen. lia. }
  destruct (loadedLibraries w0 !! n) as [v|] eqn:Hv.
  { rewrite (loadScript_cached _ _ _ _ _ Hc Hv) in Hlen. simpl in Hlen. lia. }
  destruct (loadingPromises w0 !! n) as [q|] eqn:Hq.
  { rewrite (loadScript_tracked _ _ _ _ _ Hc Hv Hq) in Hlen. simpl in Hlen. lia. }
  rewrite loaded_loadScript, Hc, andb_false_r.
  unfold loaded, isLoaded. simpl. rewrite Hv. apply bool_decide_eq_false.
  by intros [? ?].
Qed.

(** *** A script that fails to load

    Claim C2, as the code has it. In every world a loader can reach, when
    a script in flight reports an error: its promise is rejected, and so
    is every promise resolved with it (every caller awaiting that load),
    all with one error, whose message is built from the name and the url
    the script was injected with whenever these are values that
    [to_string] writes exactly; no promise is tracked for the name
    afterwards; the map of loaded libraries is left as it was, so
    [isLoaded] answers for every name what it answered before the error.
    [isLoaded(name)] is therefore false afterwards whenever it was false
    at some earlier moment and nothing has resolved a request for the
    name successfully since; it is false right after every request that
    injects a script. And if the name is not recorded as loaded after the
    error, a following request whose presence check is not truthy injects
    one new script for the url of that request, stays pending, and when
    that script loads the name is recorded as loaded and the request is
    fulfilled with the library. *)
Theorem failed_load_rejects_waiters_and_allows_retry win acts i sc :
  let w := run acts (init win) in
  head w !! i = Some sc -> sc_fired sc = false ->
  let w' := script_onerror i w in
  (exists err,
     outcome w' (sc_promise sc) = ORejected err
     /\ (forall p, promises w !! p = Some (Adopts (sc_promise sc)) ->
                   outcome w' p = ORejected err)
     /\ (exact_text (sc_name sc) = true -> exact_text (sc_url sc) = true ->
         err = "Failed to load library: " +:+ to_string (sc_name sc)
               +:+ " from " +:+ to_string (sc_url sc)))
  /\ loadingPromises w' !! sc_name sc = None
  /\ loadedLibraries w' = loadedLibraries w
  /\ (forall n, loaded n w' = loaded n w)
  /\ (forall acts0 acts1,
        acts = acts0 ++ acts1 ->
        loaded (sc_name sc) (run acts0 (init win)) = false ->
        never_recorded (sc_name sc) acts1 (run acts0 (init win)) = true ->
        loaded (sc_name sc) w' = false)
  /\ (forall n url checkFn w0,
        length (head w0) < length (head (snd (loadScript n url checkFn w0))) ->
        loaded n (snd (loadScript n url checkFn w0)) = false)
  /\ forall url' checkFn',
       loaded (sc_name sc) w' = false -> check_hit checkFn' w' = false ->
       let p := fst (loadScript (sc_name sc) url' checkFn' w') in
       let w2 := snd (loadScript (sc_name sc) url' checkFn' w') in
       let w3 := script_onload (length (head w')) w2 in
       let lib := match checkFn' with
                  | Some f => f (window w2)
                  | None => VBool true
                  end in
       head w2 = head w' ++ [mkScript (to_string url') (sc_name sc) url' checkFn'
                                      (length (promises w')) false]
       /\ outcome w2 p = OPending
       /\ loaded (sc_name sc) w3 = true
       /\ outcome w3 p = OFulfilled lib.
Proof.
  intros w Hi Hf w'.
  set (err := load_error (sc_name sc) (sc_url sc)).
  pose proof (Inv_reachable win acts : Inv w) as HI.
  pose proof (inv_script_pending _ HI _ _ Hi Hf) as Hpend.
  pose proof (inv_script_promise _ HI _ _ Hi) as Hlt.
  assert (Hw' : w' = set_head (fun h => <[i := fire sc]> h)
                       (set_promises (settle (sc_promise sc) (Rejected err))
                          (set_loading (fun m => delete (sc_name sc) m) w))).
  { subst w'. unfold script_onerror. by rewrite Hi, Hf. }
  assert (Hrej : promises w' !! sc_promise sc = Some (Rejected err)).
  { rewrite Hw'. simpl. unfold settle. rewrite Hpend.
    by apply list_lookup_insert_eq. }
  assert (Hgrow : grows (promises w) (promises w')).
  { apply (step_grows (ScriptFailed i) w). }
  assert (Hsame : loadedLibraries w' = loadedLibraries w) by (by rewrite Hw').
  split.
  { exists err. split; [by apply outcome_rejected|]. split; [|done].
    intros p Hp. rewrite (outcome_adopts w' p (sc_promise sc)).
    - by apply outcome_rejected.
    - by apply Hgrow.
    - apply (inv_links _ HI). by left. }
  split; [rewrite Hw'; simpl; apply lookup_delete_eq|].
  split; [exact Hsame|].
  split; [intros n; by apply loaded_same|].
  split.
  { intros acts0 acts1 Hacts Hl0 Hq.
    rewrite (loaded_same _ _ _ Hsame). subst w. rewrite Hacts, run_app.
    by apply never_recorded_run. }
  split; [apply injecting_request_not_loaded|].
  intros url' checkFn' Hl Hc.
  assert (Hnone : loadedLibraries w' !! sc_name sc = None).
  { unfold loaded, isLoaded in Hl. simpl in Hl.
    apply bool_decide_eq_false in Hl.
    destruct (loadedLibraries w' !! sc_name sc); [|done].
    exfalso. apply Hl. eauto. }
  assert (Hnotrack : loadingPromises w' !! sc_name sc = None)
    by (rewrite Hw'; simpl; apply lookup_delete_eq).
  rewrite (loadScript_fresh _ _ _ _ Hc Hnone Hnotrack). cbn [fst snd].
  set (n := length (promises w')).
  set (script := mkScript (to_string url') (sc_name sc) url' checkFn' n false).
  set (w2 := mkWorld _ _ _ _ _ _).
  assert (Hp2 : promises w2 !! S n = Some (Adopts n)).
  { subst w2 n. simpl. rewrite list_lookup_middle; [done|].
    rewrite length_app. simpl. lia. }
  assert (Hq2 : promises w2 !! n = Some Pending).
  { subst w2 n. simpl. apply lookup_app_l_Some. by rewrite list_lookup_middle. }
  split; [done|].
  split.
  { rewrite (outcome_adopts _ _ _ Hp2) by lia. by apply outcome_pending. }
  assert (Hs : head w2 !! length (head w') = Some script).
  { subst w2. simpl. by rewrite list_lookup_middle. }
  unfold script_onload. rewrite Hs. cbn [sc_fired script].
  set (lib := match sc_checkFn script with
              | Some f => f (window w2)
              | None => VBool true
              end).
  split.
  { unfold loaded, isLoaded. simpl. rewrite lookup_insert_eq.
    apply bool_decide_eq_true. eauto. }
  set (w3 := set_head _ _).
  assert (Hq3 : promises w3 !! n = Some (Fulfilled lib)).
  { subst w3. simpl. unfold settle. simpl.
    change (((promises w' ++ [Pending]) ++ [Adopts n]) !! n) with (promises w2 !! n).
    rewrite Hq2. apply list_lookup_insert_eq.
    apply lookup_lt_Some in Hq2. exact Hq2. }
  assert (Hp3 : promises w3 !! S n = Some (Adopts n)).
  { subst w3. simpl. unfold settle. simpl.
    change (((promises w' ++ [Pending]) ++ [Adopts n]) !! n) with (promises w2 !! n).
    rewrite Hq2. rewrite list_lookup_insert_ne by lia. exact Hp2. }
  rewrite (outcome_adopts _ _ _ Hp3) by lia.
  by apply outcome_fulfilled.
Qed.

(** The theorem at two requests for ['x'] from ['bad/url.js'], the failure
    of that script, and a retry from ['good/url.js']. *)
Lemma failed_load_example :
  let w := run [Request (VStr "x") (VStr "bad/url.js") None;
                Request (VStr "x") (VStr "bad/url.js") None] (init ∅) in
  let w' := script_onerror 0 w in
  let r := loadScript (VStr "x") (VStr "good/url.js") None w' in
  outcome w' 1 = ORejected "Failed to load library: x from bad/url.js"
  /\ outcome w' 2 = ORejected "Failed to load library: x from bad/url.js"
  /\ loaded (VStr "x") w' = false
  /\ length (head (snd r)) = 2
  /\ loaded (VStr "x") (script_onload 1 (snd r)) = true
  /\ outcome (script_onload 1 (snd r)) (fst r) = OFulfilled (VBool true).
Proof.
  assert (Hi : head (run [Request (VStr "x") (VStr "bad/url.js") None;
                          Request (VStr "x") (VStr "bad/url.js") None] (init ∅)) !! 0
               = Some (mkScript "bad/url.js" (VStr "x") (VStr "bad/url.js") None 0 false))
    by reflexivity.
  destruct (failed_load_rejects_waiters_and_allows_retry ∅ _ 0 _ Hi eq_refl)
    as ((err & _ & Hw & Htext) & _ & _ & _ & Hquiet & _ & Hretry).
  pose proof (Htext eq_refl eq_refl) as Herr. cbn in Herr.
  pose proof (Hquiet [] [Request (VStr "x") (VStr "bad/url.js") None;
                         Request (VStr "x") (VStr "bad/url.js") None]
                eq_refl eq_refl eq_refl) as Hl.
  destruct (Hretry (VStr "good/url.js") None Hl eq_refl) as (Hh & _ & Hload & Hout).
  split; [exact (eq_trans (Hw 1 eq_refl) (f_equal ORejected Herr))|].
  split; [exact (eq_trans (Hw 2 eq_refl) (f_equal ORejected Herr))|].
  split; [exact Hl|].
  split; [exact (f_equal length Hh)|].
  split; [exact Hload|exact Hout].
Defined.

(** A failure does not make [isLoaded(name)] false: a request whose
    presence check found the library while the script was in flight has
    recorded the name, and the error handler leaves that record alone. *)
Lemma failed_load_can_leave_library_loaded :
  let w := run [Request (VStr "x") (VStr "bad/url.js") None;
                SetWindow {[ "x" := VObj 1 ]};
                Request (VStr "x") (VStr "bad/url.js") (Some (read "x"))] (init ∅) in
  head w !! 0 = Some (mkScript "bad/url.js" (VStr "x") (VStr "bad/url.js") None 0 false)
  /\ outcome (script_onerror 0 w) 1
     = ORejected "Failed to load library: x from bad/url.js"
  /\ loaded (VStr "x") (script_onerror 0 w) = true.
Proof. vm_compute. repeat split; reflexivity. Qed.

Lemma unanswered_request_is_pending win acts name url checkFn :
  let w := run acts (init win) in
  loaded name w = false -> check_hit checkFn w = false ->
  outcome (snd (loadScript name url checkFn w)) (fst (loadScript name url checkFn w))
  = OPending.
Proof.
  intros w Hl Hc.
  pose proof (Inv_reachable win acts : Inv w) as HI.
  assert (Hnone : loadedLibraries w !! name = None).
  { unfold loaded, isLoaded in Hl. simpl in Hl. apply bool_decide_eq_false in Hl.
    destruct (loadedLibraries w !! name); [|done]. exfalso. apply Hl. eauto. }
  destruct (loadingPromises w !! name) as [q|] eqn:Hq.
  - rewrite (loadScript_tracked _ _ _ _ _ Hc Hnone Hq). cbn [fst snd].
    destruct (inv_tracked _ HI _ _ Hq) as (i & sc & Hi & <- & _ & Hf).
    pose proof (inv_script_promise _ HI _ _ Hi) as Hlt.
    pose proof (inv_script_pending _ HI _ _ Hi Hf) as Hp.
    rewrite (outcome_adopts _ _ (sc_promise sc)); [| |done].
    + apply outcome_pending. simpl. by apply lookup_app_l_Some.
    + simpl. by rewrite list_lookup_middle.
  - rewrite (loadScript_fresh _ _ _ _ Hc Hnone Hq). cbn [fst snd].
    rewrite (outcome_adopts _ _ (length (promises w))); [| |lia].
    + apply outcome_pending. simpl. apply lookup_app_l_Some.
      by rewrite list_lookup_middle.
    + simpl. rewrite list_lookup_middle; [done|]. rewrite length_app. simpl. lia.
Qed.

(** Claim C7. [isLoaded(name)] answers false on a new loader; it changes
    nothing (it starts no load); an action that does not resolve a request
    for [name] successfully leaves a false answer false (so it is false
    while a load is in flight and after a failed load), and a request for
    [name] that is not answered by its presence check while the answer is
    false is still pending after the call; an action that does resolve a
    request for [name] makes the answer true at once; a true answer stays
    true through every action that does not call [unload(name)]; and
    every action that calls [unload(name)], [unload(name)] itself among
    them, makes the answer false. *)
Theorem isLoaded_follows_resolution_and_unload name :
  (forall win, loaded name (init win) = false)
  /\ (forall w, snd (isLoaded name w) = w /\ step (IsLoaded name) w = w)
  /\ (forall a w, loaded name w = false -> succeeds_for name a w = false ->
                  loaded name (step a w) = false)
  /\ (forall win acts url checkFn,
        let w := run acts (init win) in
        loaded name w = false ->
        succeeds_for name (Request name url checkFn) w = false ->
        outcome (snd (loadScript name url checkFn w))
                (fst (loadScript name url checkFn w)) = OPending)
  /\ (forall a w, succeeds_for name a w = true -> loaded name (step a w) = true)
  /\ (forall a w, loaded name w = true -> unloads name a w = false ->
                  loaded name (step a w) = true)
  /\ (forall a w, unloads name a w = true -> loaded name (step a w) = false)
  /\ (forall w, loaded name (unload name w) = false).
Proof.
  split; [done|]. split; [done|].
  split; [|split; [|split; [|split; [|split]]]].
  - intros a w. rewrite loaded_step. intros -> ->. by destruct (unloads name a w).
  - intros win acts url checkFn w Hl Hs. apply unanswered_request_is_pending; [done|].
    simpl in Hs. by rewrite bool_decide_eq_true_2 in Hs.
  - intros a w. rewrite loaded_step. by intros ->.
  - intros a w. rewrite loaded_step. intros -> ->.
    by destruct (succeeds_for name a w).
  - intros a w Hu. by rewrite loaded_step, (unloads_not_succeeds _ _ _ Hu), Hu.
  - intros w. change (unload name w) with (step (Unload name) w).
    rewrite loaded_step. simpl. by rewrite bool_decide_eq_true_2.
Qed.

(** The theorem along a load of ['x'] that fails, a retry that succeeds,
    a request for another library, and [unload('x')]. *)
Lemma isLoaded_lifecycle_example :
  let w0 := init ∅ in
  let w1 := step (Request (VStr "x") (VStr "x.js") None) w0 in
  let w2 := step (ScriptFailed 0) w1 in
  let w3 := step (Request (VStr "x") (VStr "x.js") None) w2 in
  let w4 := step (ScriptLoaded 1) w3 in
  let w5 := step (Request (VStr "y") (VStr "y.js") None) w4 in
  let w6 := step (Unload (VStr "x")) w5 in
  loaded (VStr "x") w1 = false
  /\ outcome w1 1 = OPending
  /\ loaded (VStr "x") w2 = false
  /\ loaded (VStr "x") w3 = false
  /\ loaded (VStr "x") w4 = true
  /\ loaded (VStr "x") w5 = true
  /\ loaded (VStr "x") w6 = false
  /\ loaded (VStr "y") w6 = false.
Proof.
  destruct (isLoaded_follows_resolution_and_unload (VStr "x"))
    as (Hinit & _ & Hstay & Hpend & Hsucc & Hkeep & Hunload & _).
  destruct (isLoaded_follows_resolution_and_unload (VStr "y"))
    as (Hinity & _ & Hstayy & _).
  pose proof (Hstay (Request (VStr "x") (VStr "x.js") None) (init ∅)
                (Hinit ∅) eq_refl) as H1.
  pose proof (Hstay (ScriptFailed 0) _ H1 eq_refl) as H2.
  pose proof (Hstay (Request (VStr "x") (VStr "x.js") None) _ H2 eq_refl) as H3.
  pose proof (Hsucc (ScriptLoaded 1)
                (step (Request (VStr "x") (VStr "x.js") None)
                   (step (ScriptFailed 0)
                      (step (Request (VStr "x") (VStr "x.js") None) (init ∅))))
                eq_refl) as H4.
  pose proof (Hkeep (Request (VStr "y") (VStr "y.js") None) _ H4 eq_refl) as H5.
  pose proof (Hunload (Unload (VStr "x"))
                (step (Request (VStr "y") (VStr "y.js") None)
                   (step (ScriptLoaded 1)
                      (step (Request (VStr "x") (VStr "x.js") None)
                         (step (ScriptFailed 0)
                            (step (Request (VStr "x") (VStr "x.js") None) (init ∅))))))
                eq_refl) as H6.
  pose proof (Hpend ∅ [] (VStr "x.js") None (Hinit ∅) eq_refl) as H1'.
  assert (H7 : loaded (VStr "y")
                 (step (Unload (VStr "x"))
                    (step (Request (VStr "y") (VStr "y.js") None)
                       (step (ScriptLoaded 1)
                          (step (Request (VStr "x") (VStr "x.js") None)
                             (step (ScriptFailed 0)
                                (step (Request (VStr "x") (VStr "x.js") None)
                                      (init ∅))))))) = false).
  { repeat (apply Hstayy; [|reflexivity]). apply Hinity. }
  exact (conj H1 (conj H1' (conj H2 (conj H3 (conj H4 (conj H5 (conj H6 H7))))))).
Defined.

(** Claim C9. [unload(name)] while a script for [name] is in flight
    forgets the name and its tracked promise but leaves the script and its
    promise as they are (the load is not cancelled); when that script then
    loads, its handler records the name again: [isLoaded(name)] answers
    true without any new request. *)
Theorem unload_in_flight_is_undone_by_onload i sc w :
  head w !! i = Some sc -> sc_fired sc = false ->
  let w1 := unload (sc_name sc) w in
  loaded (sc_name sc) w1 = false
  /\ loadingPromises w1 !! sc_name sc = None
  /\ head w1 = head w
  /\ promises w1 = promises w
  /\ loaded (sc_name sc) (script_onload i w1) = true.
Proof.
  intros Hi Hf w1.
  pose proof (loaded_step (sc_name sc) (Unload (sc_name sc)) w) as H1.
  cbn [step succeeds_for unloads] in H1.
  rewrite bool_decide_eq_true_2 in H1 by done.
  pose proof (loaded_step (sc_name sc) (ScriptLoaded i) w1) as H2.
  cbn [step succeeds_for] in H2.
  change (head w1) with (head w) in H2. rewrite Hi, Hf in H2.
  rewrite bool_decide_eq_true_2 in H2 by done.
  split; [exact H1|].
  split; [apply lookup_delete_eq|].
  split; [done|]. split; [done|exact H2].
Qed.

(** The theorem at [unload('opencv')] during the load of OpenCV. *)
Lemma unload_in_flight_example :
  let w := run [Request (VStr "opencv") (VStr "/assets/js/opencv.js") (Some (read "cv"))]
               (init ∅) in
  let w1 := unload (VStr "opencv") w in
  loaded (VStr "opencv") w1 = false
  /\ loaded (VStr "opencv") (script_onload 0 w1) = true.
Proof.
  assert (Hi : head (run [Request (VStr "opencv") (VStr "/assets/js/opencv.js")
                                  (Some (read "cv"))] (init ∅)) !! 0
               = Some (mkScript "/assets/js/opencv.js" (VStr "opencv")
                         (VStr "/assets/js/opencv.js") (Some (read "cv")) 0 false))
    by (vm_compute; reflexivity).
  destruct (unload_in_flight_is_undone_by_onload 0 _ _ Hi eq_refl)
    as (H1 & _ & _ & _ & H5).
  exact (conj H1 H5).
Defined.

(** *** [preload]

    Claim C10. For a key that names no function-valued property of the
    loader, [preload(key)] only schedules its callback, and the callback,
    once run, returns normally and leaves the world exactly as it was
    before [preload]: no script, no promise, no change to the maps. *)
Theorem preload_of_unknown_key_does_nothing key w :
  function_property key = None ->
  let w1 := preload (VStr key) w in
  loadedLibraries w1 = loadedLibraries w
  /\ loadingPromises w1 = loadingPromises w
  /\ promises w1 = promises w
  /\ head w1 = head w
  /\ window w1 = window w
  /\ (exists t, queue w1 = queue w ++ [t] /\ task_method t = VStr key)
  /\ run_task (length (queue w)) w1 = Normal w.
Proof.
  intros Hkey w1. subst w1. unfold preload.
  destruct (bool_decide (is_Some (window w !! "requestIdleCallback")));
    (repeat split; try done; [eexists; split; [reflexivity|done]|]);
    unfold run_task; simpl; rewrite list_lookup_middle by done;
    unfold preload_load; simpl; rewrite Hkey;
    unfold set_queue; simpl;
    rewrite (delete_middle (queue w) []), app_nil_r; by destruct w.
Qed.

(** The theorem at [preload('loadPDF')], a key the class does not have. *)
Lemma preload_of_unknown_key_example :
  let w := run [Request (VStr "jspdf") (VStr "/assets/js/jspdf.umd.min.js") None]
               (init ∅) in
  run_task 0 (preload (VStr "loadPDF") w) = Normal w.
Proof.
  destruct (preload_of_unknown_key_does_nothing "loadPDF"
              (run [Request (VStr "jspdf") (VStr "/assets/js/jspdf.umd.min.js") None]
                   (init ∅)) eq_refl) as (_ & _ & _ & _ & _ & _ & H).
  exact H.
Defined.

End LoaderProofs.

(** ** Properties of the event listener manager *)

Module EventsProofs.
Import JS Events.

(** *** Keys *)

Lemma pretty_N_go_no_underscore x s :
  occurs "_"%char s = false -> occurs "_"%char (pretty_N_go x s) = false.
Proof.
  revert s. induction (N.lt_wf_0 x) as [x _ IH]; intros s Hs.
  destruct (decide (0 < x)%N) as [Hx|Hx].
  - rewrite pretty_N_go_step by done. apply IH.
    + by apply N.div_lt.
    + cbn [occurs]. rewrite Hs.
      unfold pretty_N_char. by repeat case_match.
  - assert (x = 0%N) as -> by lia. by rewrite pretty_N_go_0.
Qed.

Lemma pretty_nat_no_underscore (n : nat) : occurs "_"%char (pretty n) = false.
Proof.
  unfold pretty, pretty_nat, pretty, pretty_N.
  case_decide; [done|]. by apply pretty_N_go_no_underscore.
Qed.

Lemma occurs_after_separator a d : occurs "_"%char (a +:+ "_" +:+ d) = true.
Proof.
  induction a as [|x a IH]; [reflexivity|].
  change (occurs "_"%char (String x (a +:+ "_" +:+ d)) = true).
  cbn [occurs]. rewrite IH. apply orb_true_r.
Qed.

Lemma separator_inj a b c d :
  occurs "_"%char c = false -> occurs "_"%char d = false ->
  a +:+ "_" +:+ c = b +:+ "_" +:+ d -> a = b /\ c = d.
Proof.
  intros Hc Hd. revert b.
  induction a as [|x a IH]; intros [|y b] Heq.
  - change (String "_" c = String "_" d) in Heq. by injection Heq.
  - change (String "_" c = String y (b +:+ "_" +:+ d)) in Heq.
    injection Heq as _ Heq. subst c.
    by rewrite occurs_after_separator in Hc.
  - change (String x (a +:+ "_" +:+ c) = String "_" d) in Heq.
    injection Heq as _ Heq. subst d.
    by rewrite occurs_after_separator in Hd.
  - change (String x (a +:+ "_" +:+ c) = String y (b +:+ "_" +:+ d)) in Heq.
    injection Heq as -> Heq. destruct (IH _ Heq) as [-> ->]. done.
Qed.

Lemma key_of_inj event event' (m m' : nat) :
  key_of event m = key_of event' m' -> event = event' /\ m = m'.
Proof.
  unfold key_of. intros Heq.
  apply separator_inj in Heq as [-> Heq]; try apply pretty_nat_no_underscore.
  split; [done|]. by apply (inj pretty).
Qed.

(** *** Lists *)

Lemma filter_filter_and {A} (f g : A -> bool) l :
  List.filter f (List.filter g l) = List.filter (fun x => g x && f x) l.
Proof.
  induction l as [|x l IH]; simpl; [done|].
  destruct (g x); simpl; [|done]. destruct (f x); simpl; by rewrite IH.
Qed.

Lemma filter_length_le {A} (f : A -> bool) l :
  length (List.filter f l) <= length l.
Proof.
  induction l as [|x l IH]; simpl; [done|]. destruct (f x); simpl; lia.
Qed.

Lemma filter_filter_length {A} (f g : A -> bool) l :
  length (List.filter f (List.filter g l)) <= length (List.filter f l).
Proof.
  induction l as [|x l IH]; simpl; [done|].
  destruct (g x), (f x) eqn:Hf; simpl; rewrite ?Hf; simpl; lia.
Qed.

Lemma filter_none {A} (f : A -> bool) l :
  existsb f l = false -> List.filter f l = [].
Proof.
  induction l as [|x l IH]; simpl; [done|].
  destruct (f x); simpl; [done|]. exact IH.
Qed.

Lemma existsb_false_In {A} (f : A -> bool) l x :
  existsb f l = false -> In x l -> f x = false.
Proof.
  intros H Hx. destruct (f x) eqn:Hf; [|done].
  assert (existsb f l = true) by (apply existsb_exists; eauto). congruence.
Qed.

Lemma filter_nonempty {A} (f : A -> bool) l x :
  In x l -> f x = true -> 1 <= length (List.filter f l).
Proof.
  intros Hx Hf.
  assert (Hin : In x (List.filter f l)) by (apply filter_In; auto).
  destruct (List.filter f l); [destruct Hin|simpl; lia].
Qed.

Lemma NoDup_fst_filter {A B} (f : A * B -> bool) (l : list (A * B)) :
  List.NoDup (map fst l) -> List.NoDup (map fst (List.filter f l)).
Proof.
  induction l as [|x l IH]; simpl; [done|].
  intros Hnd. inversion Hnd as [|? ? Hx Hnd']; subst.
  destruct (f x); simpl; [|by apply IH].
  constructor; [|by apply IH].
  intros Hin. apply Hx.
  apply in_map_iff in Hin as (y & Hy & Hin).
  apply in_map_iff. exists y. split; [done|].
  apply filter_In in Hin. tauto.
Qed.

Lemma NoDup_fst_inj {A B} (l : list (A * B)) x y :
  List.NoDup (map fst l) -> In x l -> In y l -> fst x = fst y -> x = y.
Proof.
  induction l as [|z l IH]; simpl; [done|].
  intros Hnd Hx Hy Heq. inversion Hnd as [|? ? Hz Hnd']; subst.
  destruct Hx as [->|Hx], Hy as [->|Hy]; try done.
  - exfalso. apply Hz. rewrite Heq. by apply in_map.
  - exfalso. apply Hz. rewrite <- Heq. by apply in_map.
  - by apply IH.
Qed.

Lemma NoDup_snoc {A} (l : list A) x :
  ~ In x l -> List.NoDup l -> List.NoDup (l ++ [x]).
Proof.
  induction l as [|y l IH]; simpl; intros Hx Hnd.
  - constructor; [by intros []|constructor].
  - inversion Hnd as [|? ? Hy Hnd']; subst. constructor.
    + rewrite in_app_iff. simpl. intros [?|[->|[]]]; tauto.
    + apply IH; tauto.
Qed.

(** *** The inner [Map] *)

Lemma map_set_fresh k e l :
  existsb (has_key k) l = false -> map_set k e l = l ++ [(k, e)].
Proof. intros H. unfold map_set. by rewrite H. Qed.

Lemma map_set_matches k event handler options l :
  existsb (matches event handler) (map_set k (mkEntry event handler options) l) = true.
Proof.
  assert (Hm : matches event handler (k, mkEntry event handler options) = true).
  { unfold matches. simpl. by rewrite String.eqb_refl, Nat.eqb_refl. }
  unfold map_set. destruct (existsb (has_key k) l) eqn:Hk.
  - apply existsb_exists in Hk as (x & Hx & Hkx).
    apply existsb_exists. exists (k, mkEntry event handler options).
    split; [|done]. apply in_map_iff. exists x. by rewrite Hkx.
  - rewrite existsb_app. simpl. rewrite Hm. by rewrite orb_true_r.
Qed.

Lemma fold_map_delete keys l :
  fold_left (fun l k => map_delete k l) keys l
  = List.filter (fun kv => negb (existsb (fun k => has_key k kv) keys)) l.
Proof.
  revert l. induction keys as [|k keys IH]; intros l; simpl.
  - induction l as [|x l IHl]; simpl; [done|]. by rewrite <- IHl.
  - rewrite IH. unfold map_delete. rewrite filter_filter_and.
    apply filter_ext. intros kv. by rewrite negb_orb.
Qed.

Lemma delete_hits event handler l :
  List.NoDup (map fst l) ->
  fold_left (fun l k => map_delete k l)
            (map fst (List.filter (matches event handler) l)) l
  = List.filter (fun kv => negb (matches event handler kv)) l.
Proof.
  intros Hnd. rewrite fold_map_delete. apply filter_ext_in. intros kv Hkv.
  f_equal. destruct (matches event handler kv) eqn:Hm.
  - apply existsb_exists. exists (fst kv). split.
    + apply in_map. apply filter_In. auto.
    + unfold has_key. apply String.eqb_refl.
  - destruct (existsb _ _) eqn:He; [|done].
    apply existsb_exists in He as (k & Hk & Hkk).
    apply in_map_iff in Hk as (kv' & <- & Hkv').
    apply filter_In in Hkv' as [Hin Hm'].
    unfold has_key in Hkk. apply String.eqb_eq in Hkk.
    assert (kv = kv') by (by apply (NoDup_fst_inj l)). congruence.
Qed.

(** *** What the flags of a backing entry say *)

Lemma backs_inv kv l :
  backs kv l = true ->
  en_event (snd kv) = li_type l /\ en_handler (snd kv) = li_callback l
  /\ opt_capture (en_options (snd kv)) = li_capture l
  /\ opt_once (en_options (snd kv)) = li_once l.
Proof.
  unfold backs, matches. intros H.
  apply andb_true_iff in H as [H Ho]. apply andb_true_iff in H as [H Hc].
  apply andb_true_iff in H as [He Hh].
  apply String.eqb_eq in He. apply Nat.eqb_eq in Hh.
  apply Bool.eqb_prop in Hc. apply Bool.eqb_prop in Ho. done.
Qed.

Lemma matches_inv event handler kv :
  matches event handler kv = true ->
  en_event (snd kv) = event /\ en_handler (snd kv) = handler.
Proof.
  unfold matches. intros H. apply andb_true_iff in H as [He Hh].
  apply String.eqb_eq in He. apply Nat.eqb_eq in Hh. done.
Qed.

Lemma matches_intro kv :
  matches (en_event (snd kv)) (en_handler (snd kv)) kv = true.
Proof. unfold matches. by rewrite String.eqb_refl, Nat.eqb_refl. Qed.

Lemma same_listener_inv type cb capture l :
  same_listener type cb capture l = true ->
  li_type l = type /\ li_callback l = cb /\ li_capture l = capture.
Proof.
  unfold same_listener. intros H.
  apply andb_true_iff in H as [H Hc]. apply andb_true_iff in H as [Ht Hh].
  apply String.eqb_eq in Ht. apply Nat.eqb_eq in Hh. apply Bool.eqb_prop in Hc.
  done.
Qed.

Lemma same_listener_backed kv l :
  backs kv l = true ->
  same_listener (en_event (snd kv)) (en_handler (snd kv))
                (opt_capture (en_options (snd kv))) l = true.
Proof.
  intros H. apply backs_inv in H as (-> & -> & -> & _).
  unfold same_listener.
  by rewrite String.eqb_refl, Nat.eqb_refl, Bool.eqb_reflx.
Qed.

Lemma of_type_callback_inv type handler l :
  of_type type l && Nat.eqb (li_callback l) handler = true ->
  li_type l = type /\ li_callback l = handler.
Proof.
  unfold of_type. intros H. apply andb_true_iff in H as [Ht Hh].
  apply String.eqb_eq in Ht. apply Nat.eqb_eq in Hh. done.
Qed.

(** *** The invariant, one node at a time *)

Lemma SoundAt_nil n : SoundAt n [] [].
Proof. split; simpl; try done; try lia. constructor. Qed.

Lemma SoundAt_mono n n' E L : n <= n' -> SoundAt n E L -> SoundAt n' E L.
Proof.
  intros Hle [H1 H2 H3 H4 H5 H6]. split; try done.
  intros kv Hkv. destruct (H2 kv Hkv) as (m & Hm & Hk). exists m. split; [lia|done].
Qed.

(** A new registration. *)
Lemma fresh_key n E L event :
  SoundAt n E L -> existsb (has_key (key_of event n)) E = false.
Proof.
  intros HS. destruct (existsb _ E) eqn:He; [|done].
  apply existsb_exists in He as (kv & Hkv & Hk).
  unfold has_key in Hk. apply String.eqb_eq in Hk.
  destruct (keys_bound _ _ _ HS kv Hkv) as (m & Hm & Hkey).
  rewrite Hkey in Hk. apply key_of_inj in Hk as [_ ->]. lia.
Qed.

Lemma not_attached n E L event handler capture :
  SoundAt n E L -> existsb (matches event handler) E = false ->
  existsb (same_listener event handler capture) L = false.
Proof.
  intros HS Hno. destruct (existsb _ L) eqn:He; [|done].
  apply existsb_exists in He as (l & Hl & Hsame).
  apply same_listener_inv in Hsame as (Ht & Hc & _).
  destruct (listeners_backed _ _ _ HS l Hl) as (kv & Hkv & Hb).
  apply backs_inv in Hb as (He & Hh & _).
  pose proof (existsb_false_In _ _ kv Hno Hkv) as Hm.
  rewrite <- Ht, <- Hc, <- He, <- Hh in Hm. by rewrite matches_intro in Hm.
Qed.

Lemma SoundAt_add n E L event handler options :
  SoundAt n E L -> existsb (matches event handler) E = false ->
  SoundAt (S n)
    (E ++ [(key_of event n, mkEntry event handler options)])
    (L ++ [mkListener event handler (opt_capture options) (opt_once options)
                      (opt_passive options)]).
Proof.
  intros HS Hno.
  pose proof (fresh_key n E L event HS) as Hfresh.
  destruct HS as [H1 H2 H3 H4 H5 H6].
  set (kv0 := (key_of event n, mkEntry event handler options)).
  set (l0 := mkListener event handler (opt_capture options) (opt_once options)
                        (opt_passive options)).
  assert (Hb0 : backs kv0 l0 = true).
  { unfold backs, matches. simpl.
    by rewrite String.eqb_refl, Nat.eqb_refl, !Bool.eqb_reflx. }
  split.
  - rewrite map_app. simpl. apply NoDup_snoc; [|done].
    intros Hin. apply in_map_iff in Hin as (kv & Hk & Hkv).
    pose proof (existsb_false_In _ _ kv Hfresh Hkv) as Hne.
    unfold has_key in Hne. rewrite Hk, String.eqb_refl in Hne. done.
  - intros kv Hkv. apply in_app_iff in Hkv as [Hkv|[<-|[]]].
    + destruct (H2 kv Hkv) as (m & Hm & Hk). exists m. split; [lia|done].
    + exists n. split; [lia|done].
  - intros ev h. rewrite filter_app, length_app. cbn [List.filter].
    destruct (matches ev h kv0) eqn:Hm; cbn [length].
    + apply matches_inv in Hm as [He Hh]. simpl in He, Hh. subst ev h.
      rewrite (filter_none _ _ Hno). simpl. lia.
    + specialize (H3 ev h). lia.
  - intros l Hl. apply in_app_iff in Hl as [Hl|[<-|[]]].
    + destruct (H4 l Hl) as (kv & Hkv & Hb). exists kv.
      split; [apply in_app_iff; auto|done].
    + exists kv0. split; [apply in_app_iff; simpl; auto|done].
  - intros ty h. rewrite filter_app, length_app. cbn [List.filter].
    destruct (of_type ty l0 && Nat.eqb (li_callback l0) h) eqn:Hm; cbn [length].
    + apply of_type_callback_inv in Hm as [Ht0 Hc0]. simpl in Ht0, Hc0. subst ty h.
      rewrite filter_none; [simpl; lia|].
      destruct (existsb _ L) eqn:He; [|done].
      apply existsb_exists in He as (l & Hl & Hlm).
      apply of_type_callback_inv in Hlm as [Ht Hc].
      destruct (H4 l Hl) as (kv & Hkv & Hb).
      apply backs_inv in Hb as (He & Hh & _).
      pose proof (existsb_false_In _ _ kv Hno Hkv) as Hm.
      rewrite <- Ht, <- Hc, <- He, <- Hh in Hm. by rewrite matches_intro in Hm.
    + specialize (H5 ty h). lia.
  - intros kv Hkv Ho. apply in_app_iff in Hkv as [Hkv|[<-|[]]].
    + destruct (H6 kv Hkv Ho) as (l & Hl & Hb). exists l.
      split; [apply in_app_iff; auto|done].
    + exists l0. split; [apply in_app_iff; simpl; auto|done].
Qed.

(** The registrations of one handler for one event are removed. *)
Lemma SoundAt_remove n E L event handler :
  SoundAt n E L ->
  SoundAt n
    (List.filter (fun kv => negb (matches event handler kv)) E)
    (List.filter
       (fun l => forallb
                   (fun kv => negb (same_listener event handler
                                      (opt_capture (en_options (snd kv))) l))
                   (List.filter (matches event handler) E)) L).
Proof.
  intros [H1 H2 H3 H4 H5 H6]. split.
  - by apply NoDup_fst_filter.
  - intros kv Hkv. apply filter_In in Hkv as [Hkv _]. by apply H2.
  - intros ev h. etrans; [apply filter_filter_length|apply H3].
  - intros l Hl. apply filter_In in Hl as [Hl HP].
    destruct (H4 l Hl) as (kv & Hkv & Hb). exists kv. split; [|done].
    apply filter_In. split; [done|].
    destruct (matches event handler kv) eqn:Hm; [|done]. exfalso.
    rewrite forallb_forall in HP.
    assert (Hhit : In kv (List.filter (matches event handler) E))
      by (apply filter_In; auto).
    specialize (HP kv Hhit).
    pose proof (same_listener_backed kv l Hb) as Hs.
    apply matches_inv in Hm as [He Hh]. rewrite He, Hh in Hs.
    rewrite Hs in HP. done.
  - intros ty h. etrans; [apply filter_filter_length|apply H5].
  - intros kv Hkv Ho. apply filter_In in Hkv as [Hkv Hm].
    destruct (H6 kv Hkv Ho) as (l & Hl & Hb). exists l. split; [|done].
    apply filter_In. split; [done|].
    apply forallb_forall. intros kv' Hkv'.
    destruct (same_listener _ _ _ l) eqn:Hs; [|done]. exfalso.
    apply same_listener_inv in Hs as (Ht & Hc & _).
    apply backs_inv in Hb as (He & Hh & _).
    rewrite <- Ht, <- Hc, <- He, <- Hh in Hm. by rewrite matches_intro in Hm.
Qed.

(** Every listener of the node is removed. *)
Lemma detach_all_nil n E L :
  SoundAt n E L ->
  List.filter
    (fun l => forallb
                (fun kv => negb (same_listener (en_event (snd kv))
                                   (en_handler (snd kv))
                                   (opt_capture (en_options (snd kv))) l)) E) L
  = [].
Proof.
  intros HS. apply filter_none.
  destruct (existsb _ L) eqn:He; [|done].
  apply existsb_exists in He as (l & Hl & HP).
  destruct (listeners_backed _ _ _ HS l Hl) as (kv & Hkv & Hb).
  rewrite forallb_forall in HP. specialize (HP kv Hkv).
  by rewrite (same_listener_backed kv l Hb) in HP.
Qed.

(** An event is dispatched. *)
Lemma SoundAt_dispatch n E L type :
  SoundAt n E L ->
  SoundAt n E (List.filter (fun l => negb (of_type type l && li_once l)) L).
Proof.
  intros [H1 H2 H3 H4 H5 H6]. split; try done.
  - intros l Hl. apply filter_In in Hl as [Hl _]. by apply H4.
  - intros ty h. etrans; [apply filter_filter_length|apply H5].
  - intros kv Hkv Ho. destruct (H6 kv Hkv Ho) as (l & Hl & Hb).
    exists l. split; [|done]. apply filter_In. split; [done|].
    apply backs_inv in Hb as (_ & _ & _ & Hon). rewrite <- Hon, Ho.
    by rewrite andb_false_r.
Qed.

(** *** What each operation does to one node *)

Lemma filter_all {A} (l : list A) : List.filter (fun _ => true) l = l.
Proof. induction l as [|x l IH]; simpl; [done|]. by rewrite IH. Qed.

Lemma listeners_of_insert el el' ls w :
  listeners_of el' (set_nodes (fun m => <[el := ls]> m) w)
  = if decide (el = el') then ls else listeners_of el' w.
Proof.
  unfold listeners_of. simpl. rewrite lookup_insert.
  by destruct (decide (el = el')).
Qed.

Lemma entries_of_insert el el' E w :
  entries_of el' (set_elementListeners (fun m => <[el := E]> m) w)
  = if decide (el = el') then E else entries_of el' w.
Proof.
  unfold entries_of. simpl. rewrite lookup_insert.
  by destruct (decide (el = el')).
Qed.

Lemma removeEventListener_listeners el el' type cb options w :
  listeners_of el' (removeEventListener el type cb options w)
  = if decide (el = el')
    then List.filter
           (fun l => negb (same_listener type cb (opt_capture options) l))
           (listeners_of el w)
    else listeners_of el' w.
Proof. unfold removeEventListener. apply listeners_of_insert. Qed.

Lemma detach_fold el (fT : string * Entry -> string) (fC : string * Entry -> nat)
    (fO : string * Entry -> Options) hits : forall w,
  let w' := fold_left
              (fun w kv => removeEventListener el (fT kv) (fC kv) (fO kv) w)
              hits w in
  elementListeners w' = elementListeners w
  /\ listenerId w' = listenerId w
  /\ (forall el', el' <> el -> listeners_of el' w' = listeners_of el' w)
  /\ listeners_of el w'
     = List.filter
         (fun l => forallb
                     (fun kv => negb (same_listener (fT kv) (fC kv)
                                        (opt_capture (fO kv)) l)) hits)
         (listeners_of el w).
Proof.
  induction hits as [|kv hits IH]; intros w; simpl.
  - repeat split; try done. by rewrite filter_all.
  - destruct (IH (removeEventListener el (fT kv) (fC kv) (fO kv) w))
      as (H1 & H2 & H3 & H4).
    split; [by rewrite H1|]. split; [by rewrite H2|]. split.
    + intros el' Hne. rewrite H3 by done.
      rewrite removeEventListener_listeners. by destruct (decide (el = el')).
    + rewrite H4, removeEventListener_listeners.
      destruct (decide (el = el)); [|done]. apply filter_filter_and.
Qed.

Lemma entries_of_Some el E w :
  elementListeners w !! el = Some E -> entries_of el w = E.
Proof. intros H. unfold entries_of. by rewrite H. Qed.

Lemma entries_of_None el w :
  elementListeners w !! el = None -> entries_of el w = [].
Proof. intros H. unfold entries_of. by rewrite H. Qed.

Lemma addEventListener_listeners el el' type cb options w :
  listeners_of el' (addEventListener el type cb options w)
  = if decide (el = el')
    then if existsb (same_listener type cb (opt_capture options)) (listeners_of el w)
         then listeners_of el w
         else listeners_of el w
              ++ [mkListener type cb (opt_capture options) (opt_once options)
                             (opt_passive options)]
    else listeners_of el' w.
Proof.
  unfold addEventListener.
  destruct (existsb _ (listeners_of el w)).
  - by destruct (decide (el = el')) as [->|].
  - apply listeners_of_insert.
Qed.

Lemma addEventListener_manager el type cb options w :
  elementListeners (addEventListener el type cb options w) = elementListeners w
  /\ listenerId (addEventListener el type cb options w) = listenerId w.
Proof. unfold addEventListener. by destruct (existsb _ _). Qed.

Lemma add_node el event handler options w :
  let w' := page_of (add (VObj el) event handler options w) in
  add (VObj el) event handler options w = Ok w'
  /\ listenerId w' = S (listenerId w)
  /\ (forall el', el' <> el ->
        entries_of el' w' = entries_of el' w
        /\ listeners_of el' w' = listeners_of el' w)
  /\ if existsb (matches event handler) (entries_of el w)
     then elementListeners w' = elementListeners w /\ nodes w' = nodes w
     else entries_of el w'
          = map_set (key_of event (listenerId w))
                    (mkEntry event handler options) (entries_of el w)
          /\ listeners_of el w'
             = if existsb (same_listener event handler (opt_capture options))
                          (listeners_of el w)
               then listeners_of el w
               else listeners_of el w
                    ++ [mkListener event handler (opt_capture options)
                                   (opt_once options) (opt_passive options)].
Proof.
  intros w'. subst w'. unfold add. cbn [truthy negb].
  destruct (elementListeners w !! el) as [E|] eqn:HE.
  - rewrite (entries_of_Some _ _ _ HE).
    destruct (existsb (matches event handler) E) eqn:Hm; cbn [page_of].
    + repeat split; done.
    + split; [done|].
      destruct (addEventListener_manager el event handler options
                  (set_listenerId S w)) as [Hel Hid].
      split; [exact Hid|]. split.
      * intros el' Hne. rewrite entries_of_insert.
        destruct (decide (el = el')); [congruence|]. split.
        -- unfold entries_of. by rewrite Hel.
        -- change (listeners_of el' (addEventListener el event handler options
                                      (set_listenerId S w))
                   = listeners_of el' w).
           rewrite addEventListener_listeners.
           by destruct (decide (el = el')).
      * rewrite entries_of_insert. destruct (decide (el = el)); [|done].
        split; [done|].
        change (listeners_of el (addEventListener el event handler options
                                   (set_listenerId S w)) = 
                if existsb (same_listener event handler (opt_capture options))
                     (listeners_of el w)
                then listeners_of el w
                else listeners_of el w
                    ++ [mkListener event handler (opt_capture options)
                                   (opt_once options) (opt_passive options)]).
        rewrite addEventListener_listeners.
        by destruct (decide (el = el)).
  - rewrite (entries_of_None _ _ HE). cbn [existsb page_of].
    set (w1 := set_elementListeners (fun m => <[el := []]> m) w).
    destruct (addEventListener_manager el event handler options
                (set_listenerId S w1)) as [Hel Hid].
    split; [done|]. split; [exact Hid|]. split.
    + intros el' Hne. rewrite entries_of_insert.
      destruct (decide (el = el')); [congruence|]. split.
      * unfold entries_of. rewrite Hel. subst w1. cbn.
        by rewrite lookup_insert_ne.
      * change (listeners_of el' (addEventListener el event handler options
                                    (set_listenerId S w1))
                = listeners_of el' w).
        rewrite addEventListener_listeners.
        by destruct (decide (el = el')).
    + rewrite entries_of_insert. destruct (decide (el = el)); [|done].
      split; [done|].
      change (listeners_of el (addEventListener el event handler options
                                 (set_listenerId S w1)) = 
              if existsb (same_listener event handler (opt_capture options))
                   (listeners_of el w)
              then listeners_of el w
              else listeners_of el w
                  ++ [mkListener event handler (opt_capture options)
                                 (opt_once options) (opt_passive options)]).
      rewrite addEventListener_listeners.
      by destruct (decide (el = el)).
Qed.

Lemma remove_node el event handler w :
  let w' := page_of (remove (VObj el) event handler w) in
  let E := entries_of el w in
  remove (VObj el) event handler w = Ok w'
  /\ listenerId w' = listenerId w
  /\ (forall el', el' <> el ->
        entries_of el' w' = entries_of el' w
        /\ listeners_of el' w' = listeners_of el' w)
  /\ entries_of el w'
     = fold_left (fun l k => map_delete k l)
                 (map fst (List.filter (matches event handler) E)) E
  /\ listeners_of el w'
     = List.filter
         (fun l => forallb
                     (fun kv => negb (same_listener event handler
                                        (opt_capture (en_options (snd kv))) l))
                     (List.filter (matches event handler) E))
         (listeners_of el w).
Proof.
  intros w' E. subst w' E. unfold remove. cbn [truthy negb].
  destruct (elementListeners w !! el) as [E|] eqn:HE; cbn [page_of].
  - rewrite (entries_of_Some _ _ _ HE).
    destruct (detach_fold el (fun _ => event) (fun _ => handler)
                (fun kv => en_options (snd kv))
                (List.filter (matches event handler) E) w)
      as (H1 & H2 & H3 & H4).
    cbv beta in H1, H2, H3, H4.
    split; [done|]. split; [exact H2|]. split.
    + intros el' Hne. rewrite entries_of_insert.
      destruct (decide (el = el')); [congruence|]. split.
      * unfold entries_of. by rewrite H1.
      * exact (H3 el' Hne).
    + rewrite entries_of_insert. destruct (decide (el = el)); [|done].
      split; [done|]. exact H4.
  - rewrite (entries_of_None _ _ HE). cbn.
    repeat split; try done. by rewrite filter_all.
Qed.

Lemma removeAllForElement_node el w :
  let w' := page_of (removeAllForElement (VObj el) w) in
  let E := entries_of el w in
  removeAllForElement (VObj el) w = Ok w'
  /\ listenerId w' = listenerId w
  /\ (forall el', el' <> el ->
        entries_of el' w' = entries_of el' w
        /\ listeners_of el' w' = listeners_of el' w)
  /\ elementListeners w' !! el = None
  /\ listeners_of el w'
     = List.filter
         (fun l => forallb
                     (fun kv => negb (same_listener (en_event (snd kv))
                                        (en_handler (snd kv))
                                        (opt_capture (en_options (snd kv))) l))
                     E)
         (listeners_of el w)
  /\ (elementListeners w !! el = None -> w' = w).
Proof.
  intros w' E. subst w' E. unfold removeAllForElement. cbn [truthy negb].
  destruct (elementListeners w !! el) as [E|] eqn:HE; cbn [page_of].
  - rewrite (entries_of_Some _ _ _ HE).
    destruct (detach_fold el (fun kv => en_event (snd kv))
                (fun kv => en_handler (snd kv))
                (fun kv => en_options (snd kv)) E w)
      as (H1 & H2 & H3 & H4).
    cbv beta in H1, H2, H3, H4.
    split; [done|]. split; [exact H2|]. split.
    + intros el' Hne. split.
      * unfold entries_of. cbn. rewrite lookup_delete_ne by done. by rewrite H1.
      * exact (H3 el' Hne).
    + split; [cbn; apply lookup_delete_eq|].
      split; [exact H4|done].
  - rewrite (entries_of_None _ _ HE). cbn.
    repeat split; try done. by rewrite filter_all.
Qed.

Lemma removeAllForElement_untracked el w :
  entries_of el w = [] ->
  let w' := page_of (removeAllForElement (VObj el) w) in
  nodes w' = nodes w
  /\ listenerId w' = listenerId w
  /\ forall el', entries_of el' w' = entries_of el' w.
Proof.
  intros HE w'. subst w'. unfold removeAllForElement. cbn [truthy negb].
  destruct (elementListeners w !! el) as [E|] eqn:Hel; cbn [page_of]; [|done].
  rewrite (entries_of_Some _ _ _ Hel) in HE. subst E. cbn [fold_left].
  split; [done|]. split; [done|].
  intros el'. unfold entries_of. cbn.
  destruct (decide (el = el')) as [<-|Hne].
  - by rewrite lookup_delete_eq, Hel.
  - by rewrite lookup_delete_ne.
Qed.

Lemma dispatch_node el type w :
  let w' := snd (dispatch el type w) in
  listenerId w' = listenerId w
  /\ elementListeners w' = elementListeners w
  /\ (forall el', el' <> el -> listeners_of el' w' = listeners_of el' w)
  /\ listeners_of el w'
     = List.filter (fun l => negb (of_type type l && li_once l)) (listeners_of el w).
Proof.
  unfold dispatch. cbn [snd]. repeat split.
  - intros el' Hne. rewrite listeners_of_insert. by destruct (decide (el = el')).
  - rewrite listeners_of_insert. by destruct (decide (el = el)).
Qed.

(** *** Elements that are not nodes *)

Lemma add_not_node element event handler options w :
  (forall el, element <> VObj el) ->
  page_of (add element event handler options w) = w.
Proof.
  intros Hne. unfold add. destruct (negb (truthy element)); [done|].
  destruct element; try done. by destruct (Hne id).
Qed.

Lemma remove_not_node element event handler w :
  (forall el, element <> VObj el) -> remove element event handler w = Ok w.
Proof.
  intros Hne. unfold remove. destruct (negb (truthy element)); [done|].
  destruct element; try done. by destruct (Hne id).
Qed.

Lemma removeAllForElement_not_node element w :
  (forall el, element <> VObj el) -> removeAllForElement element w = Ok w.
Proof.
  intros Hne. unfold removeAllForElement. destruct (negb (truthy element)); [done|].
  destruct element; try done. by destruct (Hne id).
Qed.

Lemma node_or_not (element : Value) :
  (exists el, element = VObj el) \/ (forall el, element <> VObj el).
Proof. destruct element; eauto; right; intros; discriminate. Qed.

(** *** The invariant holds of every page *)

Lemma Sound_empty : Sound empty.
Proof. intros el. apply SoundAt_nil. Qed.

Lemma Sound_add element event handler options w :
  Sound w -> Sound (page_of (add element event handler options w)).
Proof.
  intros HS. destruct (node_or_not element) as [[el ->]|Hne];
    [|by rewrite add_not_node].
  destruct (add_node el event handler options w) as (_ & Hid & Hother & Hel).
  intros el'. rewrite Hid. destruct (decide (el' = el)) as [->|Hne].
  - destruct (existsb (matches event handler) (entries_of el w)) eqn:Hm.
    + destruct Hel as [He Hn]. unfold entries_of, listeners_of. rewrite He, Hn.
      apply (SoundAt_mono (listenerId w)); [lia|apply HS].
    + destruct Hel as [-> ->].
      rewrite (map_set_fresh _ _ _ (fresh_key _ _ _ event (HS el))).
      rewrite (not_attached _ _ _ _ _ (opt_capture options) (HS el) Hm).
      by apply SoundAt_add.
  - destruct (Hother el' Hne) as [-> ->].
    apply (SoundAt_mono (listenerId w)); [lia|apply HS].
Qed.

Lemma Sound_remove element event handler w :
  Sound w -> Sound (page_of (remove element event handler w)).
Proof.
  intros HS. destruct (node_or_not element) as [[el ->]|Hne];
    [|by rewrite remove_not_node].
  destruct (remove_node el event handler w) as (_ & Hid & Hother & HE & HL).
  intros el'. rewrite Hid. destruct (decide (el' = el)) as [->|Hne].
  - rewrite HE, HL. rewrite delete_hits by apply (keys_nodup _ _ _ (HS el)).
    by apply SoundAt_remove.
  - destruct (Hother el' Hne) as [-> ->]. apply HS.
Qed.

Lemma Sound_removeAllForElement element w :
  Sound w -> Sound (page_of (removeAllForElement element w)).
Proof.
  intros HS. destruct (node_or_not element) as [[el ->]|Hne];
    [|by rewrite removeAllForElement_not_node].
  destruct (removeAllForElement_node el w) as (_ & Hid & Hother & HE & HL & _).
  intros el'. rewrite Hid. destruct (decide (el' = el)) as [->|Hne].
  - rewrite HL, (entries_of_None _ _ HE), (detach_all_nil _ _ _ (HS el)).
    apply SoundAt_nil.
  - destruct (Hother el' Hne) as [-> ->]. apply HS.
Qed.

Lemma Sound_dispatch el type w : Sound w -> Sound (snd (dispatch el type w)).
Proof.
  intros HS. destruct (dispatch_node el type w) as (Hid & HE & Hother & HL).
  intros el'. rewrite Hid. unfold entries_of. rewrite HE.
  destruct (decide (el' = el)) as [->|Hne].
  - rewrite HL. apply SoundAt_dispatch, HS.
  - rewrite (Hother el' Hne). apply HS.
Qed.

Lemma Sound_interact a w : Sound w -> Sound (interact a w).
Proof.
  intros HS. destruct a; cbn [interact].
  - by apply Sound_add.
  - by apply Sound_remove.
  - done.
  - by apply Sound_removeAllForElement.
  - by apply Sound_dispatch.
Qed.

Lemma Sound_interact_all acts w : Sound w -> Sound (interact_all acts w).
Proof.
  revert w. induction acts as [|a acts IH]; intros w HS; [done|].
  simpl. apply IH. by apply Sound_interact.
Qed.

Lemma Sound_reachable acts : Sound (interact_all acts empty).
Proof. apply Sound_interact_all, Sound_empty. Qed.

(** *** Dispatch *)

Lemma dispatch_count el type handler w :
  count_occ Nat.eq_dec (fst (dispatch el type w)) handler
  = attachments el type handler w.
Proof.
  unfold dispatch, attachments. cbn [fst].
  induction (listeners_of el w) as [|l L IH]; [done|].
  rewrite map_app, count_occ_app in *. cbn [List.filter].
  destruct (of_type type l) eqn:Ht; cbn [List.filter andb]; [|exact IH].
  destruct (li_capture l) eqn:Hc; cbn [negb map count_occ];
    destruct (Nat.eq_dec (li_callback l) handler) as [Heq|Hne].
  - apply Nat.eqb_eq in Heq as Hb. rewrite Hb. cbn [length]. lia.
  - apply Nat.eqb_neq in Hne as Hb. rewrite Hb. exact IH.
  - apply Nat.eqb_eq in Heq as Hb. rewrite Hb. cbn [length]. lia.
  - apply Nat.eqb_neq in Hne as Hb. rewrite Hb. exact IH.
Qed.

Lemma dispatch_at_most_once el type handler w :
  Sound w -> count_occ Nat.eq_dec (fst (dispatch el type w)) handler <= 1.
Proof.
  intros HS. rewrite dispatch_count. apply (listeners_unique _ _ _ (HS el)).
Qed.

Lemma dispatch_attached el handler l w :
  Sound w -> In l (listeners_of el w) -> li_callback l = handler ->
  count_occ Nat.eq_dec (fst (dispatch el (li_type l) w)) handler = 1.
Proof.
  intros HS Hl Hc.
  pose proof (dispatch_at_most_once el (li_type l) handler w HS) as Hle.
  rewrite dispatch_count in *. unfold attachments in *.
  assert (1 <= length (List.filter
            (fun l0 => of_type (li_type l) l0 && Nat.eqb (li_callback l0) handler)
            (listeners_of el w))); [|lia].
  apply (filter_nonempty _ _ l Hl).
  unfold of_type. rewrite String.eqb_refl. simpl. by apply Nat.eqb_eq.
Qed.

Lemma dispatch_persistent el event handler kv w :
  Sound w -> In kv (entries_of el w) -> matches event handler kv = true ->
  opt_once (en_options (snd kv)) = false ->
  count_occ Nat.eq_dec (fst (dispatch el event w)) handler = 1.
Proof.
  intros HS Hkv Hm Ho.
  destruct (persistent_attached _ _ _ (HS el) kv Hkv Ho) as (l & Hl & Hb).
  apply backs_inv in Hb as (He & Hh & _).
  apply matches_inv in Hm as [Hev Hha].
  rewrite <- Hev, He. apply dispatch_attached; [done..|congruence].
Qed.

Lemma silent_interact el a w :
  adds_to el a = false -> listeners_of el w = [] -> listeners_of el (interact a w) = [].
Proof.
  intros Ha HL.
  destruct a as [element ev h o|element ev h| |element|el' ty]; cbn [interact].
  - destruct (node_or_not element) as [[el' ->]|Hne]; [|by rewrite add_not_node].
    simpl in Ha. apply Nat.eqb_neq in Ha.
    destruct (add_node el' ev h o w) as (_ & _ & Hother & _).
    destruct (Hother el) as [_ ->]; [congruence|done].
  - destruct (node_or_not element) as [[el' ->]|Hne];
      [|by rewrite remove_not_node].
    destruct (remove_node el' ev h w) as (_ & _ & Hother & _ & Hl).
    destruct (decide (el = el')) as [->|Hne].
    + by rewrite Hl, HL.
    + by destruct (Hother el Hne) as [_ ->].
  - done.
  - destruct (node_or_not element) as [[el' ->]|Hne];
      [|by rewrite removeAllForElement_not_node].
    destruct (removeAllForElement_node el' w) as (_ & _ & Hother & _ & Hl & _).
    destruct (decide (el = el')) as [->|Hne].
    + by rewrite Hl, HL.
    + by destruct (Hother el Hne) as [_ ->].
  - destruct (dispatch_node el' ty w) as (_ & _ & Hother & Hl).
    destruct (decide (el = el')) as [->|Hne].
    + by rewrite Hl, HL.
    + by rewrite (Hother el Hne).
Qed.

Lemma silent_interact_all el acts : forall w,
  forallb (fun a => negb (adds_to el a)) acts = true ->
  listeners_of el w = [] -> listeners_of el (interact_all acts w) = [].
Proof.
  induction acts as [|a acts IH]; intros w Hall HL; [done|].
  simpl in Hall. apply andb_true_iff in Hall as [Ha Hall].
  simpl. apply IH; [done|]. apply silent_interact; [|done].
  by destruct (adds_to el a).
Qed.

Lemma registered_once el event handler w :
  Sound w -> existsb (matches event handler) (entries_of el w) = true ->
  registrations el event handler w = 1.
Proof.
  intros HS Hm. pose proof (entries_unique _ _ _ (HS el) event handler) as Hle.
  apply existsb_exists in Hm as (kv & Hkv & Hm).
  pose proof (filter_nonempty _ _ kv Hkv Hm). unfold registrations. lia.
Qed.

Lemma registered_after_add el event handler options w :
  existsb (matches event handler)
          (entries_of el (page_of (add (VObj el) event handler options w))) = true.
Proof.
  destruct (add_node el event handler options w) as (_ & _ & _ & Hel).
  destruct (existsb (matches event handler) (entries_of el w)) eqn:Hm.
  - destruct Hel as [He _]. unfold entries_of in *. by rewrite He.
  - destruct Hel as [-> _]. apply map_set_matches.
Qed.

Lemma dispatch_entries el el' type w :
  entries_of el' (snd (dispatch el type w)) = entries_of el' w.
Proof. reflexivity. Qed.

(** *** Registration is idempotent

    Claim C5, as the code has it. In every page reached through the
    manager: a node has at most one entry for an event and a handler;
    after [add(el, event, handler, options)] it has exactly one; a second
    [add] for the same three returns normally and changes neither the
    entries nor the listeners of any node (only the key counter
    advances); from then on no dispatch at [el] invokes any handler more
    than once; if the handler was not registered before, the next event
    invokes it exactly once; and if its entry does not carry the [once]
    flag, every event of that type invokes it exactly once, however many
    were dispatched before. *)
Theorem repeated_add_keeps_one_registration acts el event handler options options' :
  let w := interact_all acts empty in
  let w1 := page_of (add (VObj el) event handler options w) in
  let w2 := page_of (add (VObj el) event handler options' w1) in
  registrations el event handler w <= 1
  /\ registrations el event handler w1 = 1
  /\ add (VObj el) event handler options' w1 = Ok w2
  /\ elementListeners w2 = elementListeners w1
  /\ nodes w2 = nodes w1
  /\ listenerId w2 = S (listenerId w1)
  /\ (forall acts' type h,
        count_occ Nat.eq_dec (fst (dispatch el type (interact_all acts' w2))) h <= 1)
  /\ (registrations el event handler w = 0 ->
        count_occ Nat.eq_dec (fst (dispatch el event w2)) handler = 1)
  /\ (forall kv k,
        In kv (entries_of el w2) -> matches event handler kv = true ->
        opt_once (en_options (snd kv)) = false ->
        count_occ Nat.eq_dec
          (fst (dispatch el event
                  (Nat.iter k (fun x => snd (dispatch el event x)) w2)))
          handler = 1).
Proof.
  intros w w1 w2.
  pose proof (Sound_reachable acts : Sound w) as HS.
  pose proof (Sound_add (VObj el) event handler options w HS : Sound w1) as HS1.
  pose proof (Sound_add (VObj el) event handler options' w1 HS1 : Sound w2) as HS2.
  pose proof (registered_after_add el event handler options w
              : existsb _ (entries_of el w1) = true) as Hreg.
  destruct (add_node el event handler options' w1) as (Hok & Hid & _ & Hel).
  fold w2 in Hok, Hid, Hel. rewrite Hreg in Hel. destruct Hel as [He Hn].
  split; [apply (entries_unique _ _ _ (HS el))|].
  split; [by apply registered_once|].
  split; [exact Hok|]. split; [exact He|]. split; [exact Hn|].
  split; [exact Hid|].
  split; [intros acts' type h; apply dispatch_at_most_once; by apply Sound_interact_all|].
  split.
  - intros Hzero.
    assert (Hno : existsb (matches event handler) (entries_of el w) = false).
    { destruct (existsb (matches event handler) (entries_of el w)) eqn:Hm; [|done].
      rewrite (registered_once el event handler w HS Hm) in Hzero. discriminate. }
    destruct (add_node el event handler options w) as (_ & _ & _ & Hel).
    fold w1 in Hel. rewrite Hno in Hel. destruct Hel as [_ HL].
    rewrite (not_attached _ _ _ _ _ (opt_capture options) (HS el) Hno) in HL.
    set (l0 := mkListener event handler (opt_capture options) (opt_once options)
                          (opt_passive options)) in HL.
    apply (dispatch_attached el handler l0 w2 HS2); [|done].
    unfold listeners_of. rewrite Hn. fold (listeners_of el w1). rewrite HL.
    apply in_app_iff. simpl. auto.
  - intros kv k Hkv Hm Ho.
    assert (Hk : Sound (Nat.iter k (fun x => snd (dispatch el event x)) w2)
                 /\ entries_of el (Nat.iter k (fun x => snd (dispatch el event x)) w2)
                    = entries_of el w2).
    { induction k as [|k [IH1 IH2]]; [done|].
      rewrite Nat.iter_succ. split; [by apply Sound_dispatch|].
      by rewrite dispatch_entries. }
    destruct Hk as [Hk1 Hk2].
    apply (dispatch_persistent el event handler kv); try done. by rewrite Hk2.
Qed.

(** The theorem at [add(btn, 'click', onSave)] called twice, and two
    clicks. *)
Lemma repeated_add_example :
  let w2 := interact_all [Add (VObj 1) "click" 7 default_options;
                 Add (VObj 1) "click" 7 default_options] empty in
  registrations 1 "click" 7 w2 = 1
  /\ count_occ Nat.eq_dec (fst (dispatch 1 "click" w2)) 7 = 1
  /\ count_occ Nat.eq_dec
       (fst (dispatch 1 "click" (snd (dispatch 1 "click" w2)))) 7 = 1.
Proof.
  destruct (repeated_add_keeps_one_registration [Add (VObj 1) "click" 7 default_options]
              1 "click" 7 default_options default_options)
    as (_ & Hone & _ & _ & _ & _ & _ & _ & Hrep).
  destruct (repeated_add_keeps_one_registration [] 1 "click" 7
              default_options default_options)
    as (_ & _ & _ & _ & _ & _ & _ & Hfirst & _).
  split; [exact Hone|]. split; [exact (Hfirst eq_refl)|].
  exact (Hrep ("click_0", mkEntry "click" 7 default_options) 1
           (or_introl eq_refl) eq_refl eq_refl).
Defined.

(** A handler registered with [{ once: true }] is not invoked by the second
    event: the browser removed the listener after the first one, while its
    entry is still recorded. *)
Lemma once_handler_is_silent_on_second_event :
  let once := OptFlags false true false in
  let w2 := interact_all [Add (VObj 1) "click" 7 once;
                          Add (VObj 1) "click" 7 once] empty in
  let d1 := dispatch 1 "click" w2 in
  let d2 := dispatch 1 "click" (snd d1) in
  fst d1 = [7]
  /\ registrations 1 "click" 7 (snd d1) = 1
  /\ count_occ Nat.eq_dec (fst d2) 7 = 0.
Proof. vm_compute. repeat split; reflexivity. Qed.

(** *** Bulk removal

    Claim C6. In every page reached through the manager,
    [removeAllForElement(el)] returns normally, leaves no entry and no
    listener on [el] (each listener is removed with the options recorded
    for it) and touches no other node; from then on, as long as [add] is
    not called on [el] again, no event dispatched at [el] invokes any
    handler; and on a node without entries it changes neither the entries
    nor the listeners of the page (nothing at all when the node is not
    tracked). *)
Theorem removeAllForElement_silences_the_element acts el :
  let w := interact_all acts empty in
  let w' := page_of (removeAllForElement (VObj el) w) in
  removeAllForElement (VObj el) w = Ok w'
  /\ elementListeners w' !! el = None
  /\ listeners_of el w' = []
  /\ (forall el', el' <> el ->
        entries_of el' w' = entries_of el' w
        /\ listeners_of el' w' = listeners_of el' w)
  /\ (forall acts' type,
        forallb (fun a => negb (adds_to el a)) acts' = true ->
        fst (dispatch el type (interact_all acts' w')) = [])
  /\ (entries_of el w = [] ->
        nodes w' = nodes w /\ listenerId w' = listenerId w
        /\ forall el', entries_of el' w' = entries_of el' w)
  /\ (elementListeners w !! el = None -> w' = w).
Proof.
  intros w w'.
  pose proof (Sound_reachable acts : Sound w) as HS.
  destruct (removeAllForElement_node el w) as (Hok & _ & Hother & HE & HL & Hnone).
  fold w' in Hok, Hother, HE, HL, Hnone.
  rewrite (detach_all_nil _ _ _ (HS el)) in HL.
  repeat split; try done.
  - by apply Hother.
  - by apply Hother.
  - intros acts' type Hall. unfold dispatch. cbn [fst].
    by rewrite (silent_interact_all el acts' w' Hall HL).
  - by apply removeAllForElement_untracked.
  - by apply removeAllForElement_untracked.
  - by apply removeAllForElement_untracked.
Qed.

(** The theorem at a node with two listeners, next to another node. *)
Lemma removeAllForElement_example :
  let w := interact_all [Add (VObj 1) "click" 7 default_options;
                Add (VObj 1) "keydown" 8 (OptFlags true false true);
                Add (VObj 2) "click" 7 default_options] empty in
  let w' := page_of (removeAllForElement (VObj 1) w) in
  fst (dispatch 1 "click" w) = [7]
  /\ fst (dispatch 1 "click" w') = []
  /\ fst (dispatch 1 "keydown" (interact_all [Dispatch 2 "click"] w')) = []
  /\ fst (dispatch 2 "click" w') = [7]
  /\ page_of (removeAllForElement (VObj 1) w') = w'.
Proof.
  destruct (removeAllForElement_silences_the_element
              [Add (VObj 1) "click" 7 default_options;
               Add (VObj 1) "keydown" 8 (OptFlags true false true);
               Add (VObj 2) "click" 7 default_options] 1)
    as (_ & Hgone & _ & _ & Hsilent & _ & _).
  destruct (removeAllForElement_silences_the_element
              [Add (VObj 1) "click" 7 default_options;
               Add (VObj 1) "keydown" 8 (OptFlags true false true);
               Add (VObj 2) "click" 7 default_options;
               RemoveAllForElement (VObj 1)] 1)
    as (_ & _ & _ & _ & _ & _ & Hnoop).
  split; [reflexivity|].
  split; [exact (Hsilent [] "click" eq_refl)|].
  split; [exact (Hsilent [Dispatch 2 "click"] "keydown" eq_refl)|].
  split; [reflexivity|].
  exact (Hnoop Hgone).
Defined.

(** *** Absent elements

    Claim C8. With [null] or [undefined] for the element, [add], [remove]
    and [removeAllForElement] return normally and leave the page,
    manager included, exactly as it was. *)
Theorem absent_element_is_ignored element event handler options w :
  element = VNull \/ element = VUndef ->
  add element event handler options w = Ok w
  /\ remove element event handler w = Ok w
  /\ removeAllForElement element w = Ok w.
Proof. intros [->| ->]; done. Qed.

(** The theorem at [null], on a page with one listener. *)
Lemma absent_element_example :
  let w := interact_all [Add (VObj 1) "click" 7 default_options] empty in
  add VNull "click" 7 default_options w = Ok w
  /\ remove VNull "click" 7 w = Ok w
  /\ removeAllForElement VNull w = Ok w.
Proof.
  exact (absent_element_is_ignored VNull "click" 7 default_options
           (interact_all [Add (VObj 1) "click" 7 default_options] empty)
           (or_introl eq_refl)).
Defined.

End EventsProofs.

(** ** More on the lazy library loader *)

Module LoaderMore.
Import JS LazyLoader LoaderProofs LoaderRuns.

(** *** What a completed script load leaves behind

    When loadScript is called for a library that is neither present,
    cached nor loading, the returned promise is pending. On the load event
    of the injected script it is fulfilled with what checkFn then reads
    from window (true when there is no checkFn), isLoaded(name) becomes
    true and the name is no longer tracked as loading. A later loadScript
    for the name whose presence check misses is fulfilled with that same
    cached value and injects no script. *)
Theorem script_load_caches_its_handle name url checkFn w win' url' checkFn' :
  check_hit checkFn w = false ->
  loadedLibraries w !! name = None ->
  loadingPromises w !! name = None ->
  let r := loadScript name url checkFn w in
  let w1 := script_onload (length (head w)) (set_window (fun _ => win') (snd r)) in
  let lib := match checkFn with Some f => f win' | None => VBool true end in
  outcome (snd r) (fst r) = OPending
  /\ outcome w1 (fst r) = OFulfilled lib
  /\ loaded name w1 = true
  /\ loadingPromises w1 !! name = None
  /\ (check_hit checkFn' w1 = false ->
      let r2 := loadScript name url' checkFn' w1 in
      head (snd r2) = head w1 /\ outcome (snd r2) (fst r2) = OFulfilled lib).
Proof.
  intros Hc Hv Hq. rewrite (loadScript_fresh _ _ _ _ Hc Hv Hq). cbn [fst snd].
  set (n := length (promises w)).
  set (script := mkScript (to_string url) name url checkFn n false).
  set (w0 := mkWorld _ _ _ _ _ _).
  set (lib := match checkFn with Some f => f win' | None => VBool true end).
  assert (Hq0 : promises w0 !! n = Some Pending).
  { subst w0 n. simpl. apply lookup_app_l_Some. by rewrite list_lookup_middle. }
  assert (Hp0 : promises w0 !! S n = Some (Adopts n)).
  { subst w0 n. simpl. rewrite list_lookup_middle; [done|].
    rewrite length_app. simpl. lia. }
  split.
  { rewrite (outcome_adopts _ _ _ Hp0) by lia. by apply outcome_pending. }
  assert (Hs : head (set_window (fun _ => win') w0) !! length (head w) = Some script).
  { subst w0. simpl. by rewrite list_lookup_middle. }
  unfold script_onload. rewrite Hs. cbn [sc_fired script].
  set (w1 := set_head _ _).
  assert (Hlib : loadedLibraries w1 !! name = Some lib).
  { subst w1. simpl. by rewrite lookup_insert_eq. }
  assert (Hq1 : promises w1 !! n = Some (Fulfilled lib)).
  { subst w1. simpl. unfold settle. simpl.
    change (((promises w ++ [Pending]) ++ [Adopts n]) !! n) with (promises w0 !! n).
    rewrite Hq0. apply list_lookup_insert_eq.
    apply lookup_lt_Some in Hq0. exact Hq0. }
  assert (Hp1 : promises w1 !! S n = Some (Adopts n)).
  { subst w1. simpl. unfold settle. simpl.
    change (((promises w ++ [Pending]) ++ [Adopts n]) !! n) with (promises w0 !! n).
    rewrite Hq0. rewrite list_lookup_insert_ne by lia. exact Hp0. }
  split.
  { rewrite (outcome_adopts _ _ _ Hp1) by lia. by apply outcome_fulfilled. }
  split.
  { unfold loaded, isLoaded. simpl. rewrite lookup_insert_eq.
    apply bool_decide_eq_true. eauto. }
  split.
  { subst w1. simpl. apply lookup_delete_eq. }
  intros Hc'. rewrite (loadScript_cached _ _ _ _ _ Hc' Hlib). cbn [fst snd].
  split; [done|].
  rewrite (outcome_adopts _ _ (length (promises w1))); [| |lia].
  - apply outcome_fulfilled. simpl. apply lookup_app_l_Some.
    by rewrite list_lookup_middle.
  - simpl. rewrite list_lookup_middle; [done|]. rewrite length_app. simpl. lia.
Qed.

Lemma script_load_example :
  let w := init ∅ in
  let r := loadScript (VStr "jspdf") (VStr "/assets/js/jspdf.umd.min.js")
             (Some (read "jspdf")) w in
  let w1 := script_onload 0 (set_window (fun _ => {[ "jspdf" := VObj 3 ]}) (snd r)) in
  let r2 := loadScript (VStr "jspdf") (VStr "/assets/js/jspdf.umd.min.js") None w1 in
  outcome w1 (fst r) = OFulfilled (VObj 3)
  /\ head (snd r2) = head w1
  /\ outcome (snd r2) (fst r2) = OFulfilled (VObj 3).
Proof.
  assert (Hc : check_hit (Some (read "jspdf")) (init ∅) = false) by reflexivity.
  destruct (script_load_caches_its_handle (VStr "jspdf")
              (VStr "/assets/js/jspdf.umd.min.js") (Some (read "jspdf")) (init ∅)
              {[ "jspdf" := VObj 3 ]} (VStr "/assets/js/jspdf.umd.min.js") None
              Hc eq_refl eq_refl) as (_ & H2 & _ & _ & H5).
  destruct (H5 eq_refl) as [H6 H7].
  exact (conj H2 (conj H6 H7)).
Defined.

(** *** Tracked promises are pending

    In every state reached from a fresh loader, a promise stored in
    loadingPromises under a name is still pending, and it is the promise
    of a script element injected for that name whose load or error event
    has not fired yet. *)
Theorem tracked_promise_is_pending win acts name q :
  let w := run acts (init win) in
  loadingPromises w !! name = Some q ->
  outcome w q = OPending
  /\ exists i sc, head w !! i = Some sc /\ sc_promise sc = q
                  /\ sc_name sc = name /\ sc_fired sc = false.
Proof.
  intros w Hq. pose proof (Inv_reachable win acts : Inv w) as HI.
  destruct (inv_tracked _ HI _ _ Hq) as (i & sc & Hi & Hp & Hn & Hf).
  split; [|by exists i, sc].
  apply outcome_pending. rewrite <- Hp. by eapply inv_script_pending.
Qed.

Lemma tracked_promise_example :
  let w := run [Request (VStr "x") (VStr "x.js") None;
                Request (VStr "y") (VStr "y.js") None;
                ScriptFailed 0] (init ∅) in
  loadingPromises w !! VStr "y" = Some 2 /\ outcome w 2 = OPending.
Proof.
  assert (H : loadingPromises
                (run [Request (VStr "x") (VStr "x.js") None;
                      Request (VStr "y") (VStr "y.js") None;
                      ScriptFailed 0] (init ∅)) !! VStr "y" = Some 2)
    by (vm_compute; reflexivity).
  destruct (tracked_promise_is_pending ∅ _ (VStr "y") 2 H) as [H1 _].
  exact (conj H H1).
Defined.

(** *** Scripts in flight stay tracked *)

Lemma Tracked_same w w' :
  head w' = head w -> loadingPromises w' = loadingPromises w ->
  Tracked w -> Tracked w'.
Proof. intros Hh Hl HT i sc. rewrite Hh, Hl. apply HT. Qed.

Lemma loadScript_parts name url checkFn w :
  let w' := snd (loadScript name url checkFn w) in
  (head w' = head w /\ loadingPromises w' = loadingPromises w)
  \/ (loadingPromises w !! name = None
      /\ head w' = head w ++ [mkScript (to_string url) name url checkFn
                                       (length (promises w)) false]
      /\ loadingPromises w' = <[name := length (promises w)]> (loadingPromises w)).
Proof.
  unfold loadScript, async_return, alloc.
  destruct (check_hit checkFn w); [by left|].
  destruct (loadedLibraries w !! name); [by left|].
  destruct (loadingPromises w !! name); [by left|]. right. done.
Qed.

Lemma Tracked_loadScript name url checkFn w :
  Tracked w -> Tracked (snd (loadScript name url checkFn w)).
Proof.
  intros HT. destruct (loadScript_parts name url checkFn w) as [[Hh Hl]|(Hq & Hh & Hl)].
  - by apply (Tracked_same w).
  - intros i sc. rewrite Hh, Hl. intros Hi Hf.
    apply lookup_app_Some in Hi as [Hi|[_ Hi]].
    + specialize (HT i sc Hi Hf).
      rewrite lookup_insert_ne; [done|]. intros Heq. rewrite Heq in Hq. congruence.
    + apply list_lookup_singleton_Some in Hi as [_ <-]. simpl.
      by rewrite lookup_insert_eq.
Qed.

Lemma Tracked_fire i sc st w :
  Inv w -> Tracked w -> head w !! i = Some sc -> sc_fired sc = false ->
  Tracked (set_head (fun h => <[i := fire sc]> h)
             (set_promises (settle (sc_promise sc) st)
                (set_loading (fun m => delete (sc_name sc) m) w))).
Proof.
  intros HI HT Hi Hf j sc'. simpl. intros Hj Hf'.
  apply list_lookup_insert_Some in Hj as [(_ & <- & _)|[Hne Hj]]; [done|].
  pose proof (HT j sc' Hj Hf') as Hj'.
  rewrite lookup_delete_ne; [done|]. intros Heq.
  pose proof (HT i sc Hi Hf) as Hi'. rewrite Heq in Hi'.
  apply Hne. eapply (inv_script_inj _ HI); eauto. congruence.
Qed.

Lemma Tracked_invoke m w :
  m <> MUnload -> Tracked w -> Tracked (snd (invoke m w)).
Proof.
  intros Hm HT. destruct m; simpl; try done;
    try (at_loadScript Tracked_loadScript w; auto).
  unfold preload. case_bool_decide; by apply (Tracked_same w).
Qed.

Lemma Tracked_step a w :
  Inv w -> calls_unload a w = false -> Tracked w -> Tracked (step a w).
Proof.
  intros HI Hu HT. destruct a; simpl in *; try done.
  - by apply Tracked_loadScript.
  - unfold preload. case_bool_decide; by apply (Tracked_same w).
  - unfold script_onload. destruct (head w !! i) as [sc|] eqn:Hi; [|done].
    destruct (sc_fired sc) eqn:Hf; [done|].
    eapply Tracked_same;
      [..|exact (Tracked_fire i sc (Fulfilled VUndef) w HI HT Hi Hf)]; reflexivity.
  - unfold script_onerror. destruct (head w !! i) as [sc|] eqn:Hi; [|done].
    destruct (sc_fired sc) eqn:Hf; [done|].
    eapply Tracked_same;
      [..|exact (Tracked_fire i sc (Fulfilled VUndef) w HI HT Hi Hf)]; reflexivity.
  - unfold run_task, task_call in *. destruct (queue w !! k) as [t|]; [|done].
    unfold preload_load.
    destruct (function_property (to_string (task_method t))) as [m|];
      [|by apply (Tracked_same w)].
    assert (Hm : m <> MUnload) by (intros ->; discriminate).
    pose proof (Tracked_invoke m (set_queue (fun q => delete k q) w) Hm
                  (Tracked_same w _ eq_refl eq_refl HT)) as HT'.
    destruct (invoke m _) as [[p|v|e] w']; simpl in *; try done.
Qed.

Lemma Tracked_run acts : forall w,
  Inv w -> Tracked w -> unload_free acts w = true -> Tracked (run acts w).
Proof.
  induction acts as [|a acts IH]; intros w HI HT Hfree; [done|].
  simpl in Hfree. apply andb_true_iff in Hfree as [Ha Hrest].
  apply negb_true_iff in Ha. simpl. apply IH; [by apply Inv_step| |done].
  by apply Tracked_step.
Qed.

(** *** One script in flight per name

    As long as unload is never called (directly or through preload), at
    most one injected script element per library name is waiting for its
    load or error event, however the requests, preloads and script events
    interleave. *)
Theorem one_script_in_flight_per_name win acts i j sc sc' :
  let w := run acts (init win) in
  unload_free acts (init win) = true ->
  head w !! i = Some sc -> head w !! j = Some sc' ->
  sc_fired sc = false -> sc_fired sc' = false ->
  sc_name sc = sc_name sc' ->
  i = j.
Proof.
  intros w Hfree Hi Hj Hf Hf' Hn.
  assert (HT : Tracked w).
  { apply Tracked_run; [apply Inv_init| |done]. intros k s Hk. discriminate. }
  pose proof (Inv_reachable win acts : Inv w) as HI.
  pose proof (HT i sc Hi Hf) as H1. pose proof (HT j sc' Hj Hf') as H2.
  rewrite Hn in H1. eapply (inv_script_inj _ HI); eauto. congruence.
Qed.

Lemma one_script_in_flight_example :
  let acts := [Request (VStr "x") (VStr "x.js") None;
               Preload (VStr "loadOpenCV");
               Request (VStr "x") (VStr "other.js") None;
               RunTask 0;
               Request (VStr "opencv") (VStr "cdn/opencv.js") None] in
  let opencv := mkScript "/assets/js/opencv.js" (VStr "opencv")
                         (VStr "/assets/js/opencv.js") (Some (read "cv")) 3 false in
  unload_free acts (init ∅) = true
  /\ length (head (run acts (init ∅))) = 2
  /\ head (run acts (init ∅)) !! 1 = Some opencv
  /\ 1 = 1.
Proof.
  set (acts := [Request (VStr "x") (VStr "x.js") None;
                Preload (VStr "loadOpenCV");
                Request (VStr "x") (VStr "other.js") None;
                RunTask 0;
                Request (VStr "opencv") (VStr "cdn/opencv.js") None]).
  assert (Hfree : unload_free acts (init ∅) = true) by (vm_compute; reflexivity).
  assert (H1 : head (run acts (init ∅)) !! 1
               = Some (mkScript "/assets/js/opencv.js" (VStr "opencv")
                         (VStr "/assets/js/opencv.js") (Some (read "cv")) 3 false))
    by (vm_compute; reflexivity).
  split; [exact Hfree|]. split; [vm_compute; reflexivity|]. split; [exact H1|].
  exact (one_script_in_flight_per_name ∅ acts 1 1 _ _ Hfree H1 H1
           eq_refl eq_refl eq_refl).
Defined.

(** *** Unloading during a load

    unload(name) while the script for name is still loading makes the next
    loadScript(name, ...) inject a second script element beside the first
    and track its promise. When the first script then fails, its error
    handler deletes the loadingPromises entry that now belongs to the
    second script, which is still in flight, so one more request injects a
    third script. *)
Theorem unload_in_flight_allows_a_second_script i sc url' checkFn' w :
  head w !! i = Some sc -> sc_fired sc = false ->
  loadedLibraries w !! sc_name sc = None ->
  check_hit checkFn' w = false ->
  let name := sc_name sc in
  let r := loadScript name url' checkFn' (unload name w) in
  let second := mkScript (to_string url') name url' checkFn'
                         (length (promises w)) false in
  head (snd r) = head w ++ [second]
  /\ head (snd r) !! i = Some sc
  /\ loadingPromises (snd r) !! name = Some (length (promises w))
  /\ let w2 := script_onerror i (snd r) in
     head w2 !! length (head w) = Some second
     /\ loadingPromises w2 !! name = None
     /\ length (head (snd (loadScript name url' checkFn' w2))) = length (head w) + 2.
Proof.
  intros Hi Hf Hv Hc name r second. subst r.
  assert (Hv1 : loadedLibraries (unload name w) !! name = None)
    by (simpl; apply lookup_delete_eq).
  assert (Hq1 : loadingPromises (unload name w) !! name = None)
    by (simpl; apply lookup_delete_eq).
  rewrite (loadScript_fresh name url' checkFn' (unload name w) Hc Hv1 Hq1).
  cbn [fst snd]. set (w1 := mkWorld _ _ _ _ _ _).
  assert (Hi1 : head w1 !! i = Some sc) by (simpl; by apply lookup_app_l_Some).
  split; [done|]. split; [done|].
  split; [simpl; by rewrite lookup_insert_eq|].
  unfold script_onerror. rewrite Hi1, Hf.
  set (w2 := set_head _ _).
  assert (Hlen : i < length (head w)) by (by apply lookup_lt_Some in Hi).
  split.
  { subst w2. simpl. rewrite list_lookup_insert_ne by lia.
    by rewrite list_lookup_middle. }
  assert (Hq2 : loadingPromises w2 !! name = None)
    by (subst w2; simpl; apply lookup_delete_eq).
  split; [done|].
  assert (Hv2 : loadedLibraries w2 !! name = None)
    by (subst w2; simpl; apply lookup_delete_eq).
  rewrite (loadScript_fresh name url' checkFn' w2 Hc Hv2 Hq2). simpl.
  rewrite length_app, length_insert, length_app. simpl. lia.
Qed.

Lemma unload_in_flight_second_script_example :
  let w := run [Request (VStr "x") (VStr "x.js") None] (init ∅) in
  let r := loadScript (VStr "x") (VStr "x.js") None (unload (VStr "x") w) in
  length (head (snd r)) = 2
  /\ loadingPromises (script_onerror 0 (snd r)) !! VStr "x" = None.
Proof.
  assert (Hi : head (run [Request (VStr "x") (VStr "x.js") None] (init ∅)) !! 0
               = Some (mkScript "x.js" (VStr "x") (VStr "x.js") None 0 false))
    by (vm_compute; reflexivity).
  destruct (unload_in_flight_allows_a_second_script 0 _ (VStr "x.js") None _
              Hi eq_refl eq_refl eq_refl) as (H1 & _ & _ & _ & H5 & _).
  split; [exact (f_equal length H1)|exact H5].
Defined.

(** *** [preload] of a method of the class *)

Lemma outcome_catches w p q :
  promises w !! p = Some (Catches q) -> q < p ->
  outcome w p = match outcome w q with
                | ORejected _ => OFulfilled VUndef
                | o => o
                end.
Proof.
  intros H Hlt. rewrite (outcome_entry _ _ _ H). cbn [resolve_entry].
  rewrite lookup_take_lt by done. reflexivity.
Qed.

Lemma run_preloaded_task key w :
  run_task (length (queue w)) (preload (VStr key) w) = preload_load (VStr key) w.
Proof.
  unfold preload, run_task.
  destruct (bool_decide (is_Some (window w !! "requestIdleCallback"))); simpl;
    rewrite list_lookup_middle by done; simpl; unfold set_queue; simpl;
    rewrite (delete_middle (queue w) []), app_nil_r; by destruct w.
Qed.

(** *** Preloading a library

    preload(key), for key the name of a loader method whose library is
    neither present, cached nor loading, schedules one callback; when it
    runs it injects the library's script and chains a catch to the load,
    and the callback is gone from the queue. If the script fails, the
    load's promise is rejected with the load error while the chained
    promise is fulfilled with undefined and the library is not loaded; if
    the script loads, the chained promise is fulfilled with the library
    and the library is loaded. *)
Theorem preload_swallows_the_outcome_of_the_load key m name url checkFn w :
  function_property key = Some m ->
  method_request m = Some (name, url, checkFn) ->
  check_hit checkFn w = false ->
  loadedLibraries w !! name = None ->
  loadingPromises w !! name = None ->
  let n := length (promises w) in
  let script := mkScript (to_string url) name url checkFn n false in
  exists w2,
    run_task (length (queue w)) (preload (VStr key) w) = Normal w2
    /\ head w2 = head w ++ [script]
    /\ queue w2 = queue w
    /\ promises w2 !! S (S n) = Some (Catches (S n))
    /\ (let w3 := script_onerror (length (head w)) w2 in
        outcome w3 (S n) = ORejected (load_error name url)
        /\ outcome w3 (S (S n)) = OFulfilled VUndef
        /\ loaded name w3 = false)
    /\ (let w3 := script_onload (length (head w)) w2 in
        let lib := match checkFn with
                   | Some f => f (window w)
                   | None => VBool true
                   end in
        outcome w3 (S (S n)) = OFulfilled lib /\ loaded name w3 = true).
Proof.
  intros Hkey Hm Hc Hv Hq n script.
  rewrite run_preloaded_task. unfold preload_load. simpl. rewrite Hkey.
  destruct (invoke_request m name url checkFn w Hm) as [Hs [p Hp]].
  destruct (invoke m w) as [r w1] eqn:Hinv. simpl in Hs, Hp. subst r w1.
  rewrite (loadScript_fresh _ _ _ _ Hc Hv Hq) in *. cbn [fst snd] in *.
  assert (Hpn : p = S n).
  { revert Hinv. destruct m; simpl; try discriminate;
      unfold loadOpenCV, loadFaceAPI, loadTesseract, loadJsPDF;
      injection Hm as <- <- <-; rewrite (loadScript_fresh _ _ _ _ Hc Hv Hq);
      by intros [= <-]. }
  subst p. eexists. split; [reflexivity|].
  set (w2 := set_promises _ _).
  assert (Hq2 : promises w2 !! n = Some Pending).
  { subst w2 n. simpl. do 2 apply lookup_app_l_Some. by rewrite list_lookup_middle. }
  assert (Hp2 : promises w2 !! S n = Some (Adopts n)).
  { subst w2 n. simpl. apply lookup_app_l_Some. rewrite list_lookup_middle; [done|].
    rewrite length_app. simpl. lia. }
  assert (Hc2 : promises w2 !! S (S n) = Some (Catches (S n))).
  { subst w2 n. simpl. rewrite list_lookup_middle; [done|].
    rewrite !length_app. simpl. lia. }
  assert (Hs2 : head w2 !! length (head w) = Some script).
  { subst w2. simpl. by rewrite list_lookup_middle. }
  split; [done|]. split; [done|]. split; [done|].
  assert (Hsettled : forall st, st <> Pending ->
            let ps := settle n st (promises w2) in
            ps !! n = Some st /\ ps !! S n = Some (Adopts n)
            /\ ps !! S (S n) = Some (Catches (S n))).
  { intros st _. unfold settle. rewrite Hq2.
    split; [apply list_lookup_insert_eq; by apply lookup_lt_Some in Hq2|].
    by rewrite !list_lookup_insert_ne by lia. }
  split.
  - unfold script_onerror. rewrite Hs2. cbn [sc_fired script].
    set (w3 := set_head _ _).
    destruct (Hsettled (Rejected (load_error name url)) ltac:(done)) as (H1 & H2 & H3).
    assert (Ho : outcome w3 (S n) = ORejected (load_error name url)).
    { rewrite (outcome_adopts w3 (S n) n H2) by lia. by apply outcome_rejected. }
    split; [exact Ho|]. split.
    + rewrite (outcome_catches w3 (S (S n)) (S n) H3) by lia. by rewrite Ho.
    + unfold loaded, isLoaded. simpl. rewrite Hv. by apply bool_decide_eq_false_2, is_Some_None.
  - unfold script_onload. rewrite Hs2. cbn [sc_fired script sc_checkFn sc_name].
    set (lib := match checkFn with Some f => f (window w2) | None => VBool true end).
    set (w3 := set_head _ _).
    destruct (Hsettled (Fulfilled lib) ltac:(done)) as (H1 & H2 & H3).
    assert (Ho : outcome w3 (S n) = OFulfilled lib).
    { rewrite (outcome_adopts w3 (S n) n H2) by lia. by apply outcome_fulfilled. }
    split.
    + rewrite (outcome_catches w3 (S (S n)) (S n) H3) by lia. by rewrite Ho.
    + unfold loaded, isLoaded. simpl. rewrite lookup_insert_eq.
      apply bool_decide_eq_true. eauto.
Qed.

Lemma preload_swallows_example :
  exists w2,
    run_task 0 (preload (VStr "loadTesseract") (init ∅)) = Normal w2
    /\ length (head w2) = 1
    /\ outcome (script_onerror 0 w2) 2 = OFulfilled VUndef.
Proof.
  assert (Hc : check_hit (Some (read "Tesseract")) (init ∅) = false) by reflexivity.
  destruct (preload_swallows_the_outcome_of_the_load "loadTesseract" MLoadTesseract
              _ _ _ (init ∅) eq_refl eq_refl Hc eq_refl eq_refl)
    as (w2 & H1 & H2 & _ & _ & (_ & H5 & _) & _).
  exists w2. split; [exact H1|]. split; [exact (f_equal length H2)|exact H5].
Defined.

(** *** Preloading a method that loads nothing

    preload(key), for key the name of a function property that is not a
    loader (constructor, preload, isLoaded, unload or an inherited
    function), schedules a callback that throws when it runs, since what
    the method returns has no catch. No script is injected and no promise
    is created; only with 'unload' is the loadingPromises entry under
    undefined deleted before the throw. *)
Theorem preload_of_a_plain_method_throws key m w :
  function_property key = Some m ->
  method_request m = None ->
  exists err w',
    run_task (length (queue w)) (preload (VStr key) w) = Throw err w'
    /\ head w' = head w
    /\ promises w' = promises w
    /\ loadingPromises w' = match m with
                            | MUnload => delete VUndef (loadingPromises w)
                            | _ => loadingPromises w
                            end.
Proof.
  intros Hkey Hm. rewrite run_preloaded_task. unfold preload_load. simpl.
  rewrite Hkey.
  destruct m; try discriminate; simpl; try (by eexists _, _).
  unfold preload. case_bool_decide; by eexists _, _.
Qed.

Lemma preload_of_a_plain_method_example :
  let w := run [Request (VStr "x") (VStr "x.js") None] (init ∅) in
  exists err w',
    run_task 0 (preload (VStr "isLoaded") w) = Throw err w' /\ head w' = head w.
Proof.
  destruct (preload_of_a_plain_method_throws "isLoaded" MIsLoaded
              (run [Request (VStr "x") (VStr "x.js") None] (init ∅))
              eq_refl eq_refl) as (err & w' & H1 & H2 & _).
  exists err, w'. exact (conj H1 H2).
Defined.

End LoaderMore.

(** ** More on the event listener manager *)

Module EventsMore.
Import JS Events EventsProofs.

(** *** [remove] *)

Lemma unregistered_not_attached n E L type handler :
  SoundAt n E L -> existsb (matches type handler) E = false ->
  List.filter (fun l => of_type type l && Nat.eqb (li_callback l) handler) L = [].
Proof.
  intros HS Hno. apply filter_none.
  destruct (existsb _ L) eqn:He; [|done].
  apply existsb_exists in He as (l & Hl & Hm).
  apply of_type_callback_inv in Hm as [Ht Hc].
  destruct (listeners_backed _ _ _ HS l Hl) as (kv & Hkv & Hb).
  apply backs_inv in Hb as (He & Hh & _).
  pose proof (existsb_false_In _ _ kv Hno Hkv) as Hm.
  rewrite <- Ht, <- Hc, <- He, <- Hh in Hm. by rewrite matches_intro in Hm.
Qed.

Lemma filter_hits_other event handler event' handler' (E : list (string * Entry)) :
  (event', handler') <> (event, handler) ->
  List.filter (matches event' handler')
              (List.filter (fun kv => negb (matches event handler kv)) E)
  = List.filter (matches event' handler') E.
Proof.
  intros Hne. rewrite filter_filter_and. apply filter_ext. intros kv.
  destruct (matches event' handler' kv) eqn:Hm'; [|by rewrite andb_false_r].
  destruct (matches event handler kv) eqn:Hm; [|done].
  apply matches_inv in Hm as [<- <-]. apply matches_inv in Hm' as [<- <-]. done.
Qed.

Lemma filter_listeners_other type handler type' handler' (hits : list (string * Entry))
    (L : list Listener) :
  (type', handler') <> (type, handler) ->
  List.filter (fun l => of_type type' l && Nat.eqb (li_callback l) handler')
    (List.filter
       (fun l => forallb
                   (fun kv => negb (same_listener type handler
                                      (opt_capture (en_options (snd kv))) l))
                   hits) L)
  = List.filter (fun l => of_type type' l && Nat.eqb (li_callback l) handler') L.
Proof.
  intros Hne. rewrite filter_filter_and. apply filter_ext. intros l.
  destruct (of_type type' l && Nat.eqb (li_callback l) handler') eqn:Hm';
    [|by rewrite andb_false_r].
  rewrite andb_true_r. apply forallb_forall. intros kv _.
  destruct (same_listener _ _ _ l) eqn:Hs; [|done].
  apply same_listener_inv in Hs as (Ht & Hc & _).
  apply of_type_callback_inv in Hm' as [Ht' Hc']. congruence.
Qed.

(** *** Removing one handler

    In every state reached through the manager, remove(element, event,
    handler) returns normally; afterwards the element has no entry for
    that event and handler and an event of that type at the element no
    longer invokes the handler. The entries and attached listeners for
    every other event or handler of the element, and everything of every
    other element, are as before. *)
Theorem remove_unregisters_only_that_handler acts el event handler :
  let w := interact_all acts empty in
  let w' := page_of (remove (VObj el) event handler w) in
  remove (VObj el) event handler w = Ok w'
  /\ registrations el event handler w' = 0
  /\ count_occ Nat.eq_dec (fst (dispatch el event w')) handler = 0
  /\ (forall event' handler',
        (event', handler') <> (event, handler) ->
        registrations el event' handler' w' = registrations el event' handler' w
        /\ attachments el event' handler' w' = attachments el event' handler' w)
  /\ (forall el', el' <> el ->
        entries_of el' w' = entries_of el' w
        /\ listeners_of el' w' = listeners_of el' w).
Proof.
  intros w w'. pose proof (Sound_reachable acts : Sound w) as HS.
  pose proof (Sound_remove (VObj el) event handler w HS : Sound w') as HS'.
  destruct (remove_node el event handler w) as (Hok & _ & Hother & HE & HL).
  fold w' in Hok, Hother, HE, HL.
  rewrite delete_hits in HE by apply (keys_nodup _ _ _ (HS el)).
  assert (Hzero : registrations el event handler w' = 0).
  { unfold registrations. rewrite HE, filter_filter_and.
    rewrite filter_none; [done|].
    destruct (existsb _ _) eqn:He; [|done].
    apply existsb_exists in He as (kv & _ & Hkv).
    by destruct (matches event handler kv). }
  split; [exact Hok|]. split; [exact Hzero|]. split; [|split; [|exact Hother]].
  - rewrite dispatch_count. unfold attachments.
    rewrite (unregistered_not_attached _ _ _ event handler (HS' el)); [done|].
    destruct (existsb (matches event handler) (entries_of el w')) eqn:He; [|done].
    rewrite (registered_once el event handler w' HS' He) in Hzero. discriminate.
  - intros event' handler' Hne. unfold registrations, attachments.
    rewrite HE, HL. split.
    + by rewrite filter_hits_other.
    + by rewrite filter_listeners_other.
Qed.

Lemma remove_example :
  let w := interact_all [Add (VObj 1) "click" 7 default_options;
                         Add (VObj 1) "click" 8 default_options;
                         Add (VObj 2) "click" 7 default_options] empty in
  let w' := page_of (remove (VObj 1) "click" 7 w) in
  registrations 1 "click" 7 w' = 0
  /\ attachments 1 "click" 8 w' = attachments 1 "click" 8 w
  /\ listeners_of 2 w' = listeners_of 2 w.
Proof.
  destruct (remove_unregisters_only_that_handler
              [Add (VObj 1) "click" 7 default_options;
               Add (VObj 1) "click" 8 default_options;
               Add (VObj 2) "click" 7 default_options] 1 "click" 7)
    as (_ & H1 & _ & H2 & H3).
  assert (Hne : ("click", 8) <> ("click", 7)) by discriminate.
  assert (Hel : 2 <> 1) by lia.
  split; [exact H1|]. split; [exact (proj2 (H2 "click" 8 Hne))|].
  exact (proj2 (H3 2 Hel)).
Defined.

(** *** Adding and removing again

    In every state reached through the manager, if the handler is not
    registered for the event on the element, then after add the next event
    of that type invokes the handler exactly once, and a following remove
    gives every element back exactly the entries and the attached
    listeners it had before the add. *)
Theorem add_then_remove_restores_the_node acts el event handler options :
  let w := interact_all acts empty in
  registrations el event handler w = 0 ->
  let w1 := page_of (add (VObj el) event handler options w) in
  let w2 := page_of (remove (VObj el) event handler w1) in
  count_occ Nat.eq_dec (fst (dispatch el event w1)) handler = 1
  /\ forall el', entries_of el' w2 = entries_of el' w
                 /\ listeners_of el' w2 = listeners_of el' w.
Proof.
  intros w Hzero w1 w2. pose proof (Sound_reachable acts : Sound w) as HS.
  pose proof (Sound_add (VObj el) event handler options w HS : Sound w1) as HS1.
  assert (Hno : existsb (matches event handler) (entries_of el w) = false).
  { destruct (existsb (matches event handler) (entries_of el w)) eqn:Hm; [|done].
    rewrite (registered_once el event handler w HS Hm) in Hzero. discriminate. }
  destruct (add_node el event handler options w) as (_ & _ & Hother & Hel).
  fold w1 in Hother, Hel. rewrite Hno in Hel. destruct Hel as [HE1 HL1].
  rewrite (map_set_fresh _ _ _ (fresh_key _ _ _ event (HS el))) in HE1.
  rewrite (not_attached _ _ _ _ _ (opt_capture options) (HS el) Hno) in HL1.
  set (kv0 := (key_of event (listenerId w), mkEntry event handler options)) in HE1.
  set (l0 := mkListener event handler (opt_capture options) (opt_once options)
                        (opt_passive options)) in HL1.
  assert (Hm0 : matches event handler kv0 = true).
  { unfold matches. simpl. by rewrite String.eqb_refl, Nat.eqb_refl. }
  split.
  { apply (dispatch_attached el handler l0 w1 HS1); [|done].
    rewrite HL1. apply in_app_iff. simpl. auto. }
  destruct (remove_node el event handler w1) as (_ & _ & Hother2 & HE2 & HL2).
  fold w2 in Hother2, HE2, HL2.
  rewrite delete_hits in HE2 by apply (keys_nodup _ _ _ (HS1 el)).
  intros el'. destruct (decide (el' = el)) as [->|Hne].
  - split.
    + rewrite HE2, HE1, filter_app. simpl. rewrite Hm0. simpl. rewrite app_nil_r.
      rewrite <- (filter_all (entries_of el w)) at 2.
      apply filter_ext_in. intros kv Hkv.
      by rewrite (existsb_false_In _ _ kv Hno Hkv).
    + rewrite HL2, HE1, HL1, !filter_app. simpl. rewrite Hm0.
      rewrite (filter_none _ _ Hno). simpl.
      assert (Hs0 : same_listener event handler (opt_capture options) l0 = true).
      { unfold same_listener. simpl.
        by rewrite String.eqb_refl, Nat.eqb_refl, Bool.eqb_reflx. }
      rewrite Hs0. simpl. rewrite app_nil_r.
      rewrite <- (filter_all (listeners_of el w)) at 2.
      apply filter_ext_in. intros l Hl.
      pose proof (not_attached _ _ _ _ _ (opt_capture options) (HS el) Hno) as Hna.
      by rewrite (existsb_false_In _ _ l Hna Hl).
  - destruct (Hother2 el' Hne) as [-> ->]. by apply Hother.
Qed.

Lemma add_then_remove_example :
  let w := interact_all [Add (VObj 1) "click" 8 default_options] empty in
  let w2 := page_of (remove (VObj 1) "keydown" 7
                       (page_of (add (VObj 1) "keydown" 7 (OptBool true) w))) in
  entries_of 1 w2 = entries_of 1 w /\ listeners_of 1 w2 = listeners_of 1 w.
Proof.
  destruct (add_then_remove_restores_the_node
              [Add (VObj 1) "click" 8 default_options] 1 "keydown" 7 (OptBool true)
              eq_refl) as [_ H].
  exact (H 1).
Defined.

(** *** A listener that ran once

    A handler added with the once option is invoked by the first event,
    after which the browser has detached it but the manager still holds
    its entry. A second add of the same event and handler is therefore
    taken for a duplicate: it attaches nothing and the next event does not
    invoke the handler. Only after remove does add attach the handler
    again. *)
Theorem once_entry_blocks_a_new_registration acts el event handler options options' :
  let w := interact_all acts empty in
  registrations el event handler w = 0 ->
  opt_once options = true ->
  let w1 := page_of (add (VObj el) event handler options w) in
  let w2 := snd (dispatch el event w1) in
  let w3 := page_of (add (VObj el) event handler options' w2) in
  let w4 := page_of (add (VObj el) event handler options'
                       (page_of (remove (VObj el) event handler w3))) in
  count_occ Nat.eq_dec (fst (dispatch el event w1)) handler = 1
  /\ registrations el event handler w3 = 1
  /\ nodes w3 = nodes w2
  /\ count_occ Nat.eq_dec (fst (dispatch el event w3)) handler = 0
  /\ count_occ Nat.eq_dec (fst (dispatch el event w4)) handler = 1.
Proof.
  intros w Hzero Honce w1 w2 w3 w4.
  pose proof (Sound_reachable acts : Sound w) as HS.
  pose proof (Sound_add (VObj el) event handler options w HS : Sound w1) as HS1.
  pose proof (Sound_dispatch el event w1 HS1 : Sound w2) as HS2.
  pose proof (Sound_add (VObj el) event handler options' w2 HS2 : Sound w3) as HS3.
  assert (Hno : existsb (matches event handler) (entries_of el w) = false).
  { destruct (existsb (matches event handler) (entries_of el w)) eqn:Hm; [|done].
    rewrite (registered_once el event handler w HS Hm) in Hzero. discriminate. }
  destruct (add_node el event handler options w) as (_ & _ & _ & Hel).
  fold w1 in Hel. rewrite Hno in Hel. destruct Hel as [_ HL1].
  rewrite (not_attached _ _ _ _ _ (opt_capture options) (HS el) Hno) in HL1.
  set (l0 := mkListener event handler (opt_capture options) (opt_once options)
                        (opt_passive options)) in HL1.
  split.
  { apply (dispatch_attached el handler l0 w1 HS1); [|done].
    rewrite HL1. apply in_app_iff. simpl. auto. }
  pose proof (registered_after_add el event handler options w
              : existsb _ (entries_of el w1) = true) as Hreg1.
  assert (Hreg2 : existsb (matches event handler) (entries_of el w2) = true)
    by exact Hreg1.
  destruct (add_node el event handler options' w2) as (_ & _ & _ & Hel).
  fold w3 in Hel. rewrite Hreg2 in Hel. destruct Hel as [He3 Hn3].
  assert (Hreg3 : existsb (matches event handler) (entries_of el w3) = true).
  { unfold entries_of. rewrite He3. exact Hreg2. }
  split; [by apply registered_once|]. split; [exact Hn3|].
  split.
  - rewrite dispatch_count. unfold attachments, listeners_of. rewrite Hn3.
    fold (listeners_of el w2).
    destruct (dispatch_node el event w1) as (_ & _ & _ & HL2). fold w2 in HL2.
    rewrite HL2, HL1, filter_app, filter_app.
    rewrite (filter_filter_and
               (fun l => of_type event l && Nat.eqb (li_callback l) handler)).
    rewrite (filter_none _ (listeners_of el w)).
    + assert (Ht0 : of_type event l0 = true) by apply String.eqb_refl.
      simpl. rewrite Ht0, Honce. done.
    + destruct (existsb _ (listeners_of el w)) eqn:He; [|done].
      apply existsb_exists in He as (l & Hl & Hm).
      apply andb_true_iff in Hm as [_ Hm].
      pose proof (unregistered_not_attached _ _ _ event handler (HS el) Hno) as Hna.
      assert (Hin : In l (List.filter
                (fun l => of_type event l && Nat.eqb (li_callback l) handler)
                (listeners_of el w))) by (apply filter_In; auto).
      rewrite Hna in Hin. destruct Hin.
  - subst w4. set (w3' := page_of (remove (VObj el) event handler w3)).
    set (w4 := page_of (add (VObj el) event handler options' w3')).
    pose proof (Sound_remove (VObj el) event handler w3 HS3 : Sound w3') as HS3'.
    pose proof (Sound_add (VObj el) event handler options' w3' HS3' : Sound w4) as HS4.
    assert (Hno3 : existsb (matches event handler) (entries_of el w3') = false).
    { destruct (remove_node el event handler w3) as (_ & _ & _ & HE & _).
      fold w3' in HE.
      rewrite delete_hits in HE by apply (keys_nodup _ _ _ (HS3 el)).
      rewrite HE. match goal with |- ?x = false => destruct x eqn:He; [|done] end.
      apply existsb_exists in He as (kv & Hkv & Hm).
      apply filter_In in Hkv as [_ Hkv]. by rewrite Hm in Hkv. }
    destruct (add_node el event handler options' w3') as (_ & _ & _ & Hel).
    fold w4 in Hel. rewrite Hno3 in Hel. destruct Hel as [_ HL4].
    rewrite (not_attached _ _ _ _ _ (opt_capture options') (HS3' el) Hno3) in HL4.
    set (l1 := mkListener event handler (opt_capture options') (opt_once options')
                          (opt_passive options')) in HL4.
    apply (dispatch_attached el handler l1 w4 HS4); [|done].
    rewrite HL4. apply in_app_iff. simpl. auto.
Qed.

Lemma once_entry_example :
  let once := OptFlags false true false in
  let w1 := page_of (add (VObj 1) "click" 7 once empty) in
  let w3 := page_of (add (VObj 1) "click" 7 default_options
                       (snd (dispatch 1 "click" w1))) in
  count_occ Nat.eq_dec (fst (dispatch 1 "click" w1)) 7 = 1
  /\ count_occ Nat.eq_dec (fst (dispatch 1 "click" w3)) 7 = 0.
Proof.
  destruct (once_entry_blocks_a_new_registration [] 1 "click" 7
              (OptFlags false true false) default_options eq_refl eq_refl)
    as (H1 & _ & _ & H4 & _).
  exact (conj H1 H4).
Defined.

(** *** Handlers that run are registered

    In every state reached through the manager on a document without other
    listeners, a handler that an event at an element invokes has exactly
    one entry for that event among the element's tracked listeners:
    removals never leave a listener attached behind. *)
Theorem invoked_handlers_are_registered acts el type handler :
  let w := interact_all acts empty in
  In handler (fst (dispatch el type w)) ->
  registrations el type handler w = 1.
Proof.
  intros w Hin. pose proof (Sound_reachable acts : Sound w) as HS.
  assert (Hpos : 1 <= count_occ Nat.eq_dec (fst (dispatch el type w)) handler).
  { apply (count_occ_In Nat.eq_dec) in Hin. lia. }
  rewrite dispatch_count in Hpos. unfold attachments in Hpos.
  destruct (List.filter _ (listeners_of el w)) as [|l ls] eqn:Hf;
    [simpl in Hpos; lia|].
  assert (Hl : In l (List.filter
            (fun l => of_type type l && Nat.eqb (li_callback l) handler)
            (listeners_of el w))) by (rewrite Hf; simpl; auto).
  apply filter_In in Hl as [Hl Hm].
  apply of_type_callback_inv in Hm as [Ht Hc].
  destruct (listeners_backed _ _ _ (HS el) l Hl) as (kv & Hkv & Hb).
  apply backs_inv in Hb as (He & Hh & _).
  apply registered_once; [done|].
  apply existsb_exists. exists kv. split; [done|].
  rewrite <- Ht, <- Hc, <- He, <- Hh. apply matches_intro.
Qed.

Lemma invoked_handlers_example :
  let w := interact_all [Add (VObj 1) "click" 7 default_options;
                         Dispatch 1 "click"] empty in
  In 7 (fst (dispatch 1 "click" w)) /\ registrations 1 "click" 7 w = 1.
Proof.
  assert (H : In 7 (fst (dispatch 1 "click"
                (interact_all [Add (VObj 1) "click" 7 default_options;
                               Dispatch 1 "click"] empty))))
    by (vm_compute; auto).
  exact (conj H (invoked_handlers_are_registered _ 1 "click" 7 H)).
Defined.

End EventsMore.

(** ** Properties of the DOM query cache *)

Module DomCacheProofs.
Import JS DomCache.

Lemma getElementById_cached id v s :
  cache s !! id = Some v -> getElementById id s = (v, s).
Proof.
  intros H. unfold getElementById, cache_get.
  rewrite bool_decide_eq_true_2 by eauto. by rewrite H.
Qed.

Lemma querySelector_cached selector v s :
  cache s !! selector = Some v -> querySelector selector s = Returned v s.
Proof.
  intros H. unfold querySelector, cache_get.
  rewrite bool_decide_eq_true_2 by eauto. by rewrite H.
Qed.

Lemma getElementById_missing id s :
  cache s !! id = None ->
  getElementById id s
  = (doc_getElementById (document s) (to_string id),
     set_cache (fun m => <[id := doc_getElementById (document s) (to_string id)]> m) s).
Proof.
  intros H. unfold getElementById, cache_get.
  rewrite bool_decide_eq_false_2 by (rewrite H; apply is_Some_None).
  simpl. by rewrite lookup_insert_eq.
Qed.

Lemma querySelector_missing selector s :
  cache s !! selector = None ->
  querySelector selector s
  = match doc_querySelector (document s) (to_string selector) with
    | Some v => Returned v (set_cache (fun m => <[selector := v]> m) s)
    | None => SyntaxError s
    end.
Proof.
  intros H. unfold querySelector, cache_get.
  rewrite bool_decide_eq_false_2 by (rewrite H; apply is_Some_None).
  destruct (doc_querySelector _ _); [|done].
  simpl. by rewrite lookup_insert_eq.
Qed.

Lemma getElementById_stores id s :
  cache (snd (getElementById id s)) !! id = Some (fst (getElementById id s)).
Proof.
  destruct (cache s !! id) as [v|] eqn:H.
  - by rewrite (getElementById_cached _ _ _ H).
  - rewrite (getElementById_missing _ _ H). simpl. by rewrite lookup_insert_eq.
Qed.

Lemma kept_step key v a s :
  keeps key a = true -> cache s !! key = Some v -> cache (step a s) !! key = Some v.
Proof.
  intros Hk Hv. destruct a as [id|sel|sel|k| |doc]; cbn [step keeps] in *; try done.
  - destruct (cache s !! id) as [u|] eqn:H.
    + by rewrite (getElementById_cached _ _ _ H).
    + rewrite (getElementById_missing _ _ H). simpl.
      rewrite lookup_insert_ne; [done|]. congruence.
  - destruct (cache s !! sel) as [u|] eqn:H.
    + by rewrite (querySelector_cached _ _ _ H).
    + rewrite (querySelector_missing _ _ H).
      destruct (doc_querySelector _ _); [|done]. simpl.
      rewrite lookup_insert_ne; [done|]. congruence.
  - unfold querySelectorAll. by destruct (doc_querySelectorAll _ _).
  - unfold clear. apply andb_true_iff in Hk as [Ht Hne]. rewrite Ht. simpl.
    apply negb_true_iff, bool_decide_eq_false in Hne.
    by rewrite lookup_delete_ne.
Qed.

Lemma kept_run key v acts : forall s,
  forallb (keeps key) acts = true -> cache s !! key = Some v ->
  cache (run acts s) !! key = Some v.
Proof.
  induction acts as [|a acts IH]; intros s Hall Hv; [done|].
  simpl in Hall. apply andb_true_iff in Hall as [Ha Hall].
  simpl. apply IH; [done|]. by apply kept_step.
Qed.

(** *** A cached answer is repeated, whatever the document has become

    Once getElementById(id) has answered, the same answer (null included)
    is returned by every later getElementById(id) and querySelector(id)
    without asking the document, whatever lookups, changes of the document
    and clear(key) calls with another non-empty key happen in between;
    only clear(id), clear() without a key, or invalidate() end this. *)
Theorem cached_answer_outlives_the_document id acts s :
  forallb (keeps id) acts = true ->
  let first := getElementById id s in
  let later := run acts (snd first) in
  getElementById id later = (fst first, later)
  /\ querySelector id later = Returned (fst first) later.
Proof.
  intros Hall first later.
  pose proof (kept_run id (fst first) acts (snd first) Hall
                (getElementById_stores id s)) as H.
  split; [by apply getElementById_cached|by apply querySelector_cached].
Qed.

Lemma cached_answer_example :
  let before := mkDocument (fun _ => VNull) (fun _ => Some VNull) (fun _ => Some []) in
  let after := mkDocument (fun _ => VObj 4) (fun _ => Some (VObj 4))
                          (fun _ => Some [VObj 4]) in
  let first := getElementById (VStr "menu") (fresh before) in
  let later := run [Mutate after; GetElementById (VStr "other"); Clear (VStr "other")]
                   (snd first) in
  fst first = VNull /\ getElementById (VStr "menu") later = (VNull, later).
Proof.
  split; [reflexivity|].
  exact (proj1 (cached_answer_outlives_the_document (VStr "menu")
                  [Mutate (mkDocument (fun _ => VObj 4) (fun _ => Some (VObj 4))
                                      (fun _ => Some [VObj 4]));
                   GetElementById (VStr "other"); Clear (VStr "other")]
                  (fresh (mkDocument (fun _ => VNull) (fun _ => Some VNull)
                                     (fun _ => Some [])))
                  eq_refl)).
Defined.

(** *** Clearing makes the next lookup ask the document

    After clear(key) or invalidate(), the next getElementById(key) or
    querySelector(key) gives what the document answers now. clear with a
    falsy key (undefined, null, the empty string, 0) empties the whole
    cache; with any other key it removes that entry only and keeps all
    others. *)
Theorem cleared_key_is_looked_up_again key s :
  let doc := document s in
  fst (getElementById key (clear key s)) = doc_getElementById doc (to_string key)
  /\ answer_of (querySelector key (clear key s)) = doc_querySelector doc (to_string key)
  /\ fst (getElementById key (invalidate s)) = doc_getElementById doc (to_string key)
  /\ (truthy key = false -> cache (clear key s) = ∅)
  /\ (truthy key = true ->
      forall other, other <> key -> cache (clear key s) !! other = cache s !! other).
Proof.
  intros doc.
  assert (Hgone : cache (clear key s) !! key = None).
  { unfold clear. destruct (truthy key); simpl; [apply lookup_delete_eq|done]. }
  split; [by rewrite (getElementById_missing _ _ Hgone); unfold clear; destruct (truthy key)|].
  split.
  { rewrite (querySelector_missing _ _ Hgone).
    replace (document (clear key s)) with doc by (by unfold clear; destruct (truthy key)).
    by destruct (doc_querySelector doc _). }
  split; [by rewrite getElementById_missing|].
  split.
  - intros Ht. unfold clear. by rewrite Ht.
  - intros Ht other Hne. unfold clear. rewrite Ht. simpl. by rewrite lookup_delete_ne.
Qed.

Lemma cleared_key_example :
  let doc := mkDocument (fun _ => VObj 1) (fun _ => Some (VObj 2)) (fun _ => Some []) in
  let s := run [GetElementById (VStr "a"); GetElementById (VStr "b")] (fresh doc) in
  cache (clear (VStr "") s) = ∅
  /\ cache (clear (VStr "a") s) !! VStr "b" = cache s !! VStr "b".
Proof.
  destruct (cleared_key_is_looked_up_again (VStr "")
              (run [GetElementById (VStr "a"); GetElementById (VStr "b")]
                   (fresh (mkDocument (fun _ => VObj 1) (fun _ => Some (VObj 2))
                                      (fun _ => Some [])))))
    as (_ & _ & _ & H4 & _).
  destruct (cleared_key_is_looked_up_again (VStr "a")
              (run [GetElementById (VStr "a"); GetElementById (VStr "b")]
                   (fresh (mkDocument (fun _ => VObj 1) (fun _ => Some (VObj 2))
                                      (fun _ => Some [])))))
    as (_ & _ & _ & _ & H5).
  assert (Hne : VStr "b" <> VStr "a") by discriminate.
  exact (conj (H4 eq_refl) (H5 eq_refl (VStr "b") Hne)).
Defined.

(** *** One map for ids and selectors

    Ids and selectors share one map. For a key not yet cached,
    getElementById(key) after querySelector(key) returns the element the
    selector matched, not the element with that id (unless the selector
    was invalid and querySelector threw); and querySelector(key) after
    getElementById(key) returns what the id lookup gave, without asking
    the document and without throwing. *)
Theorem ids_and_selectors_share_entries key s :
  cache s !! key = None ->
  let doc := document s in
  fst (getElementById key (state_after (querySelector key s)))
  = default (doc_getElementById doc (to_string key))
            (doc_querySelector doc (to_string key))
  /\ querySelector key (snd (getElementById key s))
     = Returned (doc_getElementById doc (to_string key)) (snd (getElementById key s)).
Proof.
  intros H doc. split.
  - rewrite (querySelector_missing _ _ H). fold doc.
    destruct (doc_querySelector doc (to_string key)) as [v|]; cbn [state_after default].
    + rewrite (getElementById_cached key v); [done|]. simpl. apply lookup_insert_eq.
    + by rewrite (getElementById_missing _ _ H).
  - rewrite (querySelector_cached key _ _ (getElementById_stores key s)).
    by rewrite (getElementById_missing _ _ H).
Qed.

Lemma ids_and_selectors_example :
  let doc := mkDocument (fun id => if String.eqb id "nav" then VObj 1 else VNull)
                        (fun sel => if String.eqb sel "nav" then Some (VObj 2)
                                    else Some VNull)
                        (fun _ => Some []) in
  fst (getElementById (VStr "nav")
         (state_after (querySelector (VStr "nav") (fresh doc))))
  = VObj 2.
Proof.
  exact (proj1 (ids_and_selectors_share_entries (VStr "nav")
                  (fresh (mkDocument
                            (fun id => if String.eqb id "nav" then VObj 1 else VNull)
                            (fun sel => if String.eqb sel "nav" then Some (VObj 2)
                                        else Some VNull)
                            (fun _ => Some [])))
                  eq_refl)).
Defined.

(** *** The cache is transparent for id lookups on an unchanged document *)

Lemma Agrees_step doc a s :
  by_id_only a = true -> Agrees doc s -> Agrees doc (step a s).
Proof.
  intros Ha [Hd Hc].
  destruct a as [id|sel|sel|k| |d]; cbn [step by_id_only] in *; try done.
  - destruct (cache s !! id) as [u|] eqn:H.
    + by rewrite (getElementById_cached _ _ _ H).
    + rewrite (getElementById_missing _ _ H). split; [done|]. simpl.
      intros key v Hv. destruct (decide (id = key)) as [->|Hne].
      * rewrite lookup_insert_eq in Hv. injection Hv as <-. by rewrite Hd.
      * rewrite lookup_insert_ne in Hv by done. by apply Hc.
  - unfold querySelectorAll. by destruct (doc_querySelectorAll _ _).
  - split; [by unfold clear; destruct (truthy k)|].
    intros key v. unfold clear. destruct (truthy k); simpl; [|done].
    intros Hv. apply lookup_delete_Some in Hv as [_ Hv]. by apply Hc.
Qed.

(** *** The cache is transparent for id lookups on an unchanged document

    On a document that does not change, a cache used only through
    getElementById, querySelectorAll, clear and invalidate answers
    getElementById(id) exactly as document.getElementById(id) would. *)
Theorem id_lookups_agree_with_an_unchanged_document doc acts id :
  forallb by_id_only acts = true ->
  fst (getElementById id (run acts (fresh doc))) = doc_getElementById doc (to_string id).
Proof.
  intros Hall.
  assert (HA : Agrees doc (run acts (fresh doc))).
  { assert (Hgen : forall s, Agrees doc s -> forallb by_id_only acts = true ->
                             Agrees doc (run acts s)).
    { clear Hall. induction acts as [|a acts IH]; intros s HA Hall; [done|].
      simpl in Hall. apply andb_true_iff in Hall as [Ha Hall].
      simpl. apply IH; [|done]. by apply Agrees_step. }
    apply Hgen; [|done]. split; [done|]. intros key v Hv. discriminate. }
  destruct HA as [Hd Hc].
  destruct (cache (run acts (fresh doc)) !! id) as [v|] eqn:H.
  - rewrite (getElementById_cached _ _ _ H). simpl. by apply Hc.
  - rewrite (getElementById_missing _ _ H). simpl. by rewrite Hd.
Qed.

Lemma id_lookups_example :
  let doc := mkDocument (fun id => if String.eqb id "nav" then VObj 1 else VNull)
                        (fun _ => Some VNull) (fun _ => Some []) in
  fst (getElementById (VStr "nav")
         (run [GetElementById (VStr "nav"); Clear VUndef; GetElementById (VStr "x")]
              (fresh doc)))
  = VObj 1.
Proof.
  exact (id_lookups_agree_with_an_unchanged_document
           (mkDocument (fun id => if String.eqb id "nav" then VObj 1 else VNull)
                       (fun _ => Some VNull) (fun _ => Some []))
           [GetElementById (VStr "nav"); Clear VUndef; GetElementById (VStr "x")]
           (VStr "nav") eq_refl).
Defined.

End DomCacheProofs.

(** ** Properties of throttle, debounce and the animation-frame throttle *)

Module TimingProofs.
Import JS Timing.

(** *** Timers *)

Lemma ripe_single {A} id (t : Timer A) (l : Loop A) (r : Timer A) :
  timers l = [t] -> ripe id l = Some r ->
  r = t /\ tm_id t = id /\ tm_due t <= now l.
Proof.
  intros Ht. unfold ripe. rewrite Ht. simpl.
  destruct (Nat.eqb (tm_id t) id && Nat.leb (tm_due t) (now l)) eqn:H; [|done].
  intros [= <-]. apply andb_true_iff in H as [H1 H2].
  apply Nat.eqb_eq in H1. apply Nat.leb_le in H2. done.
Qed.

Lemma ripe_none {A} id (l : Loop A) : timers l = [] -> ripe id l = None.
Proof. intros Ht. unfold ripe. by rewrite Ht. Qed.

Lemma clearTimeout_single {A} (t : Timer A) (l : Loop A) :
  timers l = [t] -> timers (clearTimeout (tm_id t) l) = [].
Proof. intros Ht. simpl. rewrite Ht. simpl. by rewrite Nat.eqb_refl. Qed.

(** *** [throttle] *)

Lemma ThrottleInv_fresh limit : ThrottleInv limit throttle.
Proof.
  split; simpl.
  - intros i c1 c2 H. discriminate.
  - intros c [].
  - split; [done|]. intros c H. discriminate.
Qed.

Lemma spaced_snoc limit calls c :
  spaced limit calls ->
  (forall c0, list.last calls = Some c0 -> threw c0 = false ->
              at_time c0 + limit <= at_time c) ->
  spaced limit (calls ++ [c]).
Proof.
  intros Hs Hlast i c1 c2 H1 H2 Hf.
  destruct (decide (S i < length calls)) as [Hlt|Hge].
  - rewrite lookup_app_l in H1 by lia. rewrite lookup_app_l in H2 by lia.
    by eapply Hs.
  - apply lookup_lt_Some in H2 as Hlen. rewrite length_app in Hlen. simpl in Hlen.
    assert (S i = length calls) as Hi by lia.
    rewrite Hi, list_lookup_middle in H2 by done. injection H2 as <-.
    rewrite lookup_app_l in H1 by lia.
    apply Hlast; [|done]. rewrite last_lookup, <- Hi. exact H1.
Qed.

Lemma throttled_open fails limit this args s :
  ThrottleInv limit s -> inThrottle s <> Some true ->
  ThrottleInv limit (state_of (throttled fails limit this args s)).
Proof.
  intros [Hs Hp Ht] Hopen.
  assert (Hidle : timers (th_loop s) = []
                  /\ forall c, list.last (th_calls s) = Some c -> threw c = false ->
                               at_time c + limit <= now (th_loop s)).
  { destruct (inThrottle s) as [[|]|]; done. }
  destruct Hidle as [Ht0 Ht1].
  set (call := mkInvocation (now (th_loop s)) this args (fails args)).
  assert (Hs' : spaced limit (th_calls s ++ [call])) by (by apply spaced_snoc).
  assert (Hp' : forall c, In c (th_calls s ++ [call]) -> at_time c <= now (th_loop s)).
  { intros c Hc. apply in_app_iff in Hc as [Hc|[<-|[]]]; [by apply Hp|done]. }
  assert (Hres : state_of (throttled fails limit this args s)
                 = if fails args
                   then mkThrottle (inThrottle s) (th_loop s) (th_calls s ++ [call])
                   else mkThrottle (Some true)
                          (snd (setTimeout tt limit (th_loop s)))
                          (th_calls s ++ [call])).
  { unfold throttled. destruct (inThrottle s) as [[|]|]; try done;
      by destruct (fails args). }
  rewrite Hres. destruct (fails args) eqn:Hfail; split; cbn; try done.
  - assert (Hend : timers (th_loop s) = []
                   /\ forall c, list.last (th_calls s ++ [call]) = Some c ->
                                threw c = false ->
                                at_time c + limit <= now (th_loop s)).
    { split; [done|]. intros c. rewrite last_snoc. intros [= <-]. cbn. congruence. }
    destruct (inThrottle s) as [[|]|]; done.
  - exists call, (S (issued (th_loop s))). rewrite last_snoc, Ht0. done.
Qed.

Lemma ThrottleInv_step fails limit a s :
  ThrottleInv limit s -> ThrottleInv limit (throttle_step fails limit a s).
Proof.
  intros HI. destruct a as [this args|id|dt]; cbn [throttle_step].
  - destruct (decide (inThrottle s = Some true)) as [Hin|Hopen].
    + unfold throttled. by rewrite Hin.
    + by apply throttled_open.
  - destruct HI as [Hs Hp Ht].
    unfold throttle_timer.
 destruct (ripe id (th_loop s)) as [r|] eqn:Hr; [|by split].
    destruct (inThrottle s) as [[|]|] eqn:Hin.
    + destruct Ht as (c & id0 & Hl & Hf & Htm).
      destruct (ripe_single _ _ _ _ Htm Hr) as (-> & Hid & Hdue). simpl in Hid, Hdue.
      subst id0. split; cbn; try done.
      rewrite Htm. simpl. rewrite Nat.eqb_refl. split; [done|].
      intros c' Hc' _. rewrite Hl in Hc'. by injection Hc' as <-.
    + destruct Ht as [Ht0 _]. by rewrite (ripe_none _ _ Ht0) in Hr.
    + destruct Ht as [Ht0 _]. by rewrite (ripe_none _ _ Ht0) in Hr.
  - destruct HI as [Hs Hp Ht]. split; cbn; [done| |].
    + intros c Hc. specialize (Hp c Hc). lia.
    + destruct (inThrottle s) as [[|]|]; try done;
        (destruct Ht as [Ht0 Ht1]; split; [done|];
         intros c Hc Hf; specialize (Ht1 c Hc Hf); lia).
Qed.

Lemma ThrottleInv_run fails limit acts : forall s,
  ThrottleInv limit s -> ThrottleInv limit (throttle_run fails limit acts s).
Proof.
  induction acts as [|a acts IH]; intros s HI; [done|].
  simpl. apply IH. by apply ThrottleInv_step.
Qed.

(** *** Throttled calls are spaced

    However the throttled function is called and its timers fire, a call
    of func that returned is followed by the next call of func no sooner
    than limit milliseconds later (a call of func that threw starts no
    interval), and at any time at most one timer is waiting: exactly one
    while inThrottle is true, none otherwise. *)
Theorem throttle_spaces_the_calls fails limit acts :
  let s := throttle_run fails limit acts throttle in
  spaced limit (th_calls s)
  /\ length (timers (th_loop s))
     = match inThrottle s with Some true => 1 | _ => 0 end.
Proof.
  intros s.
  destruct (ThrottleInv_run fails limit acts throttle (ThrottleInv_fresh limit))
    as [Hs _ Ht]. fold s in Hs, Ht.
  split; [exact Hs|].
  destruct (inThrottle s) as [[|]|].
  - by destruct Ht as (c & id & _ & _ & ->).
  - by destruct Ht as [-> _].
  - by destruct Ht as [-> _].
Qed.

(** *** [debounce] *)

Lemma DebounceInv_fresh : DebounceInv debounce.
Proof. done. Qed.

Lemma cleared_handle_is_empty s :
  DebounceInv s -> timers (clear_handle (timeout s) (db_loop s)) = [].
Proof.
  unfold DebounceInv. destruct (timeout s) as [| |id]; try done.
  intros (due & c & Ht). simpl. rewrite Ht. simpl. by rewrite Nat.eqb_refl.
Qed.

Lemma debounced_state fails wait immediate this args s :
  DebounceInv s ->
  let id := S (issued (db_loop s)) in
  let l := mkLoop (now (db_loop s))
                  [mkTimer id (now (db_loop s) + wait) (this, args)] id in
  state_of (debounced fails wait immediate this args s)
  = mkDebounce (HId id) l
      (if immediate && no_handle (timeout s)
       then db_calls s ++ [mkInvocation (now (db_loop s)) this args (fails args)]
       else db_calls s).
Proof.
  intros HI id l. unfold debounced.
  pose proof (cleared_handle_is_empty s HI) as Hc.
  assert (Hl : setTimeout (this, args) wait (clear_handle (timeout s) (db_loop s))
               = (id, l)).
  { unfold setTimeout. rewrite Hc.
    by destruct (timeout s) as [| |i]; simpl. }
  rewrite Hl. destruct (immediate && no_handle (timeout s)); [|done].
  by destruct (fails args).
Qed.

Lemma debounce_timer_state fails immediate id s :
  DebounceInv s ->
  state_of (debounce_timer fails immediate id s) = s
  \/ exists due this args,
       timeout s = HId id
       /\ timers (db_loop s) = [mkTimer id due (this, args)]
       /\ due <= now (db_loop s)
       /\ state_of (debounce_timer fails immediate id s)
          = mkDebounce HNull (mkLoop (now (db_loop s)) [] (issued (db_loop s)))
              (if immediate then db_calls s
               else db_calls s
                    ++ [mkInvocation (now (db_loop s)) this args (fails args)]).
Proof.
  intros HI. unfold debounce_timer.
  destruct (ripe id (db_loop s)) as [r|] eqn:Hr; [|by left].
  unfold DebounceInv in HI. destruct (timeout s) as [| |id0] eqn:Hto;
    try (by rewrite (ripe_none _ _ HI) in Hr).
  destruct HI as (due & [this args] & Ht).
  destruct (ripe_single _ _ _ _ Ht Hr) as (-> & Hid & Hdue). simpl in Hid, Hdue.
  subst id0. right. exists due, this, args.
  split; [done|]. split; [done|]. split; [done|].
  assert (Hcl : clearTimeout id (db_loop s)
                = mkLoop (now (db_loop s)) [] (issued (db_loop s))).
  { unfold clearTimeout. rewrite Ht. simpl. by rewrite Nat.eqb_refl. }
  rewrite Hcl. destruct immediate; [done|]. simpl. by destruct (fails args).
Qed.

Lemma DebounceInv_step fails wait immediate a s :
  DebounceInv s -> DebounceInv (debounce_step fails wait immediate a s).
Proof.
  intros HI. destruct a as [this args|id|dt]; cbn [debounce_step].
  - rewrite (debounced_state _ _ _ _ _ _ HI). unfold DebounceInv. simpl. eauto.
  - destruct (debounce_timer_state fails immediate id s HI)
      as [->|(due & this & args & _ & _ & _ & ->)]; done.
  - exact HI.
Qed.

Lemma DebounceInv_run fails wait immediate acts : forall s,
  DebounceInv s -> DebounceInv (debounce_run fails wait immediate acts s).
Proof.
  induction acts as [|a acts IH]; intros s HI; [done|].
  simpl. apply IH. by apply DebounceInv_step.
Qed.

Lemma ticks_pass fails wait immediate dts : forall s,
  debounce_run fails wait immediate (map DTick dts) s
  = mkDebounce (timeout s)
      (mkLoop (now (db_loop s) + list_sum dts) (timers (db_loop s))
              (issued (db_loop s)))
      (db_calls s).
Proof.
  induction dts as [|dt dts IH]; intros s; simpl.
  - rewrite Nat.add_0_r. by destruct s as [? [] ?].
  - rewrite IH. simpl. unfold tick. simpl. by rewrite Nat.add_assoc.
Qed.

Lemma trailing_burst_is_silent fails wait burst : forall s,
  DebounceInv s -> forallb no_timer burst = true ->
  db_calls (debounce_run fails wait false burst s) = db_calls s.
Proof.
  induction burst as [|a burst IH]; intros s HI Hall; [done|].
  simpl in Hall. apply andb_true_iff in Hall as [Ha Hall].
  simpl. rewrite IH; [|by apply DebounceInv_step|done].
  by destruct a as [this args|id|dt].
Qed.

(** *** Trailing debounce

    Without the immediate flag, a burst of calls in which no timer fires
    invokes func not at all; after the last call exactly one timer is
    waiting, due wait milliseconds after that call, and every earlier
    timer has been cleared. Until that time has come the timer does not
    run; when it runs, func is invoked exactly once, with the this and the
    arguments of the last call, and the debounce is left with no timer and
    timeout null. *)
Theorem debounce_runs_once_after_the_last_call fails wait acts burst this args dts :
  forallb no_timer burst = true ->
  let s := debounce_run fails wait false acts debounce in
  let s1 := debounce_run fails wait false burst s in
  let s2 := state_of (debounced fails wait false this args s1) in
  let s3 := debounce_run fails wait false (map DTick dts) s2 in
  let id := S (issued (db_loop s1)) in
  db_calls s3 = db_calls s
  /\ timeout s3 = HId id
  /\ timers (db_loop s3) = [mkTimer id (now (db_loop s1) + wait) (this, args)]
  /\ (list_sum dts < wait -> debounce_timer fails false id s3 = Returns s3)
  /\ (wait <= list_sum dts ->
      let s4 := state_of (debounce_timer fails false id s3) in
      db_calls s4
      = db_calls s ++ [mkInvocation (now (db_loop s3)) this args (fails args)]
      /\ timers (db_loop s4) = []
      /\ timeout s4 = HNull).
Proof.
  intros Hall s s1 s2 s3 id.
  pose proof (DebounceInv_run fails wait false acts debounce DebounceInv_fresh
              : DebounceInv s) as HI.
  pose proof (DebounceInv_run fails wait false burst s HI : DebounceInv s1) as HI1.
  pose proof (trailing_burst_is_silent fails wait burst s HI Hall
              : db_calls s1 = db_calls s) as Hsil.
  assert (H2 : s2 = mkDebounce (HId id)
                      (mkLoop (now (db_loop s1))
                         [mkTimer id (now (db_loop s1) + wait) (this, args)] id)
                      (db_calls s)).
  { subst s2. rewrite (debounced_state _ _ _ _ _ _ HI1). simpl. by rewrite Hsil. }
  assert (H3 : s3 = mkDebounce (HId id)
                      (mkLoop (now (db_loop s1) + list_sum dts)
                         [mkTimer id (now (db_loop s1) + wait) (this, args)] id)
                      (db_calls s)).
  { subst s3. rewrite ticks_pass, H2. done. }
  rewrite H3. cbn [db_calls timeout db_loop timers now].
  split; [done|]. split; [done|]. split; [done|]. split.
  - intros Hlt. unfold debounce_timer, ripe. simpl. rewrite Nat.eqb_refl. simpl.
    assert (Nat.leb (now (db_loop s1) + wait) (now (db_loop s1) + list_sum dts) = false)
      as -> by (apply Nat.leb_gt; lia).
    done.
  - intros Hge. unfold debounce_timer, ripe. simpl. rewrite Nat.eqb_refl. simpl.
    assert (Nat.leb (now (db_loop s1) + wait) (now (db_loop s1) + list_sum dts) = true)
      as -> by (apply Nat.leb_le; lia).
    unfold clearTimeout. cbn [tm_captured timers tm_id now issued List.filter].
    rewrite Nat.eqb_refl. by destruct (fails args).
Qed.

Lemma debounce_trailing_example :
  let s3 := debounce_run (fun _ => false) 300 false
              [DCall VUndef [VStr "a"]; DTick 100; DCall VUndef [VStr "ab"];
               DTick 100; DCall VUndef [VStr "abc"]; DTick 300]
              debounce in
  db_calls s3 = []
  /\ db_calls (state_of (debounce_timer (fun _ => false) false 3 s3))
     = [mkInvocation 500 VUndef [VStr "abc"] false].
Proof.
  destruct (debounce_runs_once_after_the_last_call (fun _ => false) 300 []
              [DCall VUndef [VStr "a"]; DTick 100; DCall VUndef [VStr "ab"]; DTick 100]
              VUndef [VStr "abc"] [300] eq_refl) as (H1 & _ & _ & _ & H5).
  assert (Hw : 300 <= list_sum [300]) by (simpl; lia).
  destruct (H5 Hw) as (H6 & _ & _).
  exact (conj H1 H6).
Defined.

Lemma immediate_burst_is_silent fails wait burst : forall s,
  DebounceInv s -> no_handle (timeout s) = false ->
  forallb no_timer burst = true ->
  let s' := debounce_run fails wait true burst s in
  db_calls s' = db_calls s /\ no_handle (timeout s') = false.
Proof.
  induction burst as [|a burst IH]; intros s HI Hh Hall; [done|].
  simpl in Hall. apply andb_true_iff in Hall as [Ha Hall].
  simpl. destruct a as [this args|id|dt]; try done.
  - cbn [debounce_step].
    destruct (IH (state_of (debounced fails wait true this args s))) as [H1 H2];
      [by apply (DebounceInv_step fails wait true (DCall this args))
      |by rewrite (debounced_state _ _ _ _ _ _ HI)|done|].
    split; [|exact H2]. rewrite H1, (debounced_state _ _ _ _ _ _ HI). simpl.
    by rewrite Hh.
  - apply (IH (debounce_step fails wait true (DTick dt) s)); done.
Qed.

Lemma timer_ids_issued_step fails wait immediate a s :
  DebounceInv s ->
  Forall (fun t => tm_id t <= issued (db_loop s)) (timers (db_loop s)) ->
  Forall (fun t => tm_id t <= issued (db_loop (debounce_step fails wait immediate a s)))
         (timers (db_loop (debounce_step fails wait immediate a s))).
Proof.
  intros HI HP. destruct a as [this args|id|dt]; cbn [debounce_step].
  - rewrite (debounced_state _ _ _ _ _ _ HI). simpl. by repeat constructor.
  - destruct (debounce_timer_state fails immediate id s HI)
      as [->|(due & this & args & _ & _ & _ & ->)]; [done|]. simpl. constructor.
  - exact HP.
Qed.

Lemma timer_ids_issued_run fails wait immediate acts : forall s,
  DebounceInv s ->
  Forall (fun t => tm_id t <= issued (db_loop s)) (timers (db_loop s)) ->
  Forall (fun t => tm_id t <= issued (db_loop (debounce_run fails wait immediate acts s)))
         (timers (db_loop (debounce_run fails wait immediate acts s))).
Proof.
  induction acts as [|a acts IH]; intros s HI HP; [done|].
  simpl. apply IH; [by apply DebounceInv_step|by apply timer_ids_issued_step].
Qed.

(** *** Leading-edge debounce

    With the immediate flag, a call made while no timer is waiting invokes
    func at once with its own this and arguments and sets one timer, due
    wait milliseconds later. The further calls of the burst invoke
    nothing, and each of them restarts the timer: after it exactly one
    timer is waiting, newly issued, due wait milliseconds after that call.
    Until that time has come the timer does not run; when it runs it
    invokes nothing and leaves no timer and timeout null, and the next
    call invokes func again. *)
Theorem immediate_debounce_runs_on_the_leading_edge
    fails wait acts this args burst this' args' dts :
  let s := debounce_run fails wait true acts debounce in
  no_handle (timeout s) = true ->
  forallb no_timer burst = true ->
  let s1 := state_of (debounced fails wait true this args s) in
  let s2 := debounce_run fails wait true burst s1 in
  let s3 := state_of (debounced fails wait true this' args' s2) in
  let s4 := debounce_run fails wait true (map DTick dts) s3 in
  let first := mkInvocation (now (db_loop s)) this args (fails args) in
  let id := S (issued (db_loop s2)) in
  db_calls s2 = db_calls s ++ [first]
  /\ (forall id, db_calls (state_of (debounce_timer fails true id s2)) = db_calls s2)
  /\ (exists id0 due c,
        timers (db_loop s2) = [mkTimer id0 due c]
        /\ id0 <= issued (db_loop s2)
        /\ (due <= now (db_loop s2) ->
            no_handle (timeout (state_of (debounce_timer fails true id0 s2))) = true))
  /\ timeout s1 = HId (S (issued (db_loop s)))
  /\ timers (db_loop s1)
     = [mkTimer (S (issued (db_loop s))) (now (db_loop s) + wait) (this, args)]
  /\ db_calls s4 = db_calls s ++ [first]
  /\ timeout s4 = HId id
  /\ timers (db_loop s4) = [mkTimer id (now (db_loop s2) + wait) (this', args')]
  /\ (list_sum dts < wait -> debounce_timer fails true id s4 = Returns s4)
  /\ (wait <= list_sum dts ->
      let s5 := state_of (debounce_timer fails true id s4) in
      db_calls s5 = db_calls s ++ [first]
      /\ timers (db_loop s5) = []
      /\ timeout s5 = HNull
      /\ db_calls (state_of (debounced fails wait true this args s5))
         = db_calls s ++ [first; mkInvocation (now (db_loop s4)) this args (fails args)]).
Proof.
  intros s Hidle Hall s1 s2 s3 s4 first id.
  pose proof (DebounceInv_run fails wait true acts debounce DebounceInv_fresh
              : DebounceInv s) as HI.
  pose proof (DebounceInv_step fails wait true (DCall this args) s HI
              : DebounceInv s1) as HI1.
  assert (H1 : s1 = mkDebounce (HId (S (issued (db_loop s))))
                      (mkLoop (now (db_loop s))
                         [mkTimer (S (issued (db_loop s))) (now (db_loop s) + wait)
                                  (this, args)]
                         (S (issued (db_loop s))))
                      (db_calls s ++ [first])).
  { subst s1. rewrite (debounced_state _ _ _ _ _ _ HI). by rewrite Hidle. }
  assert (Hh1 : no_handle (timeout s1) = false) by (by rewrite H1).
  destruct (immediate_burst_is_silent fails wait burst s1 HI1 Hh1 Hall) as [Hc2 Hh2].
  fold s2 in Hc2, Hh2.
  assert (Hc2' : db_calls s2 = db_calls s ++ [first]) by (by rewrite Hc2, H1).
  pose proof (DebounceInv_run fails wait true burst s1 HI1 : DebounceInv s2) as HI2.
  assert (HP2 : Forall (fun t => tm_id t <= issued (db_loop s2)) (timers (db_loop s2))).
  { apply timer_ids_issued_run; [done|]. rewrite H1. simpl. by repeat constructor. }
  assert (H3 : s3 = mkDebounce (HId id)
                      (mkLoop (now (db_loop s2))
                         [mkTimer id (now (db_loop s2) + wait) (this', args')] id)
                      (db_calls s ++ [first])).
  { subst s3. rewrite (debounced_state _ _ _ _ _ _ HI2). rewrite Hh2. simpl.
    by rewrite Hc2'. }
  assert (H4 : s4 = mkDebounce (HId id)
                      (mkLoop (now (db_loop s2) + list_sum dts)
                         [mkTimer id (now (db_loop s2) + wait) (this', args')] id)
                      (db_calls s ++ [first])).
  { subst s4. rewrite ticks_pass, H3. done. }
  split; [done|]. split.
  { intros id'. destruct (debounce_timer_state fails true id' s2 HI2)
      as [->|(due & th & ar & _ & _ & _ & ->)]; done. }
  split.
  { unfold DebounceInv in HI2. destruct (timeout s2) as [| |id0] eqn:Hto; try done.
    destruct HI2 as (due & c & Ht). exists id0, due, c. split; [done|]. split.
    { rewrite Ht in HP2. by inversion HP2. }
    intros Hdue. unfold debounce_timer, ripe. rewrite Ht. simpl.
    rewrite Nat.eqb_refl. simpl.
    assert (Nat.leb due (now (db_loop s2)) = true) as -> by (by apply Nat.leb_le).
    done. }
  split; [by rewrite H1|]. split; [by rewrite H1|].
  rewrite H4. cbn [db_calls timeout db_loop timers now].
  split; [done|]. split; [done|]. split; [done|]. split.
  - intros Hlt. unfold debounce_timer, ripe. simpl. rewrite Nat.eqb_refl. simpl.
    assert (Nat.leb (now (db_loop s2) + wait) (now (db_loop s2) + list_sum dts) = false)
      as -> by (apply Nat.leb_gt; lia).
    done.
  - intros Hge. unfold debounce_timer, ripe. simpl. rewrite Nat.eqb_refl. simpl.
    assert (Nat.leb (now (db_loop s2) + wait) (now (db_loop s2) + list_sum dts) = true)
      as -> by (apply Nat.leb_le; lia).
    unfold clearTimeout. cbn [tm_captured timers tm_id now issued List.filter state_of
                              db_calls db_loop timeout].
    rewrite Nat.eqb_refl. cbn [negb].
    split; [done|]. split; [done|]. split; [done|].
    unfold debounced. simpl. rewrite <- app_assoc. by destruct (fails args).
Qed.

Lemma debounce_immediate_example :
  let s2 := debounce_run (fun _ => false) 300 true
              [DCall VUndef [VNum 1]; DTick 100; DCall VUndef [VNum 2]; DTick 300]
              debounce in
  let s4 := debounce_run (fun _ => false) 300 true
              [DCall VUndef [VNum 1]; DTick 100; DCall VUndef [VNum 2]; DTick 300;
               DCall VUndef [VNum 3]; DTick 300]
              debounce in
  db_calls s2 = [mkInvocation 0 VUndef [VNum 1] false]
  /\ db_calls (state_of (debounce_timer (fun _ => false) true 2 s2)) = db_calls s2
  /\ no_handle (timeout (state_of (debounce_timer (fun _ => false) true 2 s2))) = true
  /\ timers (db_loop s4) = [mkTimer 3 700 (VUndef, [VNum 3])]
  /\ timeout (state_of (debounce_timer (fun _ => false) true 3 s4)) = HNull.
Proof.
  destruct (immediate_debounce_runs_on_the_leading_edge (fun _ => false) 300 []
              VUndef [VNum 1] [DTick 100; DCall VUndef [VNum 2]; DTick 300]
              VUndef [VNum 3] [300] eq_refl eq_refl)
    as (H1 & H2 & (id0 & due & c & Ht & _ & Hn) & _ & _ & _ & _ & H8 & _ & H10).
  vm_compute in Ht. injection Ht as Hid Hdue Hc. subst id0 due.
  assert (Hd : 400 <= 400) by lia.
  assert (Hw : 300 <= list_sum [300]) by (simpl; lia).
  destruct (H10 Hw) as (_ & _ & H13 & _).
  exact (conj H1 (conj (H2 2) (conj (Hn Hd) (conj H8 H13)))).
Defined.

(** *** [rafThrottle] *)

Lemma RafInv_fresh : RafInv rafThrottle.
Proof. done. Qed.

Lemma raf_throttled_idle this args s :
  RafInv s -> requestId s = None ->
  raf_throttled this args s
  = mkRaf (Some (S (raf_issued s))) (Some args) [(S (raf_issued s), this)]
          (S (raf_issued s)) (raf_calls s).
Proof.
  unfold RafInv, raf_throttled. intros HI Hr. rewrite Hr in HI.
  simpl. rewrite Hr. unfold requestAnimationFrame. simpl. by rewrite HI.
Qed.

Lemma raf_throttled_busy this args id s :
  requestId s = Some id ->
  raf_throttled this args s
  = mkRaf (Some id) (Some args) (frames s) (raf_issued s) (raf_calls s).
Proof. unfold raf_throttled. simpl. by intros ->. Qed.

Lemma raf_cancel_state s :
  RafInv s ->
  raf_cancel s = mkRaf None (lastArgs s) [] (raf_issued s) (raf_calls s).
Proof.
  unfold RafInv, raf_cancel. destruct s as [[id|] la fr n cs]; simpl.
  - intros (context & ->). simpl. by rewrite Nat.eqb_refl.
  - by intros ->.
Qed.

Lemma raf_frame_state id s :
  RafInv s ->
  raf_frame id s = s
  \/ exists context,
       requestId s = Some id /\ frames s = [(id, context)]
       /\ raf_frame id s
          = mkRaf None (lastArgs s) [] (raf_issued s)
                  (raf_calls s ++ [(context, default [] (lastArgs s))]).
Proof.
  unfold RafInv, raf_frame. destruct s as [[id0|] la fr n cs]; simpl.
  - intros (context & ->). simpl. destruct (Nat.eqb id0 id) eqn:He; [|by left].
    apply Nat.eqb_eq in He as ->. right. exists context.
    unfold cancelAnimationFrame. simpl. by rewrite ?Nat.eqb_refl.
  - intros ->. by left.
Qed.

Lemma RafInv_step a s : RafInv s -> RafInv (raf_step a s).
Proof.
  intros HI. destruct a as [this args| |id]; cbn [raf_step].
  - destruct (requestId s) as [id|] eqn:Hr.
    + rewrite (raf_throttled_busy _ _ _ _ Hr). unfold RafInv in *. simpl.
      by rewrite Hr in HI.
    + rewrite (raf_throttled_idle _ _ _ HI Hr). unfold RafInv. simpl. eauto.
  - by rewrite (raf_cancel_state _ HI).
  - destruct (raf_frame_state id s HI) as [->|(context & _ & _ & ->)]; done.
Qed.

Lemma RafInv_run acts : forall s, RafInv s -> RafInv (raf_run acts s).
Proof.
  induction acts as [|a acts IH]; intros s HI; [done|].
  simpl. apply IH. by apply RafInv_step.
Qed.

Lemma raf_burst calls : forall id la fr n cs,
  raf_run (raf_calls_of calls) (mkRaf (Some id) (Some la) fr n cs)
  = mkRaf (Some id) (Some (default la (list.last (map snd calls)))) fr n cs.
Proof.
  induction calls as [|[this args] calls IH]; intros id la fr n cs; [done|].
  cbn [raf_calls_of map raf_run fold_left raf_step fst snd].
  rewrite (raf_throttled_busy this args id); [|done].
  cbn [frames raf_issued raf_calls].
  change (fold_left _ (map _ calls) ?s) with (raf_run (raf_calls_of calls) s).
  rewrite IH. do 2 f_equal.
  destruct calls as [|c calls]; [done|].
  cbn [map]. rewrite (last_cons_cons args (snd c)).
  destruct (list.last (snd c :: map snd calls)) eqn:Hl; [done|].
  by apply last_None in Hl.
Qed.

(** *** One callback per frame

    When the rafThrottle wrapper is called with no frame pending and then
    any number of times before the frame, one animation frame is requested
    and no callback happens until it runs; the frame then calls the
    callback exactly once, with the arguments of the last call but the
    this of the first call, and leaves no request pending. *)
Theorem animation_frame_gets_last_arguments_and_first_context acts this args calls :
  let s := raf_run acts rafThrottle in
  requestId s = None ->
  let s1 := raf_run (RCall this args :: raf_calls_of calls) s in
  let id := S (raf_issued s) in
  requestId s1 = Some id
  /\ frames s1 = [(id, this)]
  /\ raf_calls s1 = raf_calls s
  /\ raf_frame id s1
     = mkRaf None (lastArgs s1) [] id
             (raf_calls s ++ [(this, default args (list.last (map snd calls)))]).
Proof.
  intros s Hidle s1 id.
  pose proof (RafInv_run acts rafThrottle RafInv_fresh : RafInv s) as HI.
  assert (H1 : s1 = mkRaf (Some id) (Some (default args (list.last (map snd calls))))
                      [(id, this)] id (raf_calls s)).
  { subst s1. cbn [raf_run fold_left raf_step].
    rewrite (raf_throttled_idle _ _ _ HI Hidle).
    apply raf_burst. }
  rewrite H1. split; [done|]. split; [done|]. split; [done|].
  unfold raf_frame, cancelAnimationFrame. simpl. by rewrite !Nat.eqb_refl.
Qed.

Lemma animation_frame_example :
  let s1 := raf_run [RCall (VObj 1) [VNum 10]; RCall (VObj 2) [VNum 20];
                     RCall (VObj 3) [VNum 30]] rafThrottle in
  raf_calls (raf_frame 1 s1) = [(VObj 1, [VNum 30])].
Proof.
  destruct (animation_frame_gets_last_arguments_and_first_context []
              (VObj 1) [VNum 10] [(VObj 2, [VNum 20]); (VObj 3, [VNum 30])] eq_refl)
    as (_ & _ & _ & H).
  exact (f_equal raf_calls H).
Defined.

(** *** Cancelling

    At any time, cancel() leaves no animation frame pending and calls
    nothing: no frame that runs afterwards reaches the callback, so the
    calls made since the last frame are dropped. The next call of the
    wrapper requests a new frame with its own this and arguments. *)
Theorem cancel_drops_the_pending_frame acts this args :
  let s := raf_run acts rafThrottle in
  let s1 := raf_cancel s in
  raf_calls s1 = raf_calls s
  /\ (forall id, raf_frame id s1 = s1)
  /\ exists id, frames (raf_throttled this args s1) = [(id, this)]
                /\ lastArgs (raf_throttled this args s1) = Some args.
Proof.
  intros s s1.
  pose proof (RafInv_run acts rafThrottle RafInv_fresh : RafInv s) as HI.
  assert (H1 : s1 = mkRaf None (lastArgs s) [] (raf_issued s) (raf_calls s))
    by apply (raf_cancel_state _ HI).
  rewrite H1. split; [done|]. split; [done|].
  eexists. by rewrite raf_throttled_idle.
Qed.

End TimingProofs.

(** * The earlier event listener manager *)

Module LegacyProofs.
Import JS Legacy.

Lemma has_key_set k e l : existsb (has_key k) (map_set k e l) = true.
Proof.
  unfold map_set. destruct (existsb (has_key k) l) eqn:He.
  - apply existsb_exists in He as (kv & Hin & Hk).
    apply existsb_exists. exists (k, e). split.
    + apply in_map_iff. exists kv. by rewrite Hk.
    + apply String.eqb_refl.
  - rewrite existsb_app. simpl. unfold has_key at 2. simpl.
    rewrite String.eqb_refl. by rewrite orb_true_r.
Qed.

Lemma map_delete_absent k (l : list (string * Tracked)) :
  existsb (has_key k) l = false -> map_delete k l = l.
Proof.
  unfold map_delete. induction l as [|kv l IH]; [done|].
  simpl. intros Hno. apply orb_false_iff in Hno as [-> Hno]. simpl.
  by rewrite IH.
Qed.

Lemma map_delete_fresh k e (l : list (string * Tracked)) :
  existsb (has_key k) l = false -> map_delete k (map_set k e l) = l.
Proof.
  intros Hno. unfold map_set. rewrite Hno. unfold map_delete.
  rewrite List.filter_app. cbn [List.filter]. unfold has_key at 2. cbn [fst].
  rewrite String.eqb_refl. cbn [negb]. rewrite app_nil_r.
  by apply map_delete_absent.
Qed.

Lemma map_get_set k e (l : list (string * Tracked)) :
  existsb (has_key k) l = false -> map_get k (map_set k e l) = Some e.
Proof.
  intros Hno. unfold map_set, map_get. rewrite Hno.
  induction l as [|kv l IH]; simpl in *.
  - unfold has_key. simpl. by rewrite String.eqb_refl.
  - apply orb_false_iff in Hno as [-> Hno]. by apply IH.
Qed.

(** *** Listeners attached to a node *)

Lemma attached_add a event h options d :
  attached a event h (addEventListener a event h options d).
Proof.
  unfold attached, addEventListener.
  change (Events.listeners_of a (document (Events.nodes ?w)))
    with (Events.listeners_of a w).
  rewrite EventsProofs.addEventListener_listeners.
  destruct (decide (a = a)); [|done].
  destruct (existsb _ _) eqn:He.
  - apply existsb_exists in He as (l & Hl & Hs).
    apply EventsProofs.same_listener_inv in Hs as (Ht & Hc & _). eauto.
  - eexists. split; [apply in_or_app; right; left; reflexivity|done].
Qed.

Lemma attached_remove a event h b event' h' options d :
  (b, event', h') <> (a, event, h) -> attached a event h d ->
  attached a event h (removeEventListener b event' h' options d).
Proof.
  intros Hne (l & Hl & Ht & Hc). exists l. split; [|done].
  unfold removeEventListener.
  change (Events.listeners_of a (document (Events.nodes ?w)))
    with (Events.listeners_of a w).
  rewrite EventsProofs.removeEventListener_listeners.
  destruct (decide (b = a)) as [->|]; [|done].
  apply filter_In. split; [done|].
  destruct (Events.same_listener _ _ _ l) eqn:Hs; [|done].
  apply EventsProofs.same_listener_inv in Hs as (Ht' & Hc' & _). congruence.
Qed.

Lemma attached_remove_all a event h (E : list (string * Tracked)) : forall d,
  (forall kv, In kv E ->
     (tr_element (snd kv), tr_event (snd kv), tr_handler (snd kv)) <> (a, event, h)) ->
  attached a event h d ->
  attached a event h
    (fold_left
       (fun d kv => removeEventListener (tr_element (snd kv)) (tr_event (snd kv))
                      (tr_handler (snd kv)) (tr_options (snd kv)) d) E d).
Proof.
  induction E as [|kv E IH]; intros d Hne Ha; [done|].
  simpl. apply IH.
  - intros kv' Hkv'. apply Hne. by right.
  - apply attached_remove; [|done]. apply Hne. by left.
Qed.

Lemma attached_invoked a event h s :
  attached a event h (dom s) -> In h (invoked a event s).
Proof.
  intros (l & Hl & Ht & Hc). unfold invoked, dispatch.
  destruct (Events.dispatch a event (document (dom s))) as [called w] eqn:Hd.
  cbn [fst].
  assert (Hcalled : called = fst (Events.dispatch a event (document (dom s))))
    by (by rewrite Hd).
  rewrite Hcalled. apply (count_occ_In Nat.eq_dec).
  rewrite EventsProofs.dispatch_count. unfold Events.attachments.
  assert (1 <= length (List.filter
            (fun l0 => Events.of_type event l0 && Nat.eqb (Events.li_callback l0) h)
            (Events.listeners_of a (document (dom s))))); [|lia].
  apply (EventsProofs.filter_nonempty _ _ l Hl).
  unfold Events.of_type. rewrite Ht, String.eqb_refl. simpl. by apply Nat.eqb_eq.
Qed.

(** *** The keys *)

Lemma Keyed_step tagName name a s :
  Keyed tagName name s -> Keyed tagName name (interact tagName name a s).
Proof.
  intros HK. destruct a as [element event handler options|element event handler| |el type];
    cbn [interact].
  - unfold add. destruct (negb (truthy element)); [done|].
    destruct (existsb _ (listeners s)) eqn:He; [done|].
    destruct element; try done. cbn [manager_of]. unfold Keyed. cbn [listeners].
    unfold map_set. rewrite He. intros kv Hkv.
    apply in_app_or in Hkv as [Hkv|[<-|[]]]; [by apply HK|done].
  - unfold remove. destruct (negb (truthy element)); [done|].
    destruct (map_get _ _); [|done]. destruct element; try done.
    cbn [manager_of]. unfold Keyed. cbn [listeners]. intros kv Hkv.
    apply filter_In in Hkv as [Hkv _]. by apply HK.
  - unfold removeAll. cbn [manager_of]. by intros kv [].
  - exact HK.
Qed.

Lemma Keyed_run tagName name acts : forall s,
  Keyed tagName name s -> Keyed tagName name (interact_all tagName name acts s).
Proof.
  induction acts as [|a acts IH]; intros s HK; [done|].
  simpl. apply IH. by apply Keyed_step.
Qed.

Lemma Keyed_empty tagName name : Keyed tagName name empty.
Proof. by intros kv []. Qed.

(** *** Keys collide

    In the earlier EventListenerManager, whose key is tag name, event and
    handler name, once add(a, event, h) has run, add(b, event, h') for an
    element with the same tag name and a handler with the same name (two
    anonymous functions, say) does nothing at all: the second handler is
    neither attached nor recorded. *)
Theorem same_tag_event_and_name_collide tagName name a b event h h' options options' s :
  tagName a = tagName b -> name_text name h = name_text name h' ->
  let s1 := manager_of (add tagName name (VObj a) event h options s) in
  add tagName name (VObj b) event h' options' s1 = Ok s1.
Proof.
  intros Htag Hname s1.
  assert (Hk : _getKey tagName name (VObj b) event h'
               = _getKey tagName name (VObj a) event h).
  { unfold _getKey, tag_text. by rewrite Htag, Hname. }
  assert (Hin : existsb (has_key (_getKey tagName name (VObj a) event h))
                        (listeners s1) = true).
  { subst s1. unfold add. simpl.
    destruct (existsb _ (listeners s)) eqn:He; [done|]. simpl. apply has_key_set. }
  unfold add at 1. simpl. by rewrite Hk, Hin.
Qed.

Lemma same_tag_event_and_name_example :
  let tagName := fun _ : nat => Some "BUTTON" in
  let name := fun _ : nat => "" in
  let s1 := manager_of (add tagName name (VObj 1) "click" 7
                          Events.default_options empty) in
  add tagName name (VObj 2) "click" 8 Events.default_options s1 = Ok s1
  /\ invoked 2 "click" s1 = [].
Proof.
  intros tagName name. split; [|reflexivity].
  apply (same_tag_event_and_name_collide tagName name 1 2 "click" 7 8); reflexivity.
Defined.

(** *** A colliding remove orphans a listener

    In the earlier EventListenerManager, after add(a, event, h) under a
    fresh key, remove(b, event, h') for another element or handler with
    the same tag name and handler name deletes the entry of a and h from
    the map without detaching h from a. The handler stays attached and is
    still invoked by the event at a, also after removeAll(), which empties
    the map. *)
Theorem colliding_remove_orphans_the_listener tagName name acts a b event h h' options :
  let s := interact_all tagName name acts empty in
  existsb (has_key (_getKey tagName name (VObj a) event h)) (listeners s) = false ->
  tagName a = tagName b -> name_text name h = name_text name h' ->
  (b, h') <> (a, h) ->
  let s1 := manager_of (add tagName name (VObj a) event h options s) in
  let s2 := manager_of (remove tagName name (VObj b) event h' s1) in
  let s3 := manager_of (removeAll s2) in
  listeners s2 = listeners s
  /\ listeners s3 = []
  /\ In h (invoked a event s2)
  /\ In h (invoked a event s3).
Proof.
  intros s Hno Htag Hname Hne s1 s2 s3.
  pose proof (Keyed_run tagName name acts empty (Keyed_empty tagName name)
              : Keyed tagName name s) as HK.
  set (key := _getKey tagName name (VObj a) event h) in *.
  assert (Hk : _getKey tagName name (VObj b) event h' = key).
  { unfold key, _getKey, tag_text. by rewrite Htag, Hname. }
  assert (H1 : s1 = mkManager (map_set key (mkTracked a event h options) (listeners s))
                              (addEventListener a event h options (dom s))).
  { subst s1. unfold add. simpl. fold key. by rewrite Hno. }
  assert (H2 : s2 = mkManager (listeners s)
                      (removeEventListener b event h' options
                         (addEventListener a event h options (dom s)))).
  { subst s2. unfold remove. simpl. rewrite Hk, H1. cbn [listeners dom].
    rewrite (map_get_set _ _ _ Hno). cbn [manager_of tr_options].
    by rewrite (map_delete_fresh _ _ _ Hno). }
  assert (Ha2 : attached a event h (dom s2)).
  { rewrite H2. cbn [dom]. apply attached_remove; [congruence|apply attached_add]. }
  split; [by rewrite H2|]. split; [done|]. split.
  - by apply attached_invoked.
  - apply attached_invoked. subst s3. unfold removeAll.
    cbn [manager_of dom]. apply attached_remove_all; [|done].
    rewrite H2. cbn [listeners]. intros kv Hkv Heq.
    pose proof (HK kv Hkv) as Hkey. injection Heq as He Hev Hh.
    rewrite He, Hev, Hh in Hkey. fold key in Hkey.
    pose proof (EventsProofs.existsb_false_In _ _ kv Hno Hkv) as Hf.
    unfold has_key in Hf. rewrite Hkey, String.eqb_refl in Hf. done.
Qed.

Lemma colliding_remove_example :
  let tagName := fun _ : nat => Some "BUTTON" in
  let name := fun _ : nat => "" in
  let s1 := manager_of (add tagName name (VObj 1) "click" 7
                          Events.default_options empty) in
  let s2 := manager_of (remove tagName name (VObj 2) "click" 8 s1) in
  let s3 := manager_of (removeAll s2) in
  listeners s3 = [] /\ In 7 (invoked 1 "click" s3).
Proof.
  intros tagName name.
  assert (Hne : (2, 8) <> (1, 7)) by discriminate.
  destruct (colliding_remove_orphans_the_listener tagName name [] 1 2 "click" 7 8
              Events.default_options eq_refl eq_refl eq_refl Hne)
    as (_ & H3 & _ & H4).
  exact (conj H3 H4).
Defined.

End LegacyProofs.
